(** * Cross-index reference resolution: query_references.go

    A shallow embedding of the paginated reference resolver found in
    [enterprise/cmd/frontend/internal/codeintel/resolvers/query_references.go],
    together with the properties its specification states about it.

    Conventions of the embedding:
    - a Go [int] is a [Z] whose arithmetic wraps at 64 bits ([GoInt]);
    - a Go slice whose nil-ness the code observes is an [option (list _)]
      ([None] is the nil slice, [Some []] an allocated empty one);
    - a Go map used as a set is a [gset], a map used as a cache a [gmap];
    - a Go function returning [(T, error)] returns a [result T];
    - code mutating the cursor or the upload cache runs in the monad [M],
      which threads both and stops at the first error or panic. *)

From Stdlib Require Import ZArith Lia Ascii String.
From stdpp Require Import base gmap strings list sorting.

Local Open Scope Z_scope.

(** ** Machine integers *)

Module GoInt.

Definition min_int : Z := - 2 ^ 63.
Definition max_int : Z := 2 ^ 63 - 1.

Definition in_range (z : Z) : Prop := min_int <= z <= max_int.

(** Two's complement wrap-around of a mathematical integer. *)
Definition wrap (z : Z) : Z := (z + 2 ^ 63) mod 2 ^ 64 - 2 ^ 63.

Definition add (a b : Z) : Z := wrap (a + b).
Definition sub (a b : Z) : Z := wrap (a - b).

(** [len(s)] of a slice held as a list. *)
Definition len {A} (l : list A) : Z := Z.of_nat (length l).

End GoInt.

(** ** Errors *)

(** [errors.New], [errors.Wrap] and [multierror.Append]. *)
#[warnings="-register-all"]
Inductive error : Type :=
| ErrNew (msg : string)
| ErrWrap (cause : error) (msg : string)
| ErrMulti (errs : list error).

Inductive result (A : Type) : Type :=
| Ok (a : A)
| Err (e : error)
| Panic
| OutOfFuel.

Arguments Ok {A} a.
Arguments Err {A} e.
Arguments Panic {A}.
Arguments OutOfFuel {A}.

(** ** Data model *)

(** Types of package [lsifstore], which is not part of the sources. *)
Module lsifstore.

(** Modelled from the spec: a position is a zero-based line and character;
    the code reads both fields. *)
Record Position : Type := { Line : Z; Character : Z }.

(** Modelled from the spec: a range is a start and an end position (the Go
    field [End] is written [End_]). *)
Record Range : Type := { Start : Position; End_ : Position }.

(** Modelled from the spec: a location is an index ID, a path and a range
    (the Go field [Range] is written [Range_]). *)
Record Location : Type := { DumpID : Z; Path : string; Range_ : Range }.

End lsifstore.

(** Types of package [dbstore], which is not part of the sources. *)
Module dbstore.

(** Modelled from the spec: the Upload record, an ID, repository, commit,
    root path and indexer name; the code here reads only [ID]. *)
Record Dump : Type :=
  { ID : Z; RepositoryID : Z; Commit : string; Root : string; Indexer : string }.

(** Modelled from the spec: what a candidate scan yields, an index ID and
    its encoded bloom filter; the code reads both fields. *)
Record PackageReference : Type := { DumpID : Z; Filter : list Byte.byte }.

End dbstore.

(** Types of package [precise], which is not part of the sources. *)
Module precise.

(** Modelled from the spec: a moniker is a scheme, an identifier and a
    kind; the code here reads only [Identifier]. *)
Record QualifiedMonikerData : Type :=
  { Kind : string; Scheme : string; Identifier : string }.

End precise.

(** Modelled from the spec: an upload with the query path and position
    adjusted to its commit; the fields are those of the struct literal in
    [adjustedUploadsFromCursor]. *)
Record adjustedUpload : Type :=
  { Upload : dbstore.Dump;
    AdjustedPath : string;
    AdjustedPosition : lsifstore.Position;
    AdjustedPathInBundle : string }.

(** Modelled from the spec: the cursor's cached form of an adjusted upload,
    holding the upload's ID in place of the upload; the fields are those of
    the struct literal in [adjustedUploadsFromCursor], each prefixed with
    [cursor] here. *)
Record cursorAdjustedUpload : Type :=
  { cursorDumpID : Z;
    cursorAdjustedPath : string;
    cursorAdjustedPosition : lsifstore.Position;
    cursorAdjustedPathInBundle : string }.

(** ** Range containment *)

Definition rangeContainsPosition (r : lsifstore.Range) (pos : lsifstore.Position) : bool :=
  if lsifstore.Line pos <? lsifstore.Line (lsifstore.Start r) then false
  else if lsifstore.Line pos >? lsifstore.Line (lsifstore.End_ r) then false
  else if (lsifstore.Line pos =? lsifstore.Line (lsifstore.Start r))
          && (lsifstore.Character pos <? lsifstore.Character (lsifstore.Start r))
       then false
  else if (lsifstore.Line pos =? lsifstore.Line (lsifstore.End_ r))
          && (lsifstore.Character pos >? lsifstore.Character (lsifstore.End_ r))
       then false
  else true.

(** Lexicographic order on (line, character). *)
Definition pos_lt (p q : lsifstore.Position) : Prop :=
  lsifstore.Line p < lsifstore.Line q
  \/ (lsifstore.Line p = lsifstore.Line q
      /\ lsifstore.Character p < lsifstore.Character q).

Definition pos_le (p q : lsifstore.Position) : Prop :=
  lsifstore.Line p < lsifstore.Line q
  \/ (lsifstore.Line p = lsifstore.Line q
      /\ lsifstore.Character p <= lsifstore.Character q).

(** isSourceLocation: does the location enclose the source position
    within one of the visible uploads? *)
Fixpoint isSourceLocation (adjustedUploads : list adjustedUpload)
    (location : lsifstore.Location) : bool :=
  match adjustedUploads with
  | [] => false
  | u :: rest =>
      if (lsifstore.DumpID location =? dbstore.ID (Upload u))
         && String.eqb (lsifstore.Path location) (AdjustedPath u)
         && rangeContainsPosition (lsifstore.Range_ location) (AdjustedPosition u)
      then true
      else isSourceLocation rest location
  end.

(** ** The cursor *)

(** Modelled from the spec: the cursor struct is declared in a file that is
    not part of the sources; these are the fields the code reads and writes,
    which are the fields the specification lists.  The three cached slices
    and [BatchIDs] are compared with nil or assigned nil by the code. *)
Record referencesCursor : Type :=
  { AdjustedUploads : option (list cursorAdjustedUpload);
    DefinitionUploadIDs : option (list Z);
    OrderedMonikers : option (list precise.QualifiedMonikerData);
    Phase : string;
    LocalOffset : Z;
    LocalBatchOffset : Z;
    RemoteOffset : Z;
    BatchIDs : option (list Z);
    RemoteBatchOffset : Z }.

(** The elements of a slice; a nil slice has none. *)
Definition elems {A} (s : option (list A)) : list A := default [] s.

Definition setAdjustedUploads v (c : referencesCursor) : referencesCursor :=
  {| AdjustedUploads := v; DefinitionUploadIDs := DefinitionUploadIDs c;
     OrderedMonikers := OrderedMonikers c; Phase := Phase c;
     LocalOffset := LocalOffset c; LocalBatchOffset := LocalBatchOffset c;
     RemoteOffset := RemoteOffset c; BatchIDs := BatchIDs c;
     RemoteBatchOffset := RemoteBatchOffset c |}.

Definition setDefinitionUploadIDs v (c : referencesCursor) : referencesCursor :=
  {| AdjustedUploads := AdjustedUploads c; DefinitionUploadIDs := v;
     OrderedMonikers := OrderedMonikers c; Phase := Phase c;
     LocalOffset := LocalOffset c; LocalBatchOffset := LocalBatchOffset c;
     RemoteOffset := RemoteOffset c; BatchIDs := BatchIDs c;
     RemoteBatchOffset := RemoteBatchOffset c |}.

Definition setOrderedMonikers v (c : referencesCursor) : referencesCursor :=
  {| AdjustedUploads := AdjustedUploads c; DefinitionUploadIDs := DefinitionUploadIDs c;
     OrderedMonikers := v; Phase := Phase c;
     LocalOffset := LocalOffset c; LocalBatchOffset := LocalBatchOffset c;
     RemoteOffset := RemoteOffset c; BatchIDs := BatchIDs c;
     RemoteBatchOffset := RemoteBatchOffset c |}.

Definition setPhase v (c : referencesCursor) : referencesCursor :=
  {| AdjustedUploads := AdjustedUploads c; DefinitionUploadIDs := DefinitionUploadIDs c;
     OrderedMonikers := OrderedMonikers c; Phase := v;
     LocalOffset := LocalOffset c; LocalBatchOffset := LocalBatchOffset c;
     RemoteOffset := RemoteOffset c; BatchIDs := BatchIDs c;
     RemoteBatchOffset := RemoteBatchOffset c |}.

Definition setLocalOffset v (c : referencesCursor) : referencesCursor :=
  {| AdjustedUploads := AdjustedUploads c; DefinitionUploadIDs := DefinitionUploadIDs c;
     OrderedMonikers := OrderedMonikers c; Phase := Phase c;
     LocalOffset := v; LocalBatchOffset := LocalBatchOffset c;
     RemoteOffset := RemoteOffset c; BatchIDs := BatchIDs c;
     RemoteBatchOffset := RemoteBatchOffset c |}.

Definition setLocalBatchOffset v (c : referencesCursor) : referencesCursor :=
  {| AdjustedUploads := AdjustedUploads c; DefinitionUploadIDs := DefinitionUploadIDs c;
     OrderedMonikers := OrderedMonikers c; Phase := Phase c;
     LocalOffset := LocalOffset c; LocalBatchOffset := v;
     RemoteOffset := RemoteOffset c; BatchIDs := BatchIDs c;
     RemoteBatchOffset := RemoteBatchOffset c |}.

Definition setRemoteOffset v (c : referencesCursor) : referencesCursor :=
  {| AdjustedUploads := AdjustedUploads c; DefinitionUploadIDs := DefinitionUploadIDs c;
     OrderedMonikers := OrderedMonikers c; Phase := Phase c;
     LocalOffset := LocalOffset c; LocalBatchOffset := LocalBatchOffset c;
     RemoteOffset := v; BatchIDs := BatchIDs c;
     RemoteBatchOffset := RemoteBatchOffset c |}.

Definition setBatchIDs v (c : referencesCursor) : referencesCursor :=
  {| AdjustedUploads := AdjustedUploads c; DefinitionUploadIDs := DefinitionUploadIDs c;
     OrderedMonikers := OrderedMonikers c; Phase := Phase c;
     LocalOffset := LocalOffset c; LocalBatchOffset := LocalBatchOffset c;
     RemoteOffset := RemoteOffset c; BatchIDs := v;
     RemoteBatchOffset := RemoteBatchOffset c |}.

Definition setRemoteBatchOffset v (c : referencesCursor) : referencesCursor :=
  {| AdjustedUploads := AdjustedUploads c; DefinitionUploadIDs := DefinitionUploadIDs c;
     OrderedMonikers := OrderedMonikers c; Phase := Phase c;
     LocalOffset := LocalOffset c; LocalBatchOffset := LocalBatchOffset c;
     RemoteOffset := RemoteOffset c; BatchIDs := BatchIDs c;
     RemoteBatchOffset := v |}.

(** ** The resolver monad *)

(** What a page resolution mutates: the cursor decoded for this page and the
    resolver's upload cache. *)
Record state : Type :=
  { cursor : referencesCursor;
    uploadCache : gmap Z dbstore.Dump }.

Definition M (A : Type) : Type := state -> result A * state.

#[global] Instance M_ret : MRet M := fun A a s => (Ok a, s).

#[global] Instance M_bind : MBind M := fun A B f m s =>
  match m s with
  | (Ok a, s') => f a s'
  | (Err e, s') => (Err e, s')
  | (Panic, s') => (Panic, s')
  | (OutOfFuel, s') => (OutOfFuel, s')
  end.

Definition getCursor : M referencesCursor := fun s => (Ok (cursor s), s).

Definition modifyCursor (f : referencesCursor -> referencesCursor) : M unit :=
  fun s => (Ok tt, {| cursor := f (cursor s); uploadCache := uploadCache s |}).

Definition getUploadCache : M (gmap Z dbstore.Dump) := fun s => (Ok (uploadCache s), s).

Definition modifyUploadCache (f : gmap Z dbstore.Dump -> gmap Z dbstore.Dump) : M unit :=
  fun s => (Ok tt, {| cursor := cursor s; uploadCache := f (uploadCache s) |}).

Definition throw {A} (e : error) : M A := fun s => (Err e, s).
Definition panic {A} : M A := fun s => (Panic, s).
Definition outOfFuel {A} : M A := fun s => (OutOfFuel, s).

(** A collaborator's [(T, error)] answer, returned as it is. *)
Definition try {A} (r : error + A) : M A :=
  match r with inl e => throw e | inr a => mret a end.

(** A collaborator's answer, its error wrapped by [errors.Wrap(err, msg)]. *)
Definition tryWrap {A} (msg : string) (r : error + A) : M A :=
  match r with inl e => throw (ErrWrap e msg) | inr a => mret a end.

Definition liftResult {A} (r : result A) : M A := fun s => (r, s).

Definition when (b : bool) (m : M unit) : M unit := if b then m else mret tt.

(** ** Collaborators *)

(** What [scanner.Next()] yields, call after call; an exhausted scanner
    answers [exists = false]. *)
Inductive scanEvent : Type :=
| ScanRecord (packageReference : dbstore.PackageReference)
| ScanError (err : error).

Record Scanner : Type :=
  { scanEvents : list scanEvent;
    scanClose : option error }.

(** The [DBStore] interface, with the two methods called here. *)
Module DBStore.
Record t : Type :=
  { ReferenceIDsAndFilters :
      Z -> string -> list precise.QualifiedMonikerData -> Z -> Z -> error + (Scanner * Z);
    GetDumpsByIDs : list Z -> error + list dbstore.Dump }.
End DBStore.

(** The [LSIFStore] interface: (id, path, line, character, limit, offset). *)
Module LSIFStore.
Record t : Type :=
  { References :
      Z -> string -> Z -> Z -> Z -> Z -> error + (list lsifstore.Location * Z);
    Implementations :
      Z -> string -> Z -> Z -> Z -> Z -> error + (list lsifstore.Location * Z) }.
End LSIFStore.

(** The resolver.  Its stores are interfaces; the methods [adjustUploads],
    [orderedMonikers], [definitionUploads], [monikerLocations] and
    [adjustLocations] are defined in files that are not part of the sources
    and are taken as they are called: as functions of their arguments that
    answer a value or an error.  The mutable [uploadCache] lives in [state]. *)
Record queryResolver (AdjustedLocation : Type) : Type :=
  { repositoryID : Z;
    commit : string;
    path : string;
    dbStore : DBStore.t;
    lsifStore : LSIFStore.t;
    adjustUploads : Z -> Z -> error + list adjustedUpload;
    orderedMonikers :
      list adjustedUpload -> string -> error + option (list precise.QualifiedMonikerData);
    definitionUploads : list precise.QualifiedMonikerData -> error + list dbstore.Dump;
    monikerLocations :
      list dbstore.Dump -> list precise.QualifiedMonikerData -> string -> Z -> Z ->
      error + (list lsifstore.Location * Z);
    adjustLocations : list lsifstore.Location -> error + list AdjustedLocation }.

Arguments repositoryID {AdjustedLocation} _.
Arguments commit {AdjustedLocation} _.
Arguments path {AdjustedLocation} _.
Arguments dbStore {AdjustedLocation} _.
Arguments lsifStore {AdjustedLocation} _.
Arguments adjustUploads {AdjustedLocation} _.
Arguments orderedMonikers {AdjustedLocation} _.
Arguments definitionUploads {AdjustedLocation} _.
Arguments monikerLocations {AdjustedLocation} _.
Arguments adjustLocations {AdjustedLocation} _.

Definition ErrConcurrentModification : error :=
  ErrNew "result set changed while paginating".

Definition maximumIndexesPerMonikerSearch : Z := 50.

(** [sort.Ints]: sorts a slice of ints in increasing order. *)
Definition sort_Ints (l : list Z) : list Z := merge_sort Z.le l.

(** [s[low:]]: panics unless [0 <= low <= len(s)]. *)
Definition sliceFrom {A} (l : list A) (low : Z) : M (list A) :=
  if (low <? 0) || (low >? GoInt.len l) then panic
  else mret (drop (Z.to_nat low) l).

(** ** The resolver's functions *)

Section Resolver.

Context {AdjustedLocation : Type}.

(** Package-level functions defined outside the sources. *)
Variable bloomfilter_Decode : list Byte.byte -> error + (string -> bool).
Variable filterUploadsWithCommits : list dbstore.Dump -> error + list dbstore.Dump.
Variable decodeCursor : string -> error + referencesCursor.
Variable encodeCursor : referencesCursor -> string.
Variable strconv_Quote : string -> string.

Variable r : queryResolver AdjustedLocation.

(** *** testFilter *)

Fixpoint testFilter_loop (includesIdentifier : string -> bool)
    (orderedMonikers : list precise.QualifiedMonikerData) : bool :=
  match orderedMonikers with
  | [] => false
  | moniker :: rest =>
      if includesIdentifier (precise.Identifier moniker) then true
      else testFilter_loop includesIdentifier rest
  end.

Definition testFilter (filter : list Byte.byte)
    (orderedMonikers : list precise.QualifiedMonikerData) : result bool :=
  match bloomfilter_Decode filter with
  | inl err => Err (ErrWrap err "bloomfilter.Decode")
  | inr includesIdentifier => Ok (testFilter_loop includesIdentifier orderedMonikers)
  end.

(** *** uploadIDsWithReferences *)

(** [for id := range ignoreIDs { ignoreIDsMap[id] = struct{}{} }]: with a
    single iteration variable, [range] over a slice yields the indexes
    [0 .. len(ignoreIDs)-1]. *)
Definition ignoreIDsMap (ignoreIDs : list Z) : gset Z :=
  list_to_set (seqZ 0 (GoInt.len ignoreIDs)).

(** The scan loop [for len(filtered) < limit { ... }]; it answers the
    filtered set and the number of records scanned. *)
Fixpoint uploadIDsWithReferences_loop
    (orderedMonikers : list precise.QualifiedMonikerData)
    (ignored : gset Z) (limit : Z) (events : list scanEvent)
    (filtered : gset Z) (recordsScanned : Z) : result (gset Z * Z) :=
  if Z.of_nat (size filtered) <? limit then
    match events with
    | [] => Ok (filtered, recordsScanned)
    | ScanError err :: _ => Err (ErrWrap err "dbstore.ReferenceIDsAndFilters.Next")
    | ScanRecord packageReference :: rest =>
        let recordsScanned := GoInt.add recordsScanned 1 in
        if decide (dbstore.DumpID packageReference ∈ filtered) then
          uploadIDsWithReferences_loop orderedMonikers ignored limit rest filtered recordsScanned
        else if decide (dbstore.DumpID packageReference ∈ ignored) then
          uploadIDsWithReferences_loop orderedMonikers ignored limit rest filtered recordsScanned
        else
          match testFilter (dbstore.Filter packageReference) orderedMonikers with
          | Ok true =>
              uploadIDsWithReferences_loop orderedMonikers ignored limit rest
                ({[dbstore.DumpID packageReference]} ∪ filtered) recordsScanned
          | Ok false =>
              uploadIDsWithReferences_loop orderedMonikers ignored limit rest filtered recordsScanned
          | Err err => Err err
          | Panic => Panic
          | OutOfFuel => OutOfFuel
          end
    end
  else Ok (filtered, recordsScanned).

(** The deferred [scanner.Close()]: a close error is appended to the error
    being returned, if any, and makes the call fail. *)
Definition deferClose {A} (closeErr : option error) (res : result A) : result A :=
  match closeErr with
  | None => res
  | Some e =>
      let wrapped := ErrWrap e "dbstore.ReferenceIDsAndFilters.Close" in
      match res with
      | Err err => Err (ErrMulti [err; wrapped])
      | Ok _ => Err (ErrMulti [wrapped])
      | Panic => Panic
      | OutOfFuel => OutOfFuel
      end
  end.

(** Answers [(ids, recordsScanned, totalCount)].  Go ranges over the map
    [filtered] in an unspecified order; [elements] is one such order, and
    [sort_Ints] makes the answer independent of it. *)
Definition uploadIDsWithReferences
    (orderedMonikers : list precise.QualifiedMonikerData)
    (ignoreIDs : list Z) (limit offset : Z) : result (list Z * Z * Z) :=
  match DBStore.ReferenceIDsAndFilters (dbStore r) (repositoryID r) (commit r)
          orderedMonikers limit offset with
  | inl err => Err (ErrWrap err "dbstore.ReferenceIDsAndFilters")
  | inr (scanner, totalCount) =>
      deferClose (scanClose scanner)
        match uploadIDsWithReferences_loop orderedMonikers (ignoreIDsMap ignoreIDs)
                limit (scanEvents scanner) ∅ 0 with
        | Ok (filtered, recordsScanned) =>
            let flattened := elements filtered in
            Ok (sort_Ints flattened, recordsScanned, totalCount)
        | Err err => Err err
        | Panic => Panic
        | OutOfFuel => OutOfFuel
        end
  end.

(** *** uploadsByIDs *)

(** The first loop: split [ids] into cached uploads and missing ids. *)
Fixpoint uploadsByIDs_loop (cache : gmap Z dbstore.Dump) (ids : list Z)
    (missingIDs : list Z) (existingUploads : list dbstore.Dump)
    : list Z * list dbstore.Dump :=
  match ids with
  | [] => (missingIDs, existingUploads)
  | id :: rest =>
      match cache !! id with
      | Some upload => uploadsByIDs_loop cache rest missingIDs (existingUploads ++ [upload])
      | None => uploadsByIDs_loop cache rest (missingIDs ++ [id]) existingUploads
      end
  end.

Definition uploadsByIDs (ids : list Z) : M (list dbstore.Dump) :=
  cache ← getUploadCache;
  let '(missingIDs, existingUploads) := uploadsByIDs_loop cache ids [] [] in
  uploads ← tryWrap "dbstore.GetDumpsByIDs" (DBStore.GetDumpsByIDs (dbStore r) missingIDs);
  match filterUploadsWithCommits uploads with
  | inl _ => mret []
  | inr newUploads =>
      modifyUploadCache (fun cache =>
        foldl (fun cache upload => <[dbstore.ID upload := upload]> cache) cache newUploads);;
      mret (existingUploads ++ newUploads)
  end.

(** *** adjustedUploadsFromCursor *)

Definition toAdjustedUpload (upload : dbstore.Dump) (u : cursorAdjustedUpload)
    : adjustedUpload :=
  {| Upload := upload;
     AdjustedPath := cursorAdjustedPath u;
     AdjustedPosition := cursorAdjustedPosition u;
     AdjustedPathInBundle := cursorAdjustedPathInBundle u |}.

Definition toCursorAdjustedUpload (u : adjustedUpload) : cursorAdjustedUpload :=
  {| cursorDumpID := dbstore.ID (Upload u);
     cursorAdjustedPath := AdjustedPath u;
     cursorAdjustedPosition := AdjustedPosition u;
     cursorAdjustedPathInBundle := AdjustedPathInBundle u |}.

(** The loop over the cursor's cached uploads. *)
Fixpoint adjustedUploadsFromCursor_loop (cache : gmap Z dbstore.Dump)
    (cursorAdjustedUploads : list cursorAdjustedUpload)
    (adjustedUploads : list adjustedUpload) : result (list adjustedUpload) :=
  match cursorAdjustedUploads with
  | [] => Ok adjustedUploads
  | u :: rest =>
      match cache !! cursorDumpID u with
      | None => Err ErrConcurrentModification
      | Some upload =>
          adjustedUploadsFromCursor_loop cache rest
            (adjustedUploads ++ [toAdjustedUpload upload u])
      end
  end.

Definition adjustedUploadsFromCursor (line character : Z) : M (list adjustedUpload) :=
  c ← getCursor;
  match AdjustedUploads c with
  | Some cursorAdjustedUploads =>
      cache ← getUploadCache;
      liftResult (adjustedUploadsFromCursor_loop cache cursorAdjustedUploads [])
  | None =>
      adjustedUploads ← try (adjustUploads r line character);
      modifyCursor (setAdjustedUploads (Some (map toCursorAdjustedUpload adjustedUploads)));;
      mret adjustedUploads
  end.

(** *** definitionUploadIDsFromCursor *)

Definition definitionUploadIDsFromCursor (adjustedUploads : list adjustedUpload)
    (orderedMonikers : list precise.QualifiedMonikerData) : M (list Z) :=
  c ← getCursor;
  match DefinitionUploadIDs c with
  | Some ids => mret ids
  | None =>
      definitionUploads ← try (definitionUploads r orderedMonikers);
      let found (d : dbstore.Dump) :=
        existsb (fun u => dbstore.ID d =? dbstore.ID (Upload u)) adjustedUploads in
      let definitionUploadIDs :=
        map dbstore.ID (List.filter (fun d => negb (found d)) definitionUploads) in
      modifyCursor (setDefinitionUploadIDs (Some definitionUploadIDs));;
      mret definitionUploadIDs
  end.

(** *** pageLocalReferences *)

Fixpoint pageLocalReferences_loop (ty : string) (uploads : list adjustedUpload)
    (limit : Z) (allLocations : list lsifstore.Location)
    : M (list lsifstore.Location) :=
  match uploads with
  | [] => mret allLocations
  | adjustedUpload :: rest =>
      if GoInt.len allLocations >=? limit then mret allLocations
      else
        let fn :=
          if String.eqb ty "implementations"
          then LSIFStore.Implementations (lsifStore r)
          else LSIFStore.References (lsifStore r) in
        c ← getCursor;
        '(locations, totalCount) ← tryWrap "lsifstore.References"
          (fn (dbstore.ID (Upload adjustedUpload))
              (AdjustedPathInBundle adjustedUpload)
              (lsifstore.Line (AdjustedPosition adjustedUpload))
              (lsifstore.Character (AdjustedPosition adjustedUpload))
              (GoInt.sub limit (GoInt.len allLocations))
              (LocalOffset c));
        modifyCursor (fun c => setLocalOffset (GoInt.add (LocalOffset c) (GoInt.len locations)) c);;
        c ← getCursor;
        when (LocalOffset c >=? totalCount)
          (modifyCursor (setLocalOffset 0);;
           modifyCursor (fun c => setLocalBatchOffset (GoInt.add (LocalBatchOffset c) 1) c));;
        pageLocalReferences_loop ty rest limit (allLocations ++ locations)
  end.

Definition pageLocalReferences (ty : string) (adjustedUploads : list adjustedUpload)
    (limit : Z) : M (list lsifstore.Location * bool) :=
  c ← getCursor;
  uploads ← sliceFrom adjustedUploads (LocalBatchOffset c);
  allLocations ← pageLocalReferences_loop ty uploads limit [];
  c ← getCursor;
  mret (allLocations, LocalBatchOffset c <? GoInt.len adjustedUploads).

(** *** pageRemoteReferences *)

(** The batch acquisition loop [for len(cursor.BatchIDs) == 0 { ... }].
    It answers [false] where the source returns [nil, false, nil] from
    inside the loop, and [true] when it leaves the loop with a batch. *)
Fixpoint pageRemoteReferences_batches (fuel : nat)
    (orderedMonikers : list precise.QualifiedMonikerData)
    (definitionUploadIDs : list Z) : M bool :=
  c ← getCursor;
  if GoInt.len (elems (BatchIDs c)) =? 0 then
    if RemoteBatchOffset c <? 0 then mret false
    else
      match fuel with
      | O => outOfFuel
      | S fuel' =>
          '(referenceUploadIDs, recordScanned, totalCount) ←
            liftResult (uploadIDsWithReferences orderedMonikers definitionUploadIDs
                          maximumIndexesPerMonikerSearch (RemoteBatchOffset c));
          modifyCursor (setBatchIDs (Some referenceUploadIDs));;
          modifyCursor (fun c =>
            setRemoteBatchOffset (GoInt.add (RemoteBatchOffset c) recordScanned) c);;
          c ← getCursor;
          when (RemoteBatchOffset c >=? totalCount)
            (modifyCursor (setRemoteBatchOffset (-1)));;
          pageRemoteReferences_batches fuel' orderedMonikers definitionUploadIDs
      end
  else mret true.

Definition pageRemoteReferences (fuel : nat) (lsifDataTable : string)
    (adjustedUploads : list adjustedUpload)
    (orderedMonikers : list precise.QualifiedMonikerData)
    (definitionUploadIDs : list Z) (limit : Z)
    : M (list lsifstore.Location * bool) :=
  batch ← pageRemoteReferences_batches fuel orderedMonikers definitionUploadIDs;
  if negb batch then mret ([], false)
  else
    c ← getCursor;
    monikerSearchUploads ← uploadsByIDs (elems (BatchIDs c));
    c ← getCursor;
    '(locations, totalCount) ←
      try (monikerLocations r monikerSearchUploads orderedMonikers lsifDataTable
             limit (RemoteOffset c));
    modifyCursor (fun c => setRemoteOffset (GoInt.add (RemoteOffset c) (GoInt.len locations)) c);;
    c ← getCursor;
    when (RemoteOffset c >=? totalCount)
      (modifyCursor (setRemoteOffset 0);;
       modifyCursor (setBatchIDs None));;
    let filtered :=
      List.filter (fun location => negb (isSourceLocation adjustedUploads location)) locations in
    c ← getCursor;
    mret (filtered, (GoInt.len (elems (BatchIDs c)) >? 0) || (RemoteBatchOffset c >=? 0)).

(** *** References *)

(** Phase 1 of [References]. *)
Definition referencesLocalPhase (adjustedUploads : list adjustedUpload) (limit : Z)
    (locations : list lsifstore.Location) : M (list lsifstore.Location) :=
  c ← getCursor;
  if String.eqb (Phase c) "local" then
    '(localLocations, hasMore) ←
      pageLocalReferences "references" adjustedUploads
        (GoInt.sub limit (GoInt.len locations));
    when (negb hasMore) (modifyCursor (setPhase "remote"));;
    mret (locations ++ localLocations)
  else mret locations.

(** The loop [for len(locations) < limit { ... }] of phase 2. *)
Fixpoint referencesRemoteLoop (fuel : nat) (adjustedUploads : list adjustedUpload)
    (definitionUploadIDs : list Z) (limit : Z)
    (locations : list lsifstore.Location) : M (list lsifstore.Location) :=
  if GoInt.len locations <? limit then
    match fuel with
    | O => outOfFuel
    | S fuel' =>
        c ← getCursor;
        '(remoteLocations, hasMore) ←
          pageRemoteReferences fuel "references" adjustedUploads
            (elems (OrderedMonikers c)) definitionUploadIDs
            (GoInt.sub limit (GoInt.len locations));
        if negb hasMore then
          modifyCursor (setPhase "done");;
          mret (locations ++ remoteLocations)
        else
          referencesRemoteLoop fuel' adjustedUploads definitionUploadIDs limit
            (locations ++ remoteLocations)
    end
  else mret locations.

(** Phase 2 of [References]. *)
Definition referencesRemotePhase (fuel : nat) (adjustedUploads : list adjustedUpload)
    (definitionUploadIDs : list Z) (limit : Z)
    (locations : list lsifstore.Location) : M (list lsifstore.Location) :=
  c ← getCursor;
  if String.eqb (Phase c) "remote" then
    referencesRemoteLoop fuel adjustedUploads definitionUploadIDs limit locations
  else mret locations.

(** The resumable data of [References]: the adjusted uploads, the ordered
    monikers (stashed in the cursor) and the definition upload IDs. *)
Definition referencesPrelude (line character : Z)
    : M (list adjustedUpload * list Z) :=
  adjustedUploads ← adjustedUploadsFromCursor line character;
  c ← getCursor;
  match OrderedMonikers c with
  | None =>
      monikers ← try (orderedMonikers r adjustedUploads "export");
      modifyCursor (setOrderedMonikers monikers)
  | Some _ => mret tt
  end;;
  c ← getCursor;
  definitionUploadIDs ←
    definitionUploadIDsFromCursor adjustedUploads (elems (OrderedMonikers c));
  mret (adjustedUploads, definitionUploadIDs).

(** [References] after the cursor has been decoded. *)
Definition referencesPage (fuel : nat) (line character limit : Z)
    : M (list AdjustedLocation * string) :=
  '(adjustedUploads, definitionUploadIDs) ← referencesPrelude line character;
  locations ← referencesLocalPhase adjustedUploads limit [];
  locations ← referencesRemotePhase fuel adjustedUploads definitionUploadIDs limit locations;
  adjustedLocations ← try (adjustLocations r locations);
  c ← getCursor;
  let nextCursor := if negb (String.eqb (Phase c) "done") then encodeCursor c else "" in
  mret (adjustedLocations, nextCursor).

Definition References (fuel : nat) (line character limit : Z) (rawCursor : string)
    (cache : gmap Z dbstore.Dump)
    : result (list AdjustedLocation * string) :=
  match decodeCursor rawCursor with
  | inl err => Err (ErrWrap err ("invalid cursor: " +:+ strconv_Quote rawCursor))
  | inr cursor =>
      fst (referencesPage fuel line character limit
             {| cursor := cursor; uploadCache := cache |})
  end.

End Resolver.

(** ** The cursor codec *)

(** Modelled from the spec: [encodeCursor] and [decodeCursor] are defined in
    a file that is not part of the sources.  The specification fixes their
    contract and leaves the wire format open: a token is a string; the empty
    token decodes to the zero-valued cursor with [Phase = local]; a token
    that does not parse, or whose schema version is not the current one, is
    rejected with [MalformedCursor]; the cursor is a fixed, versioned
    structure with an explicit schema version field.  The format chosen here
    is a version tag followed by the fields in declaration order, integers in
    signed binary, strings and slices length-prefixed, a nil slice marked
    apart from an allocated one. *)
Module Codec.

Definition parser (A : Type) : Type := string -> option (A * string).

Definition pret {A} (a : A) : parser A := fun s => Some (a, s).

Definition pbind {A B} (p : parser A) (f : A -> parser B) : parser B :=
  fun s => match p s with
           | Some (a, rest) => f a rest
           | None => None
           end.

(** Binary digits, least significant first, closed by a dot. *)
Fixpoint encPositive (p : positive) : string :=
  match p with
  | xH => "."
  | xO q => String "0"%char (encPositive q)
  | xI q => String "1"%char (encPositive q)
  end.

Fixpoint decPositive (s : string) : option (positive * string) :=
  match s with
  | String "."%char rest => Some (xH, rest)
  | String "0"%char rest =>
      match decPositive rest with
      | Some (q, rest') => Some (xO q, rest')
      | None => None
      end
  | String "1"%char rest =>
      match decPositive rest with
      | Some (q, rest') => Some (xI q, rest')
      | None => None
      end
  | _ => None
  end.

Definition encInt (z : Z) : string :=
  match z with
  | Z0 => "z"
  | Zpos p => String "+"%char (encPositive p)
  | Zneg p => String "-"%char (encPositive p)
  end.

Definition decInt : parser Z := fun s =>
  match s with
  | String "z"%char rest => Some (Z0, rest)
  | String "+"%char rest =>
      match decPositive rest with
      | Some (p, rest') => Some (Zpos p, rest')
      | None => None
      end
  | String "-"%char rest =>
      match decPositive rest with
      | Some (p, rest') => Some (Zneg p, rest')
      | None => None
      end
  | _ => None
  end.

Definition encLen (n : nat) : string := encInt (Z.of_nat n).

Definition decLen : parser nat :=
  pbind decInt (fun z => if z <? 0 then fun _ => None else pret (Z.to_nat z)).

(** The first [n] characters and what follows them. *)
Fixpoint takeChars (n : nat) : parser string := fun s =>
  match n with
  | O => Some (EmptyString, s)
  | S n' =>
      match s with
      | EmptyString => None
      | String c rest =>
          match takeChars n' rest with
          | Some (t, rest') => Some (String c t, rest')
          | None => None
          end
      end
  end.

Definition encString (s : string) : string := encLen (String.length s) +:+ s.

Definition decString : parser string := pbind decLen takeChars.

Section Containers.
Context {A : Type} (enc : A -> string) (dec : parser A).

Fixpoint encItems (l : list A) : string :=
  match l with
  | [] => EmptyString
  | x :: rest => enc x +:+ encItems rest
  end.

Fixpoint decItems (n : nat) : parser (list A) :=
  match n with
  | O => pret []
  | S n' => pbind dec (fun x => pbind (decItems n') (fun rest => pret (x :: rest)))
  end.

Definition encList (l : list A) : string := encLen (length l) +:+ encItems l.

Definition decList : parser (list A) := pbind decLen decItems.

(** ["N"] is nil (absent), ["S"] an allocated value, possibly empty. *)
Definition encOption (o : option A) : string :=
  match o with
  | None => "N"
  | Some x => String "S"%char (enc x)
  end.

Definition decOption : parser (option A) := fun s =>
  match s with
  | String "N"%char rest => Some (None, rest)
  | String "S"%char rest =>
      match dec rest with
      | Some (x, rest') => Some (Some x, rest')
      | None => None
      end
  | _ => None
  end.
End Containers.

Definition encPosition (p : lsifstore.Position) : string :=
  encInt (lsifstore.Line p) +:+ encInt (lsifstore.Character p).

Definition decPosition : parser lsifstore.Position :=
  pbind decInt (fun l => pbind decInt (fun c =>
    pret {| lsifstore.Line := l; lsifstore.Character := c |})).

Definition encAdjustedUpload (u : cursorAdjustedUpload) : string :=
  encInt (cursorDumpID u) +:+ encString (cursorAdjustedPath u)
  +:+ encPosition (cursorAdjustedPosition u)
  +:+ encString (cursorAdjustedPathInBundle u).

Definition decAdjustedUpload : parser cursorAdjustedUpload :=
  pbind decInt (fun id => pbind decString (fun p => pbind decPosition (fun pos =>
    pbind decString (fun pb =>
      pret {| cursorDumpID := id; cursorAdjustedPath := p;
              cursorAdjustedPosition := pos; cursorAdjustedPathInBundle := pb |})))).

Definition encMoniker (m : precise.QualifiedMonikerData) : string :=
  encString (precise.Kind m) +:+ encString (precise.Scheme m)
  +:+ encString (precise.Identifier m).

Definition decMoniker : parser precise.QualifiedMonikerData :=
  pbind decString (fun k => pbind decString (fun s => pbind decString (fun i =>
    pret {| precise.Kind := k; precise.Scheme := s; precise.Identifier := i |}))).

Definition encFields (c : referencesCursor) : string :=
  encOption (encList encAdjustedUpload) (AdjustedUploads c)
  +:+ encOption (encList encInt) (DefinitionUploadIDs c)
  +:+ encOption (encList encMoniker) (OrderedMonikers c)
  +:+ encString (Phase c)
  +:+ encInt (LocalOffset c)
  +:+ encInt (LocalBatchOffset c)
  +:+ encInt (RemoteOffset c)
  +:+ encOption (encList encInt) (BatchIDs c)
  +:+ encInt (RemoteBatchOffset c).

Definition decFields : parser referencesCursor :=
  pbind (decOption (decList decAdjustedUpload)) (fun au =>
  pbind (decOption (decList decInt)) (fun du =>
  pbind (decOption (decList decMoniker)) (fun om =>
  pbind decString (fun ph =>
  pbind decInt (fun lo =>
  pbind decInt (fun lbo =>
  pbind decInt (fun ro =>
  pbind (decOption (decList decInt)) (fun bi =>
  pbind decInt (fun rbo =>
    pret {| AdjustedUploads := au; DefinitionUploadIDs := du; OrderedMonikers := om;
            Phase := ph; LocalOffset := lo; LocalBatchOffset := lbo;
            RemoteOffset := ro; BatchIDs := bi; RemoteBatchOffset := rbo |}))))))))).

(** The schema version field that opens every token. *)
Definition schemaVersion : string := "v1;".

Fixpoint dropPrefix (p s : string) : option string :=
  match p with
  | EmptyString => Some s
  | String a p' =>
      match s with
      | String b s' => if Ascii.eqb a b then dropPrefix p' s' else None
      | EmptyString => None
      end
  end.

Definition ErrMalformedCursor : error := ErrNew "malformed cursor".

Definition zeroCursor : referencesCursor :=
  {| AdjustedUploads := None; DefinitionUploadIDs := None; OrderedMonikers := None;
     Phase := "local"; LocalOffset := 0; LocalBatchOffset := 0;
     RemoteOffset := 0; BatchIDs := None; RemoteBatchOffset := 0 |}.

(** Modelled from the spec: [encodeCursor], the schema version followed by
    every field of the cursor. *)
Definition encodeCursor (c : referencesCursor) : string :=
  schemaVersion +:+ encFields c.

(** Modelled from the spec: [decodeCursor]; the empty token is the
    zero-valued cursor in phase local, a token of another version or one
    that does not parse to the end is malformed. *)
Definition decodeCursor (token : string) : error + referencesCursor :=
  match token with
  | EmptyString => inr zeroCursor
  | _ =>
      match dropPrefix schemaVersion token with
      | None => inl ErrMalformedCursor
      | Some body =>
          match decFields body with
          | Some (c, EmptyString) => inr c
          | _ => inl ErrMalformedCursor
          end
      end
  end.

End Codec.

(** ** Specification predicates *)

(** The property [isSourceLocation] decides: some visible upload has the
    location's index and path, and its adjusted position lies in the
    location's range. *)
Definition sourceLocation (adjustedUploads : list adjustedUpload)
    (location : lsifstore.Location) : Prop :=
  exists u, u ∈ adjustedUploads
    /\ lsifstore.DumpID location = dbstore.ID (Upload u)
    /\ lsifstore.Path location = AdjustedPath u
    /\ pos_le (lsifstore.Start (lsifstore.Range_ location)) (AdjustedPosition u)
    /\ pos_le (AdjustedPosition u) (lsifstore.End_ (lsifstore.Range_ location)).

(** An adjusted upload rebuilt from its cursor entry and the cached upload. *)
Definition hydrated (cache : gmap Z dbstore.Dump) (a : adjustedUpload)
    (u : cursorAdjustedUpload) : Prop :=
  cache !! cursorDumpID u = Some (Upload a) /\ a = toAdjustedUpload (Upload a) u.

(** The order in which a request moves through its phases: a phase stays or
    advances along local, remote, done. *)
Inductive phaseAdvances : string -> string -> Prop :=
| phase_stays p : phaseAdvances p p
| phase_local_remote : phaseAdvances "local" "remote"
| phase_remote_done : phaseAdvances "remote" "done"
| phase_local_done : phaseAdvances "local" "done".

(** [m] relates the state it starts from to the state it leaves, whatever
    its outcome. *)
Definition preserves {A} (R : state -> state -> Prop) (m : M A) : Prop :=
  forall s res s', m s = (res, s') -> R s s'.

Definition samePhase (s s' : state) : Prop :=
  Phase (cursor s') = Phase (cursor s).

Definition phaseForward (s s' : state) : Prop :=
  phaseAdvances (Phase (cursor s)) (Phase (cursor s')).

(** The state in which [References] leaves the remote loop after a call of
    [pageRemoteReferences] that reported no more results. *)
Definition markedDone (s : state) : state :=
  {| cursor := setPhase "done" (cursor s); uploadCache := uploadCache s |}.

(** The local phase, started in [s0], reported [hasMore = false]. *)
Definition localReportsNoMore {AdjustedLocation} (r : queryResolver AdjustedLocation)
    (adjustedUploads : list adjustedUpload) (limit : Z) (s0 : state) : Prop :=
  exists locations s1,
    pageLocalReferences r "references" adjustedUploads limit s0
    = (Ok (locations, false), s1).

(** Some call of the remote phase, made while the cursor was in phase [p],
    reported [hasMore = false], and [s'] is the state right after it with the
    phase marked done. *)
Definition remoteReportsNoMore {AdjustedLocation} bloomfilter_Decode
    filterUploadsWithCommits (r : queryResolver AdjustedLocation)
    (adjustedUploads : list adjustedUpload) (definitionUploadIDs : list Z)
    (p : string) (s' : state) : Prop :=
  exists fuel orderedMonikers limit locations s2 s3,
    Phase (cursor s2) = p
    /\ pageRemoteReferences bloomfilter_Decode filterUploadsWithCommits r fuel
         "references" adjustedUploads orderedMonikers definitionUploadIDs limit s2
       = (Ok (locations, false), s3)
    /\ s' = markedDone s3.

(** A parser undoes an encoder: in front of any text, the encoding of a
    value parses back to that value and leaves the text. *)
Definition roundtrips {A} (enc : A -> string) (dec : Codec.parser A) : Prop :=
  forall x rest, dec (enc x +:+ rest) = Some (x, rest).

(** The cursor after one store scan of the batch acquisition loop that
    returned the batch [ids], scanned [n] records and reported [total]. *)
Definition afterScan (c : referencesCursor) (ids : list Z) (n total : Z)
    : referencesCursor :=
  let offset := GoInt.add (RemoteBatchOffset c) n in
  setRemoteBatchOffset (if offset >=? total then -1 else offset)
    (setBatchIDs (Some ids) c).

(** The index a scanned record adds to a batch: its own, unless the set the
    loop ignores holds it or its bloom filter does not test positive. *)
Definition selectedBy (bloomfilter_Decode : list Byte.byte -> error + (string -> bool))
    (orderedMonikers : list precise.QualifiedMonikerData) (ignored : gset Z)
    (packageReference : dbstore.PackageReference) : gset Z :=
  if decide (dbstore.DumpID packageReference ∈ ignored) then ∅
  else
    match testFilter bloomfilter_Decode (dbstore.Filter packageReference)
            orderedMonikers with
    | Ok true => {[ dbstore.DumpID packageReference ]}
    | _ => ∅
    end.

(** The indexes a list of scanned records adds to a batch. *)
Fixpoint selected (bloomfilter_Decode : list Byte.byte -> error + (string -> bool))
    (orderedMonikers : list precise.QualifiedMonikerData) (ignored : gset Z)
    (records : list dbstore.PackageReference) : gset Z :=
  match records with
  | [] => ∅
  | packageReference :: rest =>
      selectedBy bloomfilter_Decode orderedMonikers ignored packageReference
      ∪ selected bloomfilter_Decode orderedMonikers ignored rest
  end.

(** The records a scan for at most [limit] indexes physically reads from
    what the scanner yields: [consumed] is the shortest run of leading
    records that adds [limit] indexes to the batch, or every record when no
    run does, and [rest] is what the scanner would have yielded next.  At
    most one split of [events] qualifies. *)
Definition scannedPrefix (bloomfilter_Decode : list Byte.byte -> error + (string -> bool))
    (orderedMonikers : list precise.QualifiedMonikerData) (ignored : gset Z)
    (limit : Z) (events : list scanEvent)
    (consumed : list dbstore.PackageReference) (rest : list scanEvent) : Prop :=
  events = (ScanRecord <$> consumed) ++ rest
  /\ (rest = []
      \/ limit <= Z.of_nat (size (selected bloomfilter_Decode orderedMonikers ignored
                                    consumed)))
  /\ forall shorter,
       shorter `prefix_of` consumed -> shorter <> consumed ->
       Z.of_nat (size (selected bloomfilter_Decode orderedMonikers ignored shorter))
       < limit.

(** A symbol graph store that never answers more locations than the
    positive limit it is asked for. *)
Definition honoursLimit (store : LSIFStore.t) : Prop :=
  forall fn id p line character limit offset found totalCount,
    fn = LSIFStore.References store \/ fn = LSIFStore.Implementations store ->
    fn id p line character limit offset = inr (found, totalCount) ->
    0 < limit -> GoInt.len found <= limit.

(** Every error [m] can fail with satisfies [P]. *)
Definition failsOnly {A} (P : error -> Prop) (m : M A) : Prop :=
  forall s res s' e, m s = (res, s') -> res = Err e -> P e.

(** Two cursors that differ at most in the queued batch and the offset of
    the candidate scan. *)
Definition sameButBatch (c c' : referencesCursor) : Prop :=
  AdjustedUploads c' = AdjustedUploads c
  /\ DefinitionUploadIDs c' = DefinitionUploadIDs c
  /\ OrderedMonikers c' = OrderedMonikers c
  /\ Phase c' = Phase c
  /\ LocalOffset c' = LocalOffset c
  /\ LocalBatchOffset c' = LocalBatchOffset c
  /\ RemoteOffset c' = RemoteOffset c.

(** Every entry of the upload cache is filed under its own ID. *)
Definition cacheKeyed (m : gmap Z dbstore.Dump) : Prop :=
  forall k u, m !! k = Some u -> dbstore.ID u = k.

(** The cache of [s'] has an entry wherever the cache of [s] has one, and is
    filed by ID if the cache of [s] is. *)
Definition cacheGrows (s s' : state) : Prop :=
  dom (uploadCache s) ⊆ dom (uploadCache s')
  /\ (cacheKeyed (uploadCache s) -> cacheKeyed (uploadCache s')).


(** ** Errors of the candidate scan *)

(** The error the scan loop of [uploadIDsWithReferences] ends with on what
    the scanner yields: the records in [consumed] were read without a
    failure and left the batch short of [limit] indexes; then either the
    scanner failed, and the error is the scanner's wrapped as
    [dbstore.ReferenceIDsAndFilters.Next], or it yielded a record that had
    to be tested and whose bloom filter did not decode, and the error is the
    decoder's wrapped as [bloomfilter.Decode]. *)
Definition scanFailsWith (bloomfilter_Decode : list Byte.byte -> error + (string -> bool))
    (orderedMonikers : list precise.QualifiedMonikerData) (ignored : gset Z)
    (limit : Z) (events : list scanEvent) (e : error) : Prop :=
  exists consumed rest,
    Z.of_nat (size (selected bloomfilter_Decode orderedMonikers ignored consumed)) < limit
    /\ (forall before packageReference after,
          consumed = before ++ packageReference :: after ->
          dbstore.DumpID packageReference
            ∉ selected bloomfilter_Decode orderedMonikers ignored before ->
          dbstore.DumpID packageReference ∉ ignored ->
          exists includesIdentifier,
            bloomfilter_Decode (dbstore.Filter packageReference) = inr includesIdentifier)
    /\ ((exists cause,
           events = (ScanRecord <$> consumed) ++ ScanError cause :: rest
           /\ e = ErrWrap cause "dbstore.ReferenceIDsAndFilters.Next")
        \/ (exists packageReference cause,
              events = (ScanRecord <$> consumed) ++ ScanRecord packageReference :: rest
              /\ (dbstore.DumpID packageReference
                   ∉ selected bloomfilter_Decode orderedMonikers ignored consumed)
              /\ (dbstore.DumpID packageReference ∉ ignored)
              /\ bloomfilter_Decode (dbstore.Filter packageReference) = inl cause
              /\ e = ErrWrap cause "bloomfilter.Decode")).

(** The error [uploadIDsWithReferences] fails with, given what the store
    answered when the scan was opened.  A failure to open is the store's
    error wrapped as [dbstore.ReferenceIDsAndFilters].  Otherwise the error
    is that of the scan loop, alone when the scanner closes, and followed in
    a combined error by the close error wrapped as
    [dbstore.ReferenceIDsAndFilters.Close] when it does not; a scan whose
    loop ends well fails with the wrapped close error alone. *)
Definition candidateScanError
    (bloomfilter_Decode : list Byte.byte -> error + (string -> bool))
    (orderedMonikers : list precise.QualifiedMonikerData) (ignoreIDs : list Z)
    (limit : Z) (answer : error + (Scanner * Z)) (e : error) : Prop :=
  match answer with
  | inl cause => e = ErrWrap cause "dbstore.ReferenceIDsAndFilters"
  | inr (scanner, _) =>
      (exists inFlight,
          scanFailsWith bloomfilter_Decode orderedMonikers (ignoreIDsMap ignoreIDs)
            limit (scanEvents scanner) inFlight
          /\ match scanClose scanner with
             | None => e = inFlight
             | Some closeErr =>
                 e = ErrMulti [inFlight;
                               ErrWrap closeErr "dbstore.ReferenceIDsAndFilters.Close"]
             end)
      \/ (exists closeErr x,
            scanClose scanner = Some closeErr
            /\ uploadIDsWithReferences_loop bloomfilter_Decode orderedMonikers
                 (ignoreIDsMap ignoreIDs) limit (scanEvents scanner) ∅ 0 = Ok x
            /\ e = ErrMulti [ErrWrap closeErr "dbstore.ReferenceIDsAndFilters.Close"])
  end.

(** * Code insights usage statistics: usagestats/code_insights.go *)

(** Types of package [insights], which is not part of the sources; the code
    reads the five optional fields of an insight's step, each a pointer to
    an [int] ([None] is the nil pointer; the Go field [Step] is written
    [Step_]). *)
Module insights.

Record Interval : Type :=
  { Days : option Z; Hours : option Z; Weeks : option Z;
    Months : option Z; Years : option Z }.

Record SearchInsight : Type := { Step_ : Interval }.

End insights.

(** Types of package [types], which is not part of the sources; the code
    fills both fields of a time interval ping with an [int]. *)
Module types.

Record InsightTimeIntervalPing : Type := { IntervalDays : Z; TotalCount : Z }.

Definition PingName : Type := string.

End types.

Module usagestats.

(** convertStepToDays converts the step interval defined in the insight
    settings to days, rounded down. *)
Definition convertStepToDays (insight : insights.SearchInsight) : Z :=
  let step := insights.Step_ insight in
  match insights.Days step with
  | Some days => days
  | None =>
  match insights.Hours step with
  | Some _ => 0
  | None =>
  match insights.Weeks step with
  | Some weeks => GoInt.wrap (weeks * 7)
  | None =>
  match insights.Months step with
  | Some months => GoInt.wrap (months * 30)
  | None =>
  match insights.Years step with
  | Some years => GoInt.wrap (years * 365)
  | None => 0
  end end end end end.

(** The first loop of [GetTimeStepCounts]: [daysCounts[days] += 1], a
    missing key reading as zero. *)
Definition countDays (daysCounts : gmap Z Z)
    (definedInsights : list insights.SearchInsight) : gmap Z Z :=
  foldl (fun daysCounts insight =>
           let days := convertStepToDays insight in
           <[days := GoInt.add (default 0 (daysCounts !! days)) 1]> daysCounts)
        daysCounts definedInsights.

(** [GetTimeStepCounts] on the answer of [insights.GetSearchInsights].
    [rangeOrder] is the order in which the runtime ranges over a map,
    which the language leaves open. *)
Definition GetTimeStepCounts (rangeOrder : gmap Z Z -> list (Z * Z))
    (GetSearchInsights : error + list insights.SearchInsight)
    : result (list types.InsightTimeIntervalPing) :=
  match GetSearchInsights with
  | inl err => Err err
  | inr definedInsights =>
      let daysCounts := countDays ∅ definedInsights in
      Ok (foldl (fun results '(interval, count) =>
                   results ++ [ {| types.IntervalDays := interval;
                                   types.TotalCount := count |} ])
                [] (rangeOrder daysCounts))
  end.

(** A ping query builder; [Time] is the type of [time.Time]. *)
Record PingQueryBuilder (Time : Type) : Type :=
  { pings : list string; timeWindow : string; getTime : unit -> Time }.

Arguments pings {Time} _.
Arguments timeWindow {Time} _.
Arguments getTime {Time} _.

(** With adds a single ping by name to this builder. *)
Definition With {Time} (name : types.PingName) (b : PingQueryBuilder Time)
    : PingQueryBuilder Time :=
  {| pings := pings b ++ [name]; timeWindow := timeWindow b; getTime := getTime b |}.

(** WithAll adds multiple pings by name to this builder. *)
Definition WithAll {Time} (names : list types.PingName) (b : PingQueryBuilder Time)
    : PingQueryBuilder Time :=
  foldl (fun b p => With p b) b names.

Definition NewPingBuilder {Time} (timeWindow : string) (timeSupplier : unit -> Time)
    : PingQueryBuilder Time :=
  {| pings := []; timeWindow := timeWindow; getTime := timeSupplier |}.

End usagestats.

(** The sum of a list of counts. *)
Definition sumCounts (counts : list Z) : Z := foldr Z.add 0 counts.

(** ** A concrete repository *)

(** One visible upload, three local references in it, three candidate
    indexes for the remote phase.  The theorems below are exercised on it. *)
Module Fixture.

Definition position (line character : Z) : lsifstore.Position :=
  {| lsifstore.Line := line; lsifstore.Character := character |}.

Definition location (id : Z) (p : string) (sl sc el ec : Z) : lsifstore.Location :=
  {| lsifstore.DumpID := id; lsifstore.Path := p;
     lsifstore.Range_ := {| lsifstore.Start := position sl sc;
                            lsifstore.End_ := position el ec |} |}.

Definition dump (id : Z) : dbstore.Dump :=
  {| dbstore.ID := id; dbstore.RepositoryID := 50; dbstore.Commit := "c1";
     dbstore.Root := ""; dbstore.Indexer := "lsif-go" |}.

Definition visible : adjustedUpload :=
  {| Upload := dump 1; AdjustedPath := "a.go";
     AdjustedPosition := position 9 4; AdjustedPathInBundle := "a.go" |}.

Definition foo : precise.QualifiedMonikerData :=
  {| precise.Kind := "export"; precise.Scheme := "gomod"; precise.Identifier := "foo" |}.

(** A bloom filter blob: empty rejects everything, [x01] holds exactly
    ["foo"], anything else does not decode. *)
Definition decode (filter : list Byte.byte) : error + (string -> bool) :=
  match filter with
  | [] => inr (fun _ => false)
  | [Byte.x01] => inr (fun identifier => String.eqb identifier "foo")
  | _ => inl (ErrNew "unexpected end of bloom filter")
  end.

Definition candidate (id : Z) (filter : list Byte.byte) : scanEvent :=
  ScanRecord {| dbstore.DumpID := id; dbstore.Filter := filter |}.

(** Three candidate records in all, served from the requested offset:
    upload 1 (the visible one) and upload 42 import ["foo"], upload 8 does
    not. *)
Definition candidates : list scanEvent :=
  [candidate 1 [Byte.x01]; candidate 8 []; candidate 42 [Byte.x01]].

Definition localReferences : list lsifstore.Location :=
  [location 1 "a.go" 9 2 9 7; location 1 "a.go" 20 0 20 5; location 1 "b.go" 3 1 3 6].

Definition page {A} (l : list A) (limit offset : Z) : list A :=
  take (Z.to_nat limit) (drop (Z.to_nat offset) l).

Definition lsif : LSIFStore.t :=
  {| LSIFStore.References := fun id _ _ _ limit offset =>
       if id =? 1 then inr (page localReferences limit offset, 3) else inr ([], 0);
     LSIFStore.Implementations := fun _ _ _ _ _ _ => inr ([], 0) |}.

Definition db : DBStore.t :=
  {| DBStore.ReferenceIDsAndFilters := fun _ _ _ limit offset =>
       inr ({| scanEvents := page candidates limit offset; scanClose := None |}, 3);
     DBStore.GetDumpsByIDs := fun ids => inr (map dump ids) |}.

(** What the moniker search finds in uploads 1 and 42: the source symbol
    itself and one genuine remote reference. *)
Definition remoteReferences : list lsifstore.Location :=
  [location 1 "a.go" 9 2 9 7; location 42 "z.go" 1 0 1 3].

Definition resolver : queryResolver lsifstore.Location :=
  {| repositoryID := 50; commit := "c2"; path := "a.go";
     dbStore := db; lsifStore := lsif;
     adjustUploads := fun _ _ => inr [visible];
     orderedMonikers := fun _ _ => inr (Some [foo]);
     definitionUploads := fun _ => inr [];
     monikerLocations := fun _ _ _ limit offset =>
       inr (page remoteReferences limit offset, 2);
     adjustLocations := fun locations => inr locations |}.

Definition commitsKnown (uploads : list dbstore.Dump) : error + list dbstore.Dump :=
  inr uploads.

(** The commit checker's backing service is down. *)
Definition commitsUnavailable (uploads : list dbstore.Dump) : error + list dbstore.Dump :=
  inl (ErrNew "gitserver: connection refused").

Definition cache : gmap Z dbstore.Dump := {[ 1 := dump 1 ]}.

Definition fresh : state :=
  {| cursor := Codec.zeroCursor; uploadCache := cache |}.

(** The cursor once the local phase is over. *)
Definition remote : state :=
  {| cursor := setPhase "remote" (setOrderedMonikers (Some [foo]) Codec.zeroCursor);
     uploadCache := cache |}.

(** The cursor of a later page whose cached upload 99 has since been
    deleted. *)
Definition stale : referencesCursor :=
  setAdjustedUploads
    (Some [ {| cursorDumpID := 99; cursorAdjustedPath := "a.go";
               cursorAdjustedPosition := position 9 4;
               cursorAdjustedPathInBundle := "a.go" |} ])
    Codec.zeroCursor.

End Fixture.

(** ** Faulty collaborators *)

(** Variants of the concrete repository whose stores fail. *)
Module Faults.

Definition withDB (db : DBStore.t) : queryResolver lsifstore.Location :=
  {| repositoryID := 50; commit := "c2"; path := "a.go";
     dbStore := db; lsifStore := Fixture.lsif;
     adjustUploads := adjustUploads Fixture.resolver;
     orderedMonikers := orderedMonikers Fixture.resolver;
     definitionUploads := definitionUploads Fixture.resolver;
     monikerLocations := monikerLocations Fixture.resolver;
     adjustLocations := adjustLocations Fixture.resolver |}.

(** The scanner serves its records, then fails to close. *)
Definition closeFails : queryResolver lsifstore.Location :=
  withDB
    {| DBStore.ReferenceIDsAndFilters := fun _ _ _ limit offset =>
         inr ({| scanEvents := Fixture.page Fixture.candidates limit offset;
                 scanClose := Some (ErrNew "connection reset") |}, 3);
       DBStore.GetDumpsByIDs := fun ids => inr (map Fixture.dump ids) |}.

(** The second candidate's bloom filter is corrupt, and the scanner fails
    to close. *)
Definition corruptFilter : queryResolver lsifstore.Location :=
  withDB
    {| DBStore.ReferenceIDsAndFilters := fun _ _ _ _ _ =>
         inr ({| scanEvents :=
                   [Fixture.candidate 7 [Byte.x01]; Fixture.candidate 8 [Byte.x02]];
                 scanClose := Some (ErrNew "connection reset") |}, 2);
       DBStore.GetDumpsByIDs := fun ids => inr (map Fixture.dump ids) |}.

(** The store reports three candidates and serves none of them. *)
Definition stuck : queryResolver lsifstore.Location :=
  withDB
    {| DBStore.ReferenceIDsAndFilters := fun _ _ _ _ _ =>
         inr ({| scanEvents := []; scanClose := None |}, 3);
       DBStore.GetDumpsByIDs := fun ids => inr (map Fixture.dump ids) |}.

(** The symbol graph store is down. *)
Definition lsifDown : queryResolver lsifstore.Location :=
  {| repositoryID := 50; commit := "c2"; path := "a.go";
     dbStore := Fixture.db;
     lsifStore :=
       {| LSIFStore.References := fun _ _ _ _ _ _ => inl (ErrNew "codeintel-db: timeout");
          LSIFStore.Implementations := fun _ _ _ _ _ _ => inl (ErrNew "codeintel-db: timeout") |};
     adjustUploads := adjustUploads Fixture.resolver;
     orderedMonikers := orderedMonikers Fixture.resolver;
     definitionUploads := definitionUploads Fixture.resolver;
     monikerLocations := monikerLocations Fixture.resolver;
     adjustLocations := adjustLocations Fixture.resolver |}.

End Faults.

(** ** Other repositories *)

Module Variants.

(** The cursor of the fixture once its adjusted uploads are stashed. *)
Definition stashed : referencesCursor :=
  setAdjustedUploads (Some [toCursorAdjustedUpload Fixture.visible]) Codec.zeroCursor.

(** Three uploads define the moniker, the visible one among them. *)
Definition defining : queryResolver lsifstore.Location :=
  {| repositoryID := 50; commit := "c2"; path := "a.go";
     dbStore := Fixture.db; lsifStore := Fixture.lsif;
     adjustUploads := adjustUploads Fixture.resolver;
     orderedMonikers := orderedMonikers Fixture.resolver;
     definitionUploads := fun _ =>
       inr [Fixture.dump 42; Fixture.dump 1; Fixture.dump 7];
     monikerLocations := monikerLocations Fixture.resolver;
     adjustLocations := adjustLocations Fixture.resolver |}.

(** The remote phase with the batch of uploads 1 and 42 queued and the
    candidate scan exhausted. *)
Definition queued : state :=
  {| cursor :=
       setRemoteBatchOffset (-1) (setBatchIDs (Some [1; 42]) (cursor Fixture.remote));
     uploadCache := Fixture.cache |}.

End Variants.

(** ** Insight settings *)

Module Settings.

Definition every (days hours weeks months years : option Z) : insights.SearchInsight :=
  {| insights.Step_ :=
       {| insights.Days := days; insights.Hours := hours; insights.Weeks := weeks;
          insights.Months := months; insights.Years := years |} |}.

(** Two insights stepping by a week, written as weeks and as days, one by
    two months, one by hours. *)
Definition defined : list insights.SearchInsight :=
  [ every None None (Some 1) None None;
    every None None None (Some 2) None;
    every (Some 7) None None None None;
    every None (Some 12) None None None ].

End Settings.

(** * Properties *)

(** ** Machine integers *)

Lemma GoInt_wrap_in_range z : GoInt.in_range z -> GoInt.wrap z = z.
Proof.
  unfold GoInt.in_range, GoInt.wrap, GoInt.min_int, GoInt.max_int. intros Hz.
  rewrite Z.mod_small; lia.
Qed.

Lemma GoInt_wrap_range z : GoInt.in_range (GoInt.wrap z).
Proof.
  unfold GoInt.in_range, GoInt.wrap, GoInt.min_int, GoInt.max_int.
  pose proof (Z.mod_pos_bound (z + 2 ^ 63) (2 ^ 64)). lia.
Qed.

Lemma GoInt_add_exact a b : GoInt.in_range (a + b) -> GoInt.add a b = a + b.
Proof. apply GoInt_wrap_in_range. Qed.

Lemma GoInt_sub_exact a b : GoInt.in_range (a - b) -> GoInt.sub a b = a - b.
Proof. apply GoInt_wrap_in_range. Qed.

Lemma GoInt_len_nonneg {A} (l : list A) : 0 <= GoInt.len l.
Proof. unfold GoInt.len. lia. Qed.

Lemma GoInt_len_app {A} (l k : list A) : GoInt.len (l ++ k) = GoInt.len l + GoInt.len k.
Proof. unfold GoInt.len. rewrite length_app. lia. Qed.

Lemma GoInt_len_drop {A} (l : list A) (n : Z) :
  0 <= n <= GoInt.len l -> GoInt.len (drop (Z.to_nat n) l) = GoInt.len l - n.
Proof. unfold GoInt.len. intros Hn. rewrite length_drop. lia. Qed.

(** ** Range containment *)

Lemma rangeContainsPosition_true (r : lsifstore.Range) (p : lsifstore.Position) :
  rangeContainsPosition r p = true <->
  pos_le (lsifstore.Start r) p /\ pos_le p (lsifstore.End_ r).
Proof.
  destruct r as [[sl sc] [el ec]], p as [pl pc].
  unfold rangeContainsPosition, pos_le; cbn.
  rewrite !Z.gtb_ltb.
  destruct (Z.ltb_spec pl sl), (Z.ltb_spec el pl), (Z.eqb_spec pl sl),
    (Z.ltb_spec pc sc), (Z.eqb_spec pl el), (Z.ltb_spec ec pc);
    cbn; split; intros; try lia; try discriminate.
Qed.

Lemma pos_le_refl (p : lsifstore.Position) : pos_le p p.
Proof. unfold pos_le. lia. Qed.

Lemma pos_le_not_lt (p q : lsifstore.Position) : pos_le p q <-> ~ pos_lt q p.
Proof. unfold pos_le, pos_lt. lia. Qed.

(** C8: [rangeContainsPosition r p] holds exactly when
    [r.start <= p <= r.end] in the lexicographic order on (line, character),
    both ends included; it fails exactly when [p] precedes [r.start] or
    follows [r.end]; and on a range whose start does not follow its end it
    holds at both boundaries, [p = r.start] and [p = r.end]. *)
Theorem rangeContainsPosition_inclusive (r : lsifstore.Range) (p : lsifstore.Position) :
  (rangeContainsPosition r p = true <->
     pos_le (lsifstore.Start r) p /\ pos_le p (lsifstore.End_ r))
  /\ (rangeContainsPosition r p = false <->
        pos_lt p (lsifstore.Start r) \/ pos_lt (lsifstore.End_ r) p)
  /\ (rangeContainsPosition r (lsifstore.Start r) = true <->
        pos_le (lsifstore.Start r) (lsifstore.End_ r))
  /\ (rangeContainsPosition r (lsifstore.End_ r) = true <->
        pos_le (lsifstore.Start r) (lsifstore.End_ r)).
Proof.
  split; [apply rangeContainsPosition_true|].
  split.
  - rewrite <- Bool.not_true_iff_false, rangeContainsPosition_true, !pos_le_not_lt.
    unfold pos_lt. lia.
  - rewrite !rangeContainsPosition_true.
    pose proof (pos_le_refl (lsifstore.Start r)).
    pose proof (pos_le_refl (lsifstore.End_ r)).
    tauto.
Qed.

Example rangeContainsPosition_boundaries :
  let r := {| lsifstore.Start := {| lsifstore.Line := 3; lsifstore.Character := 4 |};
              lsifstore.End_ := {| lsifstore.Line := 5; lsifstore.Character := 2 |} |} in
  rangeContainsPosition r (lsifstore.Start r) = true
  /\ rangeContainsPosition r (lsifstore.End_ r) = true
  /\ rangeContainsPosition r {| lsifstore.Line := 3; lsifstore.Character := 3 |} = false
  /\ rangeContainsPosition r {| lsifstore.Line := 5; lsifstore.Character := 3 |} = false
  /\ rangeContainsPosition r {| lsifstore.Line := 4; lsifstore.Character := 99 |} = true.
Proof. repeat split. Qed.

(** ** Reasoning in the resolver monad *)

Lemma bind_Ok {A B} (m : M A) (f : A -> M B) (s s' : state) (b : B) :
  (m ≫= f) s = (Ok b, s') ->
  exists a s1, m s = (Ok a, s1) /\ f a s1 = (Ok b, s').
Proof.
  unfold mbind, M_bind. destruct (m s) as [[a| | |] s1]; intros H; try discriminate.
  eauto.
Qed.

Lemma bind_Err {A B} (m : M A) (f : A -> M B) (s s' : state) e :
  m s = (Err e, s') -> (m ≫= f) s = (Err e, s').
Proof. unfold mbind, M_bind. intros ->. reflexivity. Qed.

Lemma bind_inv {A B} (m : M A) (f : A -> M B) (s s' : state) (res : result B) :
  (m ≫= f) s = (res, s') ->
  (exists a s1, m s = (Ok a, s1) /\ f a s1 = (res, s'))
  \/ (exists res0, m s = (res0, s') /\ forall a, res0 <> Ok a).
Proof.
  unfold mbind, M_bind. destruct (m s) as [[a| | |] s1]; intros H.
  - left. eauto.
  - right. injection H as <- <-. eexists. split; [reflexivity|discriminate].
  - right. injection H as <- <-. eexists. split; [reflexivity|discriminate].
  - right. injection H as <- <-. eexists. split; [reflexivity|discriminate].
Qed.

Lemma ret_Ok {A} (a b : A) (s s' : state) :
  (mret a : M A) s = (Ok b, s') -> b = a /\ s' = s.
Proof. unfold mret, M_ret. intros H. injection H as <- <-. auto. Qed.

Lemma getCursor_Ok (s s' : state) c :
  getCursor s = (Ok c, s') -> c = cursor s /\ s' = s.
Proof. unfold getCursor. intros H. injection H as <- <-. auto. Qed.

Lemma getUploadCache_Ok (s s' : state) m :
  getUploadCache s = (Ok m, s') -> m = uploadCache s /\ s' = s.
Proof. unfold getUploadCache. intros H. injection H as <- <-. auto. Qed.

Lemma modifyCursor_Ok f (s s' : state) u :
  modifyCursor f s = (Ok u, s') ->
  s' = {| cursor := f (cursor s); uploadCache := uploadCache s |}.
Proof. unfold modifyCursor. intros H. injection H as <-. auto. Qed.

Lemma try_Ok {A} (r : error + A) (s s' : state) a :
  try r s = (Ok a, s') -> r = inr a /\ s' = s.
Proof.
  destruct r as [e|x]; cbn; unfold throw, mret, M_ret; intros H; [discriminate|].
  injection H as <- <-. auto.
Qed.

Lemma tryWrap_Ok {A} msg (r : error + A) (s s' : state) a :
  tryWrap msg r s = (Ok a, s') -> r = inr a /\ s' = s.
Proof.
  destruct r as [e|x]; cbn; unfold throw, mret, M_ret; intros H; [discriminate|].
  injection H as <- <-. auto.
Qed.

Lemma liftResult_Ok {A} (r : result A) (s s' : state) a :
  liftResult r s = (Ok a, s') -> r = Ok a /\ s' = s.
Proof. unfold liftResult. intros H. injection H as <- <-. auto. Qed.

(** Peels the successful run of a sequence of binds in hypothesis [H]. *)
Ltac inv_bind H :=
  let a := fresh "a" in
  let s := fresh "s" in
  let Hm := fresh "Hm" in
  apply bind_Ok in H as (a & s & Hm & H).

Ltac inv_step H :=
  first
    [ apply ret_Ok in H as [? ?]
    | apply getCursor_Ok in H as [? ?]
    | apply getUploadCache_Ok in H as [? ?]
    | apply modifyCursor_Ok in H
    | apply try_Ok in H as [? ?]
    | apply tryWrap_Ok in H as [? ?]
    | apply liftResult_Ok in H as [? ?] ];
  subst.

Ltac destruct_pairs :=
  repeat match goal with x : (_ * _)%type |- _ => destruct x end.

(** Peels every bind of a successful run, inverting the primitive steps and
    leaving the calls of other functions as hypotheses. *)
Ltac inv_M H :=
  repeat
    match type of H with
    | (_ ≫= _) _ = (Ok _, _) =>
        let a := fresh "a" in
        let s := fresh "s" in
        let Hm := fresh "Hm" in
        apply bind_Ok in H as (a & s & Hm & H);
        try inv_step Hm; destruct_pairs; cbn beta iota in H
    end;
  try inv_step H.

(** ** Source locations *)

Lemma isSourceLocation_spec adjustedUploads location :
  isSourceLocation adjustedUploads location = true <->
  sourceLocation adjustedUploads location.
Proof.
  unfold sourceLocation.
  induction adjustedUploads as [|u us IH]; cbn.
  - split; [discriminate|]. intros (u & Hu & _). inversion Hu.
  - destruct (Z.eqb_spec (lsifstore.DumpID location) (dbstore.ID (Upload u))) as [Hid|Hid];
      destruct (String.eqb_spec (lsifstore.Path location) (AdjustedPath u)) as [Hp|Hp];
      destruct (rangeContainsPosition (lsifstore.Range_ location) (AdjustedPosition u))
        eqn:Hr; cbn.
    1: { split; [intros _|reflexivity].
         apply rangeContainsPosition_true in Hr.
         exists u. split; [left|]. tauto. }
    all: rewrite IH; split;
      [ intros (v & Hv & H); exists v; split; [right; exact Hv | exact H]
      | intros (v & Hv & H1 & H2 & H3);
        apply elem_of_cons in Hv as [->|Hv]; [|exists v; tauto] ].
    all: try congruence.
    apply rangeContainsPosition_true in H3. congruence.
Qed.

(** ** The remote phase *)

(** C4: no location returned by [pageRemoteReferences] is a source
    location: none has the index and adjusted path of a visible adjusted
    upload while its range contains that upload's adjusted position.  What is
    returned is the moniker search's answer with exactly those locations
    removed. *)
Theorem pageRemoteReferences_no_source_location {AdjustedLocation}
    bloomfilter_Decode filterUploadsWithCommits (r : queryResolver AdjustedLocation)
    fuel lsifDataTable adjustedUploads orderedMonikers definitionUploadIDs limit
    (s s' : state) locations hasMore :
  pageRemoteReferences bloomfilter_Decode filterUploadsWithCommits r fuel lsifDataTable
    adjustedUploads orderedMonikers definitionUploadIDs limit s
  = (Ok (locations, hasMore), s') ->
  (forall location, location ∈ locations -> ~ sourceLocation adjustedUploads location)
  /\ (locations = []
      \/ exists uploads offset found totalCount,
           monikerLocations r uploads orderedMonikers lsifDataTable limit offset
             = inr (found, totalCount)
           /\ locations
              = List.filter (fun l => negb (isSourceLocation adjustedUploads l)) found).
Proof.
  unfold pageRemoteReferences. intros H.
  inv_bind H. destruct a as [|]; cbn in H.
  - inv_M H. injection H as -> ->.
    split.
    + intros location Hin Hsrc.
      apply list_elem_of_In, filter_In in Hin as [_ Hin].
      apply isSourceLocation_spec in Hsrc. rewrite Hsrc in Hin. discriminate.
    + right. eauto 10.
  - inv_step H. injection H as -> ->. split; [|left; reflexivity].
    intros location Hin. inversion Hin.
Qed.

Lemma pageRemoteReferences_no_source_location_witness :
  (forall location,
      location ∈ [Fixture.location 42 "z.go" 1 0 1 3] ->
      ~ sourceLocation [Fixture.visible] location)
  /\ ([Fixture.location 42 "z.go" 1 0 1 3] = []
      \/ exists uploads offset found totalCount,
           monikerLocations Fixture.resolver uploads [Fixture.foo] "references" 10 offset
             = inr (found, totalCount)
           /\ [Fixture.location 42 "z.go" 1 0 1 3]
              = List.filter (fun l => negb (isSourceLocation [Fixture.visible] l)) found).
Proof.
  eapply (pageRemoteReferences_no_source_location Fixture.decode Fixture.commitsKnown
            Fixture.resolver 5 "references" [Fixture.visible] [Fixture.foo] [] 10
            Fixture.remote _ _ false).
  vm_compute. reflexivity.
Defined.

(** ** The local phase *)

Lemma sliceFrom_Ok {A} (l : list A) (low : Z) (s s' : state) l' :
  sliceFrom l low s = (Ok l', s') ->
  0 <= low <= GoInt.len l /\ l' = drop (Z.to_nat low) l /\ s' = s.
Proof.
  unfold sliceFrom.
  rewrite Z.gtb_ltb.
  destruct (Z.ltb_spec low 0), (Z.ltb_spec (GoInt.len l) low); cbn;
    unfold panic; intros Hs; try discriminate.
  inv_step Hs. auto with lia.
Qed.

(** Each upload visited moves [LocalBatchOffset] forward by at most one. *)
Lemma pageLocalReferences_loop_offset {AdjustedLocation}
    (r : queryResolver AdjustedLocation) ty uploads :
  forall limit allLocations (s s' : state) locations,
    pageLocalReferences_loop r ty uploads limit allLocations s = (Ok locations, s') ->
    GoInt.min_int <= LocalBatchOffset (cursor s) ->
    LocalBatchOffset (cursor s) + GoInt.len uploads <= GoInt.max_int ->
    LocalBatchOffset (cursor s) <= LocalBatchOffset (cursor s')
    /\ LocalBatchOffset (cursor s') <= LocalBatchOffset (cursor s) + GoInt.len uploads.
Proof.
  induction uploads as [|u rest IH]; intros limit allLocations s s' locations H Hmin Hmax.
  - cbn in H. inv_step H. unfold GoInt.len; cbn. lia.
  - cbn [pageLocalReferences_loop] in H.
    replace (GoInt.len (u :: rest)) with (GoInt.len rest + 1) in *
      by (unfold GoInt.len; cbn [length]; lia).
    pose proof (GoInt_len_nonneg rest).
    destruct (GoInt.len allLocations >=? limit).
    + inv_step H. lia.
    + inv_M H. unfold when in Hm.
      match type of Hm with (if ?b then _ else _) _ = _ => destruct b end.
      * inv_M Hm. apply IH in H; cbn in *.
        -- rewrite GoInt_add_exact in H by (unfold GoInt.in_range; lia). lia.
        -- apply GoInt_wrap_range.
        -- rewrite GoInt_add_exact by (unfold GoInt.in_range; lia). lia.
      * inv_step Hm. apply IH in H; cbn in *; lia.
Qed.

(** C3: whenever [pageLocalReferences] returns a page over a slice of
    adjusted uploads (whose length, as any Go slice's, is an [int]), its
    [hasMore] flag is true exactly when the cursor's [LocalBatchOffset] after
    the call is strictly below the number of adjusted uploads, and false
    exactly when that offset equals the number of adjusted uploads.  A call
    that fails returns an error and no flag; a call whose offset lies outside
    the slice panics at [adjustedUploads[cursor.LocalBatchOffset:]]. *)
Theorem pageLocalReferences_hasMore {AdjustedLocation}
    (r : queryResolver AdjustedLocation) ty adjustedUploads limit
    (s s' : state) locations hasMore :
  GoInt.len adjustedUploads <= GoInt.max_int ->
  pageLocalReferences r ty adjustedUploads limit s = (Ok (locations, hasMore), s') ->
  (hasMore = true <-> LocalBatchOffset (cursor s') < GoInt.len adjustedUploads)
  /\ (hasMore = false <-> LocalBatchOffset (cursor s') = GoInt.len adjustedUploads).
Proof.
  intros Hlen H. unfold pageLocalReferences in H.
  inv_M H. injection H as -> ->.
  apply sliceFrom_Ok in Hm as (Hlow & -> & ->).
  apply pageLocalReferences_loop_offset in Hm0 as [_ Hup].
  - rewrite GoInt_len_drop in Hup by exact Hlow.
    match goal with
    | |- context [?a <? ?b] => destruct (Z.ltb_spec a b)
    end; split; split; intros; try lia; try discriminate; reflexivity.
  - unfold GoInt.min_int. lia.
  - rewrite GoInt_len_drop by exact Hlow. lia.
Qed.

Lemma pageLocalReferences_hasMore_witness :
  (true = true <-> 0 < GoInt.len [Fixture.visible])
  /\ (true = false <-> 0 = GoInt.len [Fixture.visible]).
Proof.
  eapply (pageLocalReferences_hasMore Fixture.resolver "references" [Fixture.visible] 2
            Fixture.fresh
            {| cursor := setLocalOffset 2 Codec.zeroCursor;
               uploadCache := Fixture.cache |}
            _ true).
  - vm_compute. discriminate.
  - vm_compute. reflexivity.
Defined.

(** ** Resuming from cached adjusted uploads *)

Lemma adjustedUploadsFromCursor_loop_missing cache cached :
  forall acc,
    (exists u, u ∈ cached /\ cache !! cursorDumpID u = None) ->
    adjustedUploadsFromCursor_loop cache cached acc = Err ErrConcurrentModification.
Proof.
  induction cached as [|u rest IH]; intros acc (v & Hv & Hnone).
  - inversion Hv.
  - cbn. destruct (cache !! cursorDumpID u) as [upload|] eqn:Hu; [|reflexivity].
    apply IH. apply elem_of_cons in Hv as [->|Hv]; [congruence|eauto].
Qed.

Lemma adjustedUploadsFromCursor_loop_resolved cache cached :
  forall acc,
    (forall u, u ∈ cached -> is_Some (cache !! cursorDumpID u)) ->
    exists l,
      adjustedUploadsFromCursor_loop cache cached acc = Ok (acc ++ l)
      /\ Forall2 (hydrated cache) l cached.
Proof.
  induction cached as [|u rest IH]; intros acc Hall.
  - exists []. cbn. rewrite app_nil_r. split; [reflexivity|constructor].
  - cbn. destruct (Hall u) as [upload Hu]; [left|]. rewrite Hu.
    destruct (IH (acc ++ [toAdjustedUpload upload u])) as (l & Hl & Hf).
    { intros v Hv. apply Hall. right. exact Hv. }
    exists (toAdjustedUpload upload u :: l). split.
    + rewrite Hl, <- app_assoc. reflexivity.
    + constructor; [|exact Hf]. split; [exact Hu|reflexivity].
Qed.

(** C5: on a resumed request, whose decoded cursor carries cached adjusted
    uploads: if some cached index ID is not in the upload cache, the adjusted
    uploads are not rebuilt and the page fails with
    [ErrConcurrentModification], returning no locations; otherwise the
    adjusted uploads are rebuilt from the cursor entries and the cache alone,
    whatever the resolver's stores would answer. *)
Theorem adjustedUploadsFromCursor_resumed {AdjustedLocation}
    bloomfilter_Decode filterUploadsWithCommits decodeCursor encodeCursor strconv_Quote
    (r : queryResolver AdjustedLocation) fuel line character limit
    rawCursor c cached cache :
  decodeCursor rawCursor = inr c ->
  AdjustedUploads c = Some cached ->
  ((exists u, u ∈ cached /\ cache !! cursorDumpID u = None) ->
     adjustedUploadsFromCursor r line character {| cursor := c; uploadCache := cache |}
       = (Err ErrConcurrentModification, {| cursor := c; uploadCache := cache |})
     /\ References bloomfilter_Decode filterUploadsWithCommits decodeCursor encodeCursor
          strconv_Quote r fuel line character limit rawCursor cache
        = Err ErrConcurrentModification)
  /\ ((forall u, u ∈ cached -> is_Some (cache !! cursorDumpID u)) ->
      exists adjustedUploads,
        Forall2 (hydrated cache) adjustedUploads cached
        /\ forall AdjustedLocation' (r' : queryResolver AdjustedLocation'),
             adjustedUploadsFromCursor r' line character
               {| cursor := c; uploadCache := cache |}
             = (Ok adjustedUploads, {| cursor := c; uploadCache := cache |})).
Proof.
  intros Hdec Hcached. split.
  - intros Hmissing.
    assert (Hfail : forall AL (r0 : queryResolver AL),
               adjustedUploadsFromCursor r0 line character
                 {| cursor := c; uploadCache := cache |}
               = (Err ErrConcurrentModification, {| cursor := c; uploadCache := cache |})).
    { intros AL r0. unfold adjustedUploadsFromCursor, mbind, M_bind, getCursor; cbn.
      rewrite Hcached. unfold getUploadCache, liftResult; cbn.
      rewrite adjustedUploadsFromCursor_loop_missing by exact Hmissing. reflexivity. }
    split; [apply Hfail|].
    unfold References. rewrite Hdec. unfold referencesPage, referencesPrelude.
    erewrite bind_Err; [reflexivity|].
    apply bind_Err, Hfail.
  - intros Hall.
    destruct (adjustedUploadsFromCursor_loop_resolved cache cached [] Hall) as (l & Hl & Hf).
    exists l. split; [exact Hf|].
    intros AL r0. unfold adjustedUploadsFromCursor, mbind, M_bind, getCursor; cbn.
    rewrite Hcached. unfold getUploadCache, liftResult; cbn.
    rewrite Hl. reflexivity.
Qed.

Lemma adjustedUploadsFromCursor_resumed_witness :
  References Fixture.decode Fixture.commitsKnown Codec.decodeCursor Codec.encodeCursor id
    Fixture.resolver 5 10 4 10 (Codec.encodeCursor Fixture.stale) Fixture.cache
  = Err ErrConcurrentModification.
Proof.
  refine (proj2 (proj1 (adjustedUploadsFromCursor_resumed
                          Fixture.decode Fixture.commitsKnown
                          Codec.decodeCursor Codec.encodeCursor id
                          Fixture.resolver 5 10 4 10
                          (Codec.encodeCursor Fixture.stale) Fixture.stale
                          (elems (AdjustedUploads Fixture.stale)) Fixture.cache _ _) _)).
  - vm_compute. reflexivity.
  - reflexivity.
  - eexists. split; [left|]. vm_compute. reflexivity.
Defined.

(** ** Batch acquisition *)

Lemma GoInt_len_cons {A} (x : A) (l : list A) : GoInt.len (x :: l) = GoInt.len l + 1.
Proof. unfold GoInt.len. cbn [length]. lia. Qed.

(** What the scan loop has done when it ends well: it consumed a prefix of
    the scanner's records, counted each of them, and stopped at the end of
    the scanner or with [limit] indexes selected; an index is selected
    exactly when one of its consumed records is neither in the ignored set
    nor rejected by its bloom filter. *)
Lemma uploadIDsWithReferences_loop_spec bloomfilter_Decode orderedMonikers ignored limit events :
  forall filtered recordsScanned filtered' recordsScanned',
    uploadIDsWithReferences_loop bloomfilter_Decode orderedMonikers ignored limit events
      filtered recordsScanned = Ok (filtered', recordsScanned') ->
    GoInt.min_int <= recordsScanned ->
    recordsScanned + GoInt.len events <= GoInt.max_int ->
    exists consumed rest,
      events = (ScanRecord <$> consumed) ++ rest
      /\ recordsScanned' = recordsScanned + GoInt.len consumed
      /\ (rest = [] \/ limit <= Z.of_nat (size filtered'))
      /\ filtered ⊆ filtered'
      /\ (forall id, id ∈ filtered' ->
            id ∈ filtered
            \/ exists rec, rec ∈ consumed /\ dbstore.DumpID rec = id /\ (id ∉ ignored)
                 /\ testFilter bloomfilter_Decode (dbstore.Filter rec) orderedMonikers
                    = Ok true)
      /\ (forall rec, rec ∈ consumed -> dbstore.DumpID rec ∉ ignored ->
            testFilter bloomfilter_Decode (dbstore.Filter rec) orderedMonikers = Ok true ->
            dbstore.DumpID rec ∈ filtered').
Proof.
  induction events as [|ev events IH];
    intros filtered n filtered' n' H Hmin Hmax; cbn [uploadIDsWithReferences_loop] in H.
  - exists [], []. destruct (_ <? _); injection H as <- <-.
    all: unfold GoInt.len; cbn; repeat split; auto with lia.
    all: try (intros rec Hrec; inversion Hrec).
  - rewrite GoInt_len_cons in Hmax. pose proof (GoInt_len_nonneg events) as Hlen.
    destruct (Z.ltb_spec (Z.of_nat (size filtered)) limit) as [Hlt|Hge].
    2: { injection H as <- <-. exists [], (ev :: events).
         unfold GoInt.len; cbn. repeat split; auto with lia.
         intros rec Hrec; inversion Hrec. }
    destruct ev as [rec|err]; [|discriminate].
    rewrite GoInt_add_exact in H by (unfold GoInt.in_range; lia).
    assert (Hstep : forall f,
      uploadIDsWithReferences_loop bloomfilter_Decode orderedMonikers ignored limit events
        f (n + 1) = Ok (filtered', n') ->
      filtered ⊆ f ->
      (forall id, id ∈ f -> id ∈ filtered \/
         (dbstore.DumpID rec = id /\ (id ∉ ignored)
          /\ testFilter bloomfilter_Decode (dbstore.Filter rec) orderedMonikers = Ok true)) ->
      (dbstore.DumpID rec ∉ ignored ->
       testFilter bloomfilter_Decode (dbstore.Filter rec) orderedMonikers = Ok true ->
       dbstore.DumpID rec ∈ f) ->
      exists consumed rest,
        ScanRecord rec :: events = (ScanRecord <$> consumed) ++ rest
        /\ n' = n + GoInt.len consumed
        /\ (rest = [] \/ limit <= Z.of_nat (size filtered'))
        /\ filtered ⊆ filtered'
        /\ (forall id, id ∈ filtered' ->
              id ∈ filtered
              \/ exists rec, rec ∈ consumed /\ dbstore.DumpID rec = id /\ (id ∉ ignored)
                   /\ testFilter bloomfilter_Decode (dbstore.Filter rec) orderedMonikers
                      = Ok true)
        /\ (forall rec, rec ∈ consumed -> dbstore.DumpID rec ∉ ignored ->
              testFilter bloomfilter_Decode (dbstore.Filter rec) orderedMonikers = Ok true ->
              dbstore.DumpID rec ∈ filtered')).
    { intros f Hf Hsub Hnew Hin.
      apply IH in Hf as (consumed & rest & -> & -> & Hstop & Hsub' & Hsel & Hall);
        [|lia|lia].
      exists (rec :: consumed), rest. rewrite GoInt_len_cons.
      split; [reflexivity|]. split; [lia|]. split; [assumption|].
      split; [etransitivity; eassumption|]. split.
      - intros id Hid. destruct (Hsel id Hid) as [Hidf|(rec' & Hrec' & Hrest)].
        + destruct (Hnew id Hidf) as [?|?]; [left; assumption|].
          right. exists rec. split; [left|assumption].
        + right. exists rec'. split; [right; exact Hrec'|exact Hrest].
      - intros rec' Hrec' Hign Htest.
        apply elem_of_cons in Hrec' as [->|Hrec']; [|eauto].
        apply Hsub'. auto. }
    destruct (decide (dbstore.DumpID rec ∈ filtered)) as [Hin|Hnin].
    { apply (Hstep filtered H); [set_solver|auto|auto]. }
    destruct (decide (dbstore.DumpID rec ∈ ignored)) as [Hign|Hign].
    { apply (Hstep filtered H); [set_solver|auto|intros; contradiction]. }
    destruct (testFilter bloomfilter_Decode (dbstore.Filter rec) orderedMonikers)
      as [[|]| | |] eqn:Htest; try discriminate.
    + apply (Hstep _ H); [set_solver| |set_solver].
      intros id Hid. apply elem_of_union in Hid as [Hid|Hid]; [|auto].
      apply elem_of_singleton in Hid as ->. auto.
    + apply (Hstep filtered H); [set_solver|auto|intros; discriminate].
Qed.

Lemma deferClose_Ok {A} closeErr (res : result A) a :
  deferClose closeErr res = Ok a -> closeErr = None /\ res = Ok a.
Proof.
  unfold deferClose. destruct closeErr; [destruct res; discriminate|]. auto.
Qed.

Lemma uploadIDsWithReferences_Ok {AdjustedLocation} bloomfilter_Decode
    (r : queryResolver AdjustedLocation) orderedMonikers ignoreIDs limit offset
    ids recordsScanned totalCount :
  uploadIDsWithReferences bloomfilter_Decode r orderedMonikers ignoreIDs limit offset
    = Ok (ids, recordsScanned, totalCount) ->
  exists scanner filtered,
    DBStore.ReferenceIDsAndFilters (dbStore r) (repositoryID r) (commit r)
      orderedMonikers limit offset = inr (scanner, totalCount)
    /\ scanClose scanner = None
    /\ uploadIDsWithReferences_loop bloomfilter_Decode orderedMonikers
         (ignoreIDsMap ignoreIDs) limit (scanEvents scanner) ∅ 0
       = Ok (filtered, recordsScanned)
    /\ ids = sort_Ints (elements filtered).
Proof.
  unfold uploadIDsWithReferences. intros H.
  destruct (DBStore.ReferenceIDsAndFilters _ _ _ _ _ _) as [err|[scanner total]];
    [discriminate|].
  apply deferClose_Ok in H as [Hclose H].
  destruct (uploadIDsWithReferences_loop _ _ _ _ _ _ _) as [[filtered n]| | |] eqn:Hloop;
    try discriminate.
  injection H as <- <- <-. exists scanner, filtered. auto.
Qed.

(** ** Sorting the batch *)

Lemma sort_Ints_Permutation l : sort_Ints l ≡ₚ l.
Proof. apply merge_sort_Permutation. Qed.

Lemma sort_Ints_Sorted l : StronglySorted Z.le (sort_Ints l).
Proof. apply StronglySorted_merge_sort; apply _. Qed.

Lemma StronglySorted_le_NoDup_lt (l : list Z) :
  StronglySorted Z.le l -> NoDup l -> StronglySorted Z.lt l.
Proof.
  induction 1 as [|x l Hs IH Hx]; intros Hnd; [constructor|].
  apply NoDup_cons in Hnd as [Hnin Hnd].
  constructor; [auto|].
  apply Forall_forall. intros y Hy.
  pose proof (proj1 (Forall_forall _ _) Hx y Hy).
  assert (x <> y) by (intros ->; contradiction).
  lia.
Qed.

(** Go ranges over a map in an unspecified order; whatever the order in
    which the selected indexes are flattened, sorting gives the same slice. *)
Lemma sort_Ints_order_irrelevant (l k : list Z) :
  l ≡ₚ k -> sort_Ints l = sort_Ints k.
Proof.
  intros Hp.
  apply (Sorted_unique Z.le).
  - apply Sorted_merge_sort; apply _.
  - apply Sorted_merge_sort; apply _.
  - rewrite !sort_Ints_Permutation. exact Hp.
Qed.

(** C10: whenever [uploadIDsWithReferences] returns without error, the
    slice of candidate IDs it returns is sorted in strictly increasing order
    and holds no ID twice, whatever records the scanner yields and in
    whatever order. *)
Theorem uploadIDsWithReferences_sorted {AdjustedLocation} bloomfilter_Decode
    (r : queryResolver AdjustedLocation) orderedMonikers ignoreIDs limit offset
    ids recordsScanned totalCount :
  uploadIDsWithReferences bloomfilter_Decode r orderedMonikers ignoreIDs limit offset
    = Ok (ids, recordsScanned, totalCount) ->
  StronglySorted Z.lt ids /\ NoDup ids.
Proof.
  intros H. apply uploadIDsWithReferences_Ok in H as (scanner & filtered & _ & _ & _ & ->).
  assert (Hnd : NoDup (sort_Ints (elements filtered))).
  { rewrite sort_Ints_Permutation. apply NoDup_elements. }
  split; [|exact Hnd].
  apply StronglySorted_le_NoDup_lt; [apply sort_Ints_Sorted|exact Hnd].
Qed.

Lemma uploadIDsWithReferences_sorted_witness :
  StronglySorted Z.lt [1; 42] /\ NoDup [1; 42].
Proof.
  apply (uploadIDsWithReferences_sorted Fixture.decode Fixture.resolver
           [Fixture.foo] [] 50 0 [1; 42] 3 3).
  vm_compute. reflexivity.
Defined.

(** ** The records a scan reads *)

Lemma selectedBy_subseteq bloomfilter_Decode orderedMonikers ignored packageReference :
  selectedBy bloomfilter_Decode orderedMonikers ignored packageReference
  ⊆ {[ dbstore.DumpID packageReference ]}.
Proof.
  unfold selectedBy. destruct (decide _); [apply empty_subseteq|].
  destruct (testFilter _ _ _) as [[|]| | |]; solve [reflexivity | apply empty_subseteq].
Qed.

(** What the scan loop has read when it ends well: the records up to the
    one that filled the batch, or all of them, each counted once; the batch
    is what it started with and the indexes these records add. *)
Lemma uploadIDsWithReferences_loop_scanned bloomfilter_Decode orderedMonikers ignored limit events :
  forall filtered recordsScanned filtered' recordsScanned',
    uploadIDsWithReferences_loop bloomfilter_Decode orderedMonikers ignored limit events
      filtered recordsScanned = Ok (filtered', recordsScanned') ->
    GoInt.min_int <= recordsScanned ->
    recordsScanned + GoInt.len events <= GoInt.max_int ->
    exists consumed rest,
      events = (ScanRecord <$> consumed) ++ rest
      /\ recordsScanned' = recordsScanned + GoInt.len consumed
      /\ filtered'
         = filtered ∪ selected bloomfilter_Decode orderedMonikers ignored consumed
      /\ (rest = [] \/ limit <= Z.of_nat (size filtered'))
      /\ forall shorter,
           shorter `prefix_of` consumed -> shorter <> consumed ->
           Z.of_nat (size (filtered
                           ∪ selected bloomfilter_Decode orderedMonikers ignored shorter))
           < limit.
Proof.
  assert (Hid : forall X : gset Z, X ∪ ∅ = X) by (intros X; apply (right_id_L ∅ (∪))).
  induction events as [|ev events IH];
    intros filtered n filtered' n' H Hmin Hmax; cbn [uploadIDsWithReferences_loop] in H.
  - exists [], []. destruct (_ <? _); injection H as <- <-.
    all: cbn [selected fmap list_fmap app]; rewrite Hid.
    all: split; [reflexivity|]; split; [unfold GoInt.len; cbn; lia|].
    all: split; [reflexivity|]; split; [left; reflexivity|].
    all: intros shorter Hp Hne; apply prefix_nil_inv in Hp; congruence.
  - rewrite GoInt_len_cons in Hmax. pose proof (GoInt_len_nonneg events) as Hlen.
    destruct (Z.ltb_spec (Z.of_nat (size filtered)) limit) as [Hlt|Hge].
    2: { injection H as <- <-. exists [], (ev :: events).
         cbn [selected fmap list_fmap app]. rewrite Hid.
         split; [reflexivity|]. split; [unfold GoInt.len; cbn; lia|].
         split; [reflexivity|]. split; [right; exact Hge|].
         intros shorter Hp Hne. apply prefix_nil_inv in Hp. congruence. }
    destruct ev as [rec|err]; [|discriminate].
    rewrite GoInt_add_exact in H by (unfold GoInt.in_range; lia).
    assert (Hstep : forall f,
      uploadIDsWithReferences_loop bloomfilter_Decode orderedMonikers ignored limit events
        f (n + 1) = Ok (filtered', n') ->
      f = filtered ∪ selectedBy bloomfilter_Decode orderedMonikers ignored rec ->
      exists consumed rest,
        ScanRecord rec :: events = (ScanRecord <$> consumed) ++ rest
        /\ n' = n + GoInt.len consumed
        /\ filtered'
           = filtered ∪ selected bloomfilter_Decode orderedMonikers ignored consumed
        /\ (rest = [] \/ limit <= Z.of_nat (size filtered'))
        /\ forall shorter,
             shorter `prefix_of` consumed -> shorter <> consumed ->
             Z.of_nat (size (filtered
                             ∪ selected bloomfilter_Decode orderedMonikers ignored
                                 shorter)) < limit).
    { intros f Hf Heq.
      apply IH in Hf as (consumed & rest & -> & -> & Hsel & Hstop & Hshort); [|lia|lia].
      exists (rec :: consumed), rest. rewrite GoInt_len_cons.
      split; [reflexivity|]. split; [lia|]. split.
      { rewrite Hsel, Heq. cbn [selected]. rewrite (assoc_L (∪)). reflexivity. }
      split; [exact Hstop|].
      intros shorter Hp Hne. destruct shorter as [|x shorter].
      - cbn [selected]. rewrite Hid. exact Hlt.
      - pose proof (prefix_cons_inv_1 _ _ _ _ Hp) as ->.
        apply prefix_cons_inv_2 in Hp.
        cbn [selected]. rewrite (assoc_L (∪)), <- Heq.
        apply Hshort; [exact Hp|congruence]. }
    destruct (decide (dbstore.DumpID rec ∈ filtered)) as [Hin|Hnin].
    { apply (Hstep _ H). apply set_eq. intros id. rewrite elem_of_union.
      pose proof (selectedBy_subseteq bloomfilter_Decode orderedMonikers ignored rec id)
        as Hsub.
      rewrite elem_of_singleton in Hsub. split; [auto|].
      intros [?|Hid']; [assumption|]. rewrite (Hsub Hid'). exact Hin. }
    destruct (decide (dbstore.DumpID rec ∈ ignored)) as [Hign|Hnign].
    { apply (Hstep _ H). unfold selectedBy. rewrite decide_True by assumption.
      rewrite Hid. reflexivity. }
    destruct (testFilter bloomfilter_Decode (dbstore.Filter rec) orderedMonikers)
      as [[|]| | |] eqn:Htest; try discriminate.
    + apply (Hstep _ H). unfold selectedBy. rewrite decide_False by assumption.
      rewrite Htest. apply (comm_L (∪)).
    + apply (Hstep _ H). unfold selectedBy. rewrite decide_False by assumption.
      rewrite Htest, Hid. reflexivity.
Qed.

Lemma scanned_records_comparable (consumed1 consumed2 : list dbstore.PackageReference)
    (rest1 rest2 : list scanEvent) :
  (ScanRecord <$> consumed1) ++ rest1 = (ScanRecord <$> consumed2) ++ rest2 ->
  consumed1 `prefix_of` consumed2 \/ consumed2 `prefix_of` consumed1.
Proof.
  revert consumed2. induction consumed1 as [|x consumed1 IH]; intros consumed2 H.
  - left. apply prefix_nil.
  - destruct consumed2 as [|y consumed2]; [right; apply prefix_nil|].
    cbn in H. injection H as -> H.
    destruct (IH _ H) as [Hp|Hp]; [left|right]; apply prefix_cons; exact Hp.
Qed.

(** The scanned prefix is determined by what the scanner yields. *)
Lemma scannedPrefix_unique bloomfilter_Decode orderedMonikers ignored limit events
    consumed1 rest1 consumed2 rest2 :
  scannedPrefix bloomfilter_Decode orderedMonikers ignored limit events consumed1 rest1 ->
  scannedPrefix bloomfilter_Decode orderedMonikers ignored limit events consumed2 rest2 ->
  consumed1 = consumed2 /\ rest1 = rest2.
Proof.
  assert (Hone : forall c1 r1 c2 r2,
    scannedPrefix bloomfilter_Decode orderedMonikers ignored limit events c1 r1 ->
    scannedPrefix bloomfilter_Decode orderedMonikers ignored limit events c2 r2 ->
    c1 `prefix_of` c2 -> c1 = c2).
  { intros c1 r1 c2 r2 (He1 & Hstop1 & _) (He2 & _ & Hshort2) Hp.
    destruct (decide (length c1 = length c2)) as [Hlen|Hlen].
    - destruct Hp as [k ->]. rewrite length_app in Hlen.
      destruct k; [rewrite app_nil_r; reflexivity|cbn in Hlen; lia].
    - assert (Hne : c1 <> c2) by congruence.
      specialize (Hshort2 c1 Hp Hne).
      destruct Hstop1 as [->|Hfull]; [|lia].
      rewrite app_nil_r in He1. rewrite He1 in He2.
      apply (f_equal length) in He2.
      rewrite length_app, !length_fmap in He2.
      apply prefix_length in Hp. lia. }
  intros H1 H2.
  assert (consumed1 = consumed2) as ->.
  { destruct H1 as (He1 & Hr1), H2 as (He2 & Hr2).
    destruct (scanned_records_comparable consumed1 consumed2 rest1 rest2) as [Hp|Hp];
      [congruence| |].
    - eapply Hone; [split; eassumption|split; eassumption|exact Hp].
    - symmetry. eapply Hone; [split; eassumption|split; eassumption|exact Hp]. }
  split; [reflexivity|].
  destruct H1 as (He1 & _), H2 as (He2 & _). rewrite He1 in He2.
  apply app_inv_head in He2. exact He2.
Qed.

(** ** Offsets of the candidate scan *)

(** C6: with no batch queued, one store scan of the batch acquisition loop
    physically reads the scanned prefix of the scanner's records: the
    shortest run of leading records that fills the batch, or every record
    when none does.  It reports the number of these records, ignored,
    repeated and rejected ones included (not the number of indexes selected,
    which are those the records read add to the batch), as records scanned,
    and advances [RemoteBatchOffset] by exactly that number, the sum staying
    an [int]; the offset is set to [-1] exactly when the advanced offset
    reaches or exceeds the store's reported total.  And with no batch queued
    and a negative [RemoteBatchOffset], [pageRemoteReferences] returns no
    locations and [hasMore = false], whatever the fuel, leaving the cursor as
    it is. *)
Theorem pageRemoteReferences_batch_offset {AdjustedLocation}
    bloomfilter_Decode filterUploadsWithCommits (r : queryResolver AdjustedLocation)
    orderedMonikers definitionUploadIDs (s : state) :
  GoInt.len (elems (BatchIDs (cursor s))) = 0 ->
  (forall fuel scanner totalCount ids recordsScanned totalCount',
      0 <= RemoteBatchOffset (cursor s) ->
      DBStore.ReferenceIDsAndFilters (dbStore r) (repositoryID r) (commit r)
        orderedMonikers maximumIndexesPerMonikerSearch (RemoteBatchOffset (cursor s))
        = inr (scanner, totalCount) ->
      RemoteBatchOffset (cursor s) + GoInt.len (scanEvents scanner) <= GoInt.max_int ->
      uploadIDsWithReferences bloomfilter_Decode r orderedMonikers definitionUploadIDs
        maximumIndexesPerMonikerSearch (RemoteBatchOffset (cursor s))
        = Ok (ids, recordsScanned, totalCount') ->
      exists consumed rest,
        scannedPrefix bloomfilter_Decode orderedMonikers
          (ignoreIDsMap definitionUploadIDs) maximumIndexesPerMonikerSearch
          (scanEvents scanner) consumed rest
        /\ recordsScanned = GoInt.len consumed
        /\ (forall id,
              id ∈ ids <->
              id ∈ selected bloomfilter_Decode orderedMonikers
                     (ignoreIDsMap definitionUploadIDs) consumed)
        /\ totalCount' = totalCount
        /\ let offset' := RemoteBatchOffset (cursor s) + GoInt.len consumed in
           let c' :=
             setRemoteBatchOffset (if totalCount <=? offset' then -1 else offset')
               (setBatchIDs (Some ids) (cursor s)) in
           pageRemoteReferences_batches bloomfilter_Decode r (S fuel)
             orderedMonikers definitionUploadIDs s
           = pageRemoteReferences_batches bloomfilter_Decode r fuel
               orderedMonikers definitionUploadIDs
               {| cursor := c'; uploadCache := uploadCache s |}
           /\ (RemoteBatchOffset c' = -1 <-> totalCount <= offset')
           /\ (offset' < totalCount -> RemoteBatchOffset c' = offset'))
  /\ (forall fuel lsifDataTable adjustedUploads limit,
        RemoteBatchOffset (cursor s) < 0 ->
        pageRemoteReferences bloomfilter_Decode filterUploadsWithCommits r fuel
          lsifDataTable adjustedUploads orderedMonikers definitionUploadIDs limit s
        = (Ok ([], false), s)).
Proof.
  intros Hempty. split.
  - intros fuel scanner totalCount ids recordsScanned totalCount' Hoff Hstore Hmax Hscan.
    pose proof Hscan as Hinv.
    apply uploadIDsWithReferences_Ok in Hinv
      as (scanner' & filtered & Hstore' & _ & Hloop & Hids).
    rewrite Hstore in Hstore'. injection Hstore' as <- <-.
    pose proof (GoInt_len_nonneg (scanEvents scanner)) as Hlen.
    apply uploadIDsWithReferences_loop_scanned in Hloop
      as (consumed & rest & Hevents & Hcount & Hsel & Hstop & Hshort);
      [|unfold GoInt.min_int; lia|unfold GoInt.max_int in *; lia].
    assert (Hempty' : forall X : gset Z, ∅ ∪ X = X)
      by (intros X; apply (left_id_L ∅ (∪))).
    rewrite Hempty' in Hsel. subst filtered.
    exists consumed, rest.
    assert (Hle : GoInt.len consumed <= GoInt.len (scanEvents scanner)).
    { rewrite Hevents, GoInt_len_app. unfold GoInt.len at 2. rewrite length_fmap.
      pose proof (GoInt_len_nonneg rest). unfold GoInt.len. lia. }
    pose proof (GoInt_len_nonneg consumed) as Hc.
    split.
    { split; [exact Hevents|]. split; [exact Hstop|].
      intros shorter Hp Hne. specialize (Hshort shorter Hp Hne).
      rewrite Hempty' in Hshort. exact Hshort. }
    split; [lia|]. split.
    { intros id. rewrite Hids, sort_Ints_Permutation, elem_of_elements. reflexivity. }
    split; [reflexivity|].
    cbn zeta. split; [|split].
    + cbn [pageRemoteReferences_batches].
      unfold mbind at 1. unfold M_bind at 1. unfold getCursor at 1.
      rewrite Hempty. cbn [Z.eqb].
      destruct (Z.ltb_spec (RemoteBatchOffset (cursor s)) 0) as [?|_]; [lia|].
      rewrite Hscan.
      unfold mbind at 1. unfold M_bind at 1. unfold liftResult at 1.
      cbn beta iota.
      unfold mbind at 1. unfold M_bind at 1. unfold modifyCursor at 1.
      unfold mbind at 1. unfold M_bind at 1. unfold modifyCursor at 1.
      unfold mbind at 1. unfold M_bind at 1. unfold getCursor at 1.
      cbn [cursor uploadCache setRemoteBatchOffset setBatchIDs RemoteBatchOffset].
      rewrite GoInt_add_exact by (unfold GoInt.in_range, GoInt.min_int; lia).
      rewrite Hcount, Z.add_0_l.
      unfold mbind at 1. unfold M_bind at 1. unfold when.
      rewrite Z.geb_leb.
      destruct (Z.leb_spec totalCount (RemoteBatchOffset (cursor s) + GoInt.len consumed));
        reflexivity.
    + cbn. destruct (Z.leb_spec totalCount (RemoteBatchOffset (cursor s) + GoInt.len consumed));
        split; intros; lia.
    + cbn. destruct (Z.leb_spec totalCount (RemoteBatchOffset (cursor s) + GoInt.len consumed));
        intros; lia.
  - intros fuel lsifDataTable adjustedUploads limit Hneg.
    unfold pageRemoteReferences.
    assert (Hb : pageRemoteReferences_batches bloomfilter_Decode r fuel
                   orderedMonikers definitionUploadIDs s = (Ok false, s)).
    { destruct fuel; cbn [pageRemoteReferences_batches];
        unfold mbind, M_bind, getCursor; rewrite Hempty; cbn [Z.eqb];
        destruct (Z.ltb_spec (RemoteBatchOffset (cursor s)) 0); try lia; reflexivity. }
    unfold mbind at 1. unfold M_bind at 1. rewrite Hb. reflexivity.
Qed.

Lemma pageRemoteReferences_batch_offset_witness :
  exists consumed rest,
    scannedPrefix Fixture.decode [Fixture.foo] (ignoreIDsMap [])
      maximumIndexesPerMonikerSearch Fixture.candidates consumed rest
    /\ 3 = GoInt.len consumed
    /\ (forall id,
          id ∈ [1; 42] <->
          id ∈ selected Fixture.decode [Fixture.foo] (ignoreIDsMap []) consumed)
    /\ 3 = 3
    /\ let offset' := 0 + GoInt.len consumed in
       let c' :=
         setRemoteBatchOffset (if 3 <=? offset' then -1 else offset')
           (setBatchIDs (Some [1; 42]) (cursor Fixture.remote)) in
       pageRemoteReferences_batches Fixture.decode Fixture.resolver 6 [Fixture.foo] []
         Fixture.remote
       = pageRemoteReferences_batches Fixture.decode Fixture.resolver 5 [Fixture.foo] []
           {| cursor := c'; uploadCache := uploadCache Fixture.remote |}
       /\ (RemoteBatchOffset c' = -1 <-> 3 <= offset')
       /\ (offset' < 3 -> RemoteBatchOffset c' = offset').
Proof.
  refine (proj1 (pageRemoteReferences_batch_offset Fixture.decode Fixture.commitsKnown
                   Fixture.resolver [Fixture.foo] [] Fixture.remote _)
            5%nat {| scanEvents := Fixture.candidates; scanClose := None |} 3 [1; 42] 3 3
            _ _ _ _).
  - reflexivity.
  - vm_compute. discriminate.
  - reflexivity.
  - vm_compute. discriminate.
  - vm_compute. reflexivity.
Defined.

(** ** Frame rules *)

Section Preserves.

Variable R : state -> state -> Prop.
Hypothesis R_refl : forall s, R s s.
Hypothesis R_trans : forall s1 s2 s3, R s1 s2 -> R s2 s3 -> R s1 s3.

Lemma preserves_bind {A B} (m : M A) (f : A -> M B) :
  preserves R m -> (forall a, preserves R (f a)) -> preserves R (m ≫= f).
Proof using R_trans.
  intros Hm Hf s res s'. unfold mbind, M_bind.
  destruct (m s) as [res0 s1] eqn:Hms. specialize (Hm _ _ _ Hms).
  destruct res0 as [a| | |]; intros H.
  - eapply R_trans; [exact Hm|]. eapply Hf. exact H.
  - injection H as <- <-. exact Hm.
  - injection H as <- <-. exact Hm.
  - injection H as <- <-. exact Hm.
Qed.

Lemma preserves_pure {A} (m : M A) :
  (forall s, snd (m s) = s) -> preserves R m.
Proof using R_refl.
  intros Hm s res s' H. specialize (Hm s). rewrite H in Hm. cbn in Hm. subst. apply R_refl.
Qed.

Lemma preserves_ret {A} (a : A) : preserves R (mret a : M A).
Proof using R_refl. apply preserves_pure. reflexivity. Qed.

Lemma preserves_getCursor : preserves R getCursor.
Proof using R_refl. apply preserves_pure. reflexivity. Qed.

Lemma preserves_getUploadCache : preserves R getUploadCache.
Proof using R_refl. apply preserves_pure. reflexivity. Qed.

Lemma preserves_throw {A} e : preserves R (throw e : M A).
Proof using R_refl. apply preserves_pure. reflexivity. Qed.

Lemma preserves_panic {A} : preserves R (panic : M A).
Proof using R_refl. apply preserves_pure. reflexivity. Qed.

Lemma preserves_outOfFuel {A} : preserves R (outOfFuel : M A).
Proof using R_refl. apply preserves_pure. reflexivity. Qed.

Lemma preserves_try {A} (r : error + A) : preserves R (try r).
Proof using R_refl. apply preserves_pure. destruct r; reflexivity. Qed.

Lemma preserves_tryWrap {A} msg (r : error + A) : preserves R (tryWrap msg r).
Proof using R_refl. apply preserves_pure. destruct r; reflexivity. Qed.

Lemma preserves_liftResult {A} (r : result A) : preserves R (liftResult r).
Proof using R_refl. apply preserves_pure. reflexivity. Qed.

Lemma preserves_sliceFrom {A} (l : list A) low : preserves R (sliceFrom l low).
Proof using R_refl.
  apply preserves_pure. intros s. unfold sliceFrom. destruct (_ || _); reflexivity.
Qed.

Lemma preserves_when b m : preserves R m -> preserves R (when b m).
Proof using R_refl. destruct b; cbn; [auto|intros _; apply preserves_ret]. Qed.

End Preserves.

Lemma samePhase_refl s : samePhase s s.
Proof. reflexivity. Qed.

Lemma samePhase_trans s1 s2 s3 : samePhase s1 s2 -> samePhase s2 s3 -> samePhase s1 s3.
Proof. unfold samePhase. congruence. Qed.

Lemma preserves_modifyCursor_samePhase f :
  (forall c, Phase (f c) = Phase c) -> preserves samePhase (modifyCursor f).
Proof.
  intros Hf s res s' H. unfold modifyCursor in H. injection H as <- <-.
  unfold samePhase; cbn. apply Hf.
Qed.

Lemma preserves_modifyUploadCache_samePhase f : preserves samePhase (modifyUploadCache f).
Proof.
  intros s res s' H. unfold modifyUploadCache in H. injection H as <- <-. reflexivity.
Qed.

(** Discharges a frame goal for code that never assigns [Phase]. *)
Ltac same_phase :=
  repeat
    first
      [ apply preserves_ret; [exact samePhase_refl]
      | apply preserves_getCursor; [exact samePhase_refl]
      | apply preserves_getUploadCache; [exact samePhase_refl]
      | apply preserves_throw; [exact samePhase_refl]
      | apply preserves_panic; [exact samePhase_refl]
      | apply preserves_outOfFuel; [exact samePhase_refl]
      | apply preserves_try; [exact samePhase_refl]
      | apply preserves_tryWrap; [exact samePhase_refl]
      | apply preserves_liftResult; [exact samePhase_refl]
      | apply preserves_sliceFrom; [exact samePhase_refl]
      | apply preserves_modifyUploadCache_samePhase
      | apply preserves_modifyCursor_samePhase; intros; reflexivity
      | apply preserves_when; [exact samePhase_refl|]
      | apply preserves_bind; [exact samePhase_trans| |intros]
      | assumption
      | match goal with
        | |- preserves _ (match ?x with _ => _ end) => destruct x
        | |- preserves _ (let '(_, _) := ?x in _) => destruct x
        end ].

Lemma uploadsByIDs_samePhase {AdjustedLocation} filterUploadsWithCommits
    (r : queryResolver AdjustedLocation) ids :
  preserves samePhase (uploadsByIDs filterUploadsWithCommits r ids).
Proof. unfold uploadsByIDs. same_phase. Qed.

Lemma adjustedUploadsFromCursor_samePhase {AdjustedLocation}
    (r : queryResolver AdjustedLocation) line character :
  preserves samePhase (adjustedUploadsFromCursor r line character).
Proof. unfold adjustedUploadsFromCursor. same_phase. Qed.

Lemma definitionUploadIDsFromCursor_samePhase {AdjustedLocation}
    (r : queryResolver AdjustedLocation) adjustedUploads orderedMonikers :
  preserves samePhase (definitionUploadIDsFromCursor r adjustedUploads orderedMonikers).
Proof. unfold definitionUploadIDsFromCursor. same_phase. Qed.

Lemma pageLocalReferences_loop_samePhase {AdjustedLocation}
    (r : queryResolver AdjustedLocation) ty uploads :
  forall limit allLocations,
    preserves samePhase (pageLocalReferences_loop r ty uploads limit allLocations).
Proof.
  induction uploads as [|u rest IH]; intros limit allLocations;
    cbn [pageLocalReferences_loop]; same_phase.
  apply IH.
Qed.

Lemma pageLocalReferences_samePhase {AdjustedLocation}
    (r : queryResolver AdjustedLocation) ty adjustedUploads limit :
  preserves samePhase (pageLocalReferences r ty adjustedUploads limit).
Proof.
  unfold pageLocalReferences. same_phase. apply pageLocalReferences_loop_samePhase.
Qed.

Lemma pageRemoteReferences_batches_samePhase {AdjustedLocation} bloomfilter_Decode
    (r : queryResolver AdjustedLocation) fuel orderedMonikers definitionUploadIDs :
  preserves samePhase
    (pageRemoteReferences_batches bloomfilter_Decode r fuel orderedMonikers
       definitionUploadIDs).
Proof.
  induction fuel as [|fuel IH]; cbn [pageRemoteReferences_batches]; same_phase.
Qed.

Lemma pageRemoteReferences_samePhase {AdjustedLocation} bloomfilter_Decode
    filterUploadsWithCommits (r : queryResolver AdjustedLocation) fuel lsifDataTable
    adjustedUploads orderedMonikers definitionUploadIDs limit :
  preserves samePhase
    (pageRemoteReferences bloomfilter_Decode filterUploadsWithCommits r fuel lsifDataTable
       adjustedUploads orderedMonikers definitionUploadIDs limit).
Proof.
  unfold pageRemoteReferences. same_phase.
  apply pageRemoteReferences_batches_samePhase.
Qed.

(** ** The phase of a request *)

Lemma phaseAdvances_trans p q t :
  phaseAdvances p q -> phaseAdvances q t -> phaseAdvances p t.
Proof.
  intros H1 H2. inversion H1; subst; [exact H2| | |];
    inversion H2; subst; try constructor; discriminate.
Qed.

Lemma preserves_run {A} R (m : M A) (s s' : state) res :
  preserves R m -> m s = (res, s') -> R s s'.
Proof. intros Hm. apply Hm. Qed.

(** Phase 1 leaves the phase alone, or moves it from local to remote after
    the local search reported no more results. *)
Lemma referencesLocalPhase_phase {AdjustedLocation} (r : queryResolver AdjustedLocation)
    adjustedUploads limit locations (s s' : state) res :
  referencesLocalPhase r adjustedUploads limit locations s = (res, s') ->
  samePhase s s'
  \/ (Phase (cursor s) = "local" /\ Phase (cursor s') = "remote"
      /\ localReportsNoMore r adjustedUploads (GoInt.sub limit (GoInt.len locations)) s).
Proof.
  unfold referencesLocalPhase. intros H.
  unfold mbind at 1 in H. unfold M_bind at 1 in H. unfold getCursor at 1 in H.
  destruct (String.eqb_spec (Phase (cursor s)) "local") as [Hlocal|Hother].
  - apply bind_inv in H as [([localLocations hasMore] & s1 & Hpage & H)|(res0 & Hpage & _)].
    + pose proof (preserves_run _ _ _ _ _ (pageLocalReferences_samePhase _ _ _ _) Hpage)
        as Hsame.
      destruct hasMore; cbn [negb when] in H.
      * left. unfold mbind, M_bind, mret, M_ret in H. injection H as <- <-. exact Hsame.
      * right. unfold mbind, M_bind, mret, M_ret, modifyCursor in H.
        injection H as <- <-. split; [exact Hlocal|]. split; [reflexivity|].
        exists localLocations, s1. exact Hpage.
    + left. exact (preserves_run _ _ _ _ _ (pageLocalReferences_samePhase _ _ _ _) Hpage).
  - left. unfold mret, M_ret in H. injection H as <- <-. reflexivity.
Qed.

(** The loop of phase 2 leaves the phase alone, or marks it done right
    after a remote search that reported no more results. *)
Lemma referencesRemoteLoop_phase {AdjustedLocation} bloomfilter_Decode
    filterUploadsWithCommits (r : queryResolver AdjustedLocation)
    adjustedUploads definitionUploadIDs limit fuel :
  forall locations (s s' : state) res,
    referencesRemoteLoop bloomfilter_Decode filterUploadsWithCommits r fuel
      adjustedUploads definitionUploadIDs limit locations s = (res, s') ->
    samePhase s s'
    \/ remoteReportsNoMore bloomfilter_Decode filterUploadsWithCommits r
         adjustedUploads definitionUploadIDs (Phase (cursor s)) s'.
Proof.
  induction fuel as [|fuel IH]; intros locations s s' res H;
    cbn [referencesRemoteLoop] in H;
    destruct (GoInt.len locations <? limit).
  - left. unfold outOfFuel in H. injection H as <- <-. reflexivity.
  - left. unfold mret, M_ret in H. injection H as <- <-. reflexivity.
  - unfold mbind at 1 in H. unfold M_bind at 1 in H. unfold getCursor at 1 in H.
    apply bind_inv in H as [([remoteLocations hasMore] & s1 & Hpage & H)|(res0 & Hpage & _)].
    + pose proof (preserves_run _ _ _ _ _
                    (pageRemoteReferences_samePhase _ _ _ _ _ _ _ _ _) Hpage) as Hsame.
      destruct hasMore; cbn [negb] in H.
      * apply IH in H as [Hs|(f & om & l & ls & s2 & s3 & Hp & Hcall & ->)].
        -- left. eapply samePhase_trans; eassumption.
        -- right. exists f, om, l, ls, s2, s3.
           split; [unfold samePhase in Hsame; congruence|]. split; [exact Hcall|reflexivity].
      * right. unfold mbind, M_bind, mret, M_ret, modifyCursor in H.
        injection H as <- <-.
        eexists _, _, _, _, s, s1. split; [reflexivity|]. split; [exact Hpage|reflexivity].
    + left. exact (preserves_run _ _ _ _ _
                     (pageRemoteReferences_samePhase _ _ _ _ _ _ _ _ _) Hpage).
  - left. unfold mret, M_ret in H. injection H as <- <-. reflexivity.
Qed.

Lemma referencesRemotePhase_phase {AdjustedLocation} bloomfilter_Decode
    filterUploadsWithCommits (r : queryResolver AdjustedLocation)
    adjustedUploads definitionUploadIDs limit fuel locations (s s' : state) res :
  referencesRemotePhase bloomfilter_Decode filterUploadsWithCommits r fuel
    adjustedUploads definitionUploadIDs limit locations s = (res, s') ->
  samePhase s s'
  \/ (Phase (cursor s) = "remote"
      /\ remoteReportsNoMore bloomfilter_Decode filterUploadsWithCommits r
           adjustedUploads definitionUploadIDs "remote" s').
Proof.
  unfold referencesRemotePhase. intros H.
  unfold mbind at 1 in H. unfold M_bind at 1 in H. unfold getCursor at 1 in H.
  destruct (String.eqb_spec (Phase (cursor s)) "remote") as [Hremote|Hother].
  - apply referencesRemoteLoop_phase in H as [Hs|Hdone]; [left; exact Hs|].
    right. rewrite Hremote in Hdone. auto.
  - left. unfold mret, M_ret in H. injection H as <- <-. reflexivity.
Qed.

Lemma referencesPrelude_samePhase {AdjustedLocation} (r : queryResolver AdjustedLocation)
    line character :
  preserves samePhase (referencesPrelude r line character).
Proof. unfold referencesPrelude. same_phase. Qed.

Lemma remoteReportsNoMore_done {AdjustedLocation} bloomfilter_Decode
    filterUploadsWithCommits (r : queryResolver AdjustedLocation)
    adjustedUploads definitionUploadIDs p s' :
  remoteReportsNoMore bloomfilter_Decode filterUploadsWithCommits r
    adjustedUploads definitionUploadIDs p s' ->
  Phase (cursor s') = "done".
Proof. intros (? & ? & ? & ? & ? & ? & _ & _ & ->). reflexivity. Qed.

Lemma preserves_eq_tail {A} (m : M A) (s s' : state) res :
  preserves eq m -> m s = (res, s') -> s' = s.
Proof. intros Hm H. symmetry. exact (Hm _ _ _ H). Qed.

(** How the phase has moved when the two phases of [References] and the
    assembly of the page have run from [s0]. *)
Lemma referencesPhases_phase {AdjustedLocation} bloomfilter_Decode
    filterUploadsWithCommits (encodeCursor : referencesCursor -> string)
    (r : queryResolver AdjustedLocation) fuel limit adjustedUploads definitionUploadIDs
    (s0 s' : state) (res : result (list AdjustedLocation * string)) :
  (locations ← referencesLocalPhase r adjustedUploads limit [];
   locations ← referencesRemotePhase bloomfilter_Decode filterUploadsWithCommits r fuel
                 adjustedUploads definitionUploadIDs limit locations;
   adjustedLocations ← try (adjustLocations r locations);
   c ← getCursor;
   mret (adjustedLocations,
         if negb (String.eqb (Phase c) "done") then encodeCursor c else ""%string)) s0
  = (res, s') ->
  samePhase s0 s'
  \/ (Phase (cursor s0) = "local" /\ Phase (cursor s') = "remote"
      /\ localReportsNoMore r adjustedUploads (GoInt.sub limit 0) s0)
  \/ (Phase (cursor s0) = "remote"
      /\ remoteReportsNoMore bloomfilter_Decode filterUploadsWithCommits r
           adjustedUploads definitionUploadIDs "remote" s')
  \/ (Phase (cursor s0) = "local"
      /\ localReportsNoMore r adjustedUploads (GoInt.sub limit 0) s0
      /\ remoteReportsNoMore bloomfilter_Decode filterUploadsWithCommits r
           adjustedUploads definitionUploadIDs "remote" s').
Proof.
  intros H.
  apply bind_inv in H as [(locations & s1 & Hlocal & H)|(res0 & Hlocal & _)].
  2: { apply referencesLocalPhase_phase in Hlocal as [Hs|Hmove]; [left; exact Hs|right; left; exact Hmove]. }
  assert (Htail : exists res1 s2,
             referencesRemotePhase bloomfilter_Decode filterUploadsWithCommits r fuel
               adjustedUploads definitionUploadIDs limit locations s1 = (res1, s2)
             /\ s' = s2).
  { apply bind_inv in H as [(locations' & s2 & Hremote & H)|(res0 & Hremote & _)];
      [|eauto].
    exists (Ok locations'), s2. split; [exact Hremote|].
    eapply preserves_eq_tail; [|exact H].
    apply preserves_bind; [congruence|apply preserves_try; reflexivity|intros].
    apply preserves_bind; [congruence|apply preserves_getCursor; reflexivity|intros].
    apply preserves_ret; reflexivity. }
  destruct Htail as (res1 & s2 & Hremote & ->).
  apply referencesLocalPhase_phase in Hlocal as [Hs1|(Hloc & Hrem & Hno)];
    apply referencesRemotePhase_phase in Hremote as [Hs2|(Hr & Hdone)].
  - left. eapply samePhase_trans; eassumption.
  - unfold samePhase in Hs1. right. right. left. split; [congruence|exact Hdone].
  - unfold samePhase in Hs2. right. left. split; [exact Hloc|]. split; [congruence|exact Hno].
  - right. right. right. auto.
Qed.

(** C7: over one run of [References], whatever its outcome, the cursor's
    phase stays or advances along local, remote, done: from remote it can only
    stay or become done, and from done it does not move.  It leaves local only
    when the local phase, run on the state the prelude produced, reported no
    more results; it becomes done only right after a call of the remote phase,
    made in phase remote, that reported no more results. *)
Theorem References_phase_one_way {AdjustedLocation} bloomfilter_Decode
    filterUploadsWithCommits encodeCursor (r : queryResolver AdjustedLocation)
    fuel line character limit (s s' : state) res :
  referencesPage bloomfilter_Decode filterUploadsWithCommits encodeCursor r
    fuel line character limit s = (res, s') ->
  phaseAdvances (Phase (cursor s)) (Phase (cursor s'))
  /\ (Phase (cursor s) = "remote" ->
      Phase (cursor s') = "remote" \/ Phase (cursor s') = "done")
  /\ (Phase (cursor s) = "done" -> Phase (cursor s') = "done")
  /\ (Phase (cursor s) = "local" -> Phase (cursor s') <> "local" ->
      exists adjustedUploads definitionUploadIDs s0,
        referencesPrelude r line character s
        = (Ok (adjustedUploads, definitionUploadIDs), s0)
        /\ localReportsNoMore r adjustedUploads (GoInt.sub limit 0) s0)
  /\ (Phase (cursor s') = "done" -> Phase (cursor s) <> "done" ->
      exists adjustedUploads definitionUploadIDs,
        remoteReportsNoMore bloomfilter_Decode filterUploadsWithCommits r
          adjustedUploads definitionUploadIDs "remote" s').
Proof.
  intros H. unfold referencesPage in H.
  apply bind_inv in H as [([adjustedUploads definitionUploadIDs] & s0 & Hpre & H)
                         |(res0 & Hpre & _)].
  2: { pose proof (preserves_run _ _ _ _ _ (referencesPrelude_samePhase _ _ _) Hpre) as Hs.
       unfold samePhase in Hs. rewrite Hs.
       repeat split; intros; first [solve [constructor]|contradiction|solve [auto]]. }
  pose proof (preserves_run _ _ _ _ _ (referencesPrelude_samePhase _ _ _) Hpre) as Hs.
  unfold samePhase in Hs.
  apply referencesPhases_phase in H
    as [Hsame|[(Hloc & Hrem & Hno)|[(Hr & Hdone)|(Hloc & Hno & Hdone)]]].
  - unfold samePhase in Hsame. rewrite Hsame, Hs.
    repeat split; intros; first [solve [constructor]|contradiction|solve [auto]].
  - rewrite Hrem, <- Hs, Hloc.
    repeat split; intros; first [solve [constructor]|discriminate|solve [eauto 10]].
  - pose proof (remoteReportsNoMore_done _ _ _ _ _ _ _ Hdone) as Hd.
    rewrite Hd, <- Hs, Hr.
    repeat split; intros; first [solve [constructor]|discriminate|solve [eauto 10]].
  - pose proof (remoteReportsNoMore_done _ _ _ _ _ _ _ Hdone) as Hd.
    rewrite Hd, <- Hs, Hloc.
    repeat split; intros; first [solve [constructor]|discriminate|solve [eauto 10]].
Qed.

Lemma References_phase_one_way_witness :
  let run :=
    referencesPage Fixture.decode Fixture.commitsKnown Codec.encodeCursor
      Fixture.resolver 5 10 4 10 Fixture.fresh in
  Phase (cursor Fixture.fresh) = "local"
  /\ Phase (cursor (snd run)) = "done"
  /\ phaseAdvances (Phase (cursor Fixture.fresh)) (Phase (cursor (snd run))).
Proof.
  intros run.
  assert (Hrun : run = (fst run, snd run)) by (vm_compute; reflexivity).
  split; [reflexivity|]. split; [vm_compute; reflexivity|].
  exact (proj1 (References_phase_one_way Fixture.decode Fixture.commitsKnown
                  Codec.encodeCursor Fixture.resolver 5 10 4 10 Fixture.fresh
                  (snd run) (fst run) Hrun)).
Defined.

(** ** The ignore set *)

(** The set the scan loop consults holds the positions of the slice
    [ignoreIDs], not its elements. *)
Lemma ignoreIDsMap_indexes (ignoreIDs : list Z) (id : Z) :
  id ∈ ignoreIDsMap ignoreIDs <-> 0 <= id < GoInt.len ignoreIDs.
Proof.
  unfold ignoreIDsMap. rewrite elem_of_list_to_set, elem_of_seqZ. lia.
Qed.

(** C1, evaluated: with the ignore set [{42, 77}], the scan of the three
    candidates 1, 8 and 42 (1 and 42 test positive on ["foo"]) returns [[42]]:
    candidate 42, which is in the ignore set, is included, and candidate 1,
    which is not in it and tests positive, is left out, because its ID is a
    position of the ignore slice. *)
Theorem uploadIDsWithReferences_ignores_positions :
  uploadIDsWithReferences Fixture.decode Fixture.resolver [Fixture.foo] [42; 77] 50 0
  = Ok ([42], 3, 3).
Proof. vm_compute. reflexivity. Qed.

(** ** Hydrating a batch *)

(** A failure of [dbstore.GetDumpsByIDs] reaches the caller, wrapped with
    the operation's name. *)
Lemma uploadsByIDs_store_failure {AdjustedLocation} filterUploadsWithCommits
    (r : queryResolver AdjustedLocation) ids (s : state) err :
  (forall missingIDs, DBStore.GetDumpsByIDs (dbStore r) missingIDs = inl err) ->
  uploadsByIDs filterUploadsWithCommits r ids s
  = (Err (ErrWrap err "dbstore.GetDumpsByIDs"), s).
Proof.
  intros Hfail. unfold uploadsByIDs, mbind, M_bind, getUploadCache.
  destruct (uploadsByIDs_loop _ _ _ _) as [missingIDs existingUploads].
  rewrite Hfail. reflexivity.
Qed.

(** A failure of [filterUploadsWithCommits] does not: the call answers no
    uploads and no error. *)
Lemma uploadsByIDs_commit_failure {AdjustedLocation} filterUploadsWithCommits
    (r : queryResolver AdjustedLocation) ids (s : state) uploads err :
  (forall missingIDs, DBStore.GetDumpsByIDs (dbStore r) missingIDs = inr uploads) ->
  filterUploadsWithCommits uploads = inl err ->
  uploadsByIDs filterUploadsWithCommits r ids s = (Ok [], s).
Proof.
  intros Hstore Hfail. unfold uploadsByIDs, mbind, M_bind, getUploadCache.
  destruct (uploadsByIDs_loop _ _ _ _) as [missingIDs existingUploads].
  rewrite Hstore. cbn. rewrite Hfail. reflexivity.
Qed.

(** C2, evaluated: hydrating upload 42, missing from the cache, while the
    commit checker's backing service is down, answers an empty slice and a
    nil error. *)
Theorem uploadsByIDs_swallows_commit_failure :
  Fixture.commitsUnavailable [Fixture.dump 42] = inl (ErrNew "gitserver: connection refused")
  /\ uploadsByIDs Fixture.commitsUnavailable Fixture.resolver [42] Fixture.fresh
     = (Ok [], Fixture.fresh).
Proof. split; reflexivity. Qed.

(** ** The cursor codec *)

Lemma string_app_cons (x : ascii) (a b : string) : String x a +:+ b = String x (a +:+ b).
Proof. reflexivity. Qed.

Lemma string_app_nil_l (a : string) : "" +:+ a = a.
Proof. reflexivity. Qed.

Lemma string_app_assoc (a b c : string) : (a +:+ b) +:+ c = a +:+ (b +:+ c).
Proof.
  induction a as [|x a IH]; [reflexivity|].
  rewrite !string_app_cons, IH. reflexivity.
Qed.

Lemma string_app_nil_r (a : string) : a +:+ "" = a.
Proof.
  induction a as [|x a IH]; [reflexivity|].
  rewrite string_app_cons, IH. reflexivity.
Qed.

Lemma roundtrips_bind {A B} (encA : A -> string) (decA : Codec.parser A)
    (f : A -> Codec.parser B) (a : A) (rest : string) :
  roundtrips encA decA ->
  Codec.pbind decA f (encA a +:+ rest) = f a rest.
Proof. intros HA. unfold Codec.pbind. rewrite HA. reflexivity. Qed.

Lemma decPositive_roundtrips : roundtrips Codec.encPositive Codec.decPositive.
Proof.
  intros p rest.
  induction p as [p IH|p IH|]; cbn [Codec.encPositive]; rewrite string_app_cons;
    cbn [Codec.decPositive]; [rewrite IH|rewrite IH|]; reflexivity.
Qed.

Lemma decInt_roundtrips : roundtrips Codec.encInt Codec.decInt.
Proof.
  intros [|p|p] rest; cbn [Codec.encInt]; rewrite string_app_cons; unfold Codec.decInt;
    [reflexivity| |]; rewrite decPositive_roundtrips; reflexivity.
Qed.

Lemma decLen_roundtrips : roundtrips Codec.encLen Codec.decLen.
Proof.
  intros n rest. unfold Codec.decLen, Codec.encLen.
  rewrite (roundtrips_bind _ _ _ _ _ decInt_roundtrips).
  destruct (Z.ltb_spec (Z.of_nat n) 0); [lia|].
  unfold Codec.pret. rewrite Nat2Z.id. reflexivity.
Qed.

Lemma takeChars_app (s rest : string) :
  Codec.takeChars (String.length s) (s +:+ rest) = Some (s, rest).
Proof.
  induction s as [|c s IH]; [reflexivity|].
  cbn [String.length]. rewrite string_app_cons. cbn [Codec.takeChars].
  rewrite IH. reflexivity.
Qed.

Lemma decString_roundtrips : roundtrips Codec.encString Codec.decString.
Proof.
  intros s rest. unfold Codec.decString, Codec.encString.
  rewrite string_app_assoc, (roundtrips_bind _ _ _ _ _ decLen_roundtrips).
  apply takeChars_app.
Qed.

Section ContainerRoundtrips.

Context {A : Type} (enc : A -> string) (dec : Codec.parser A).
Hypothesis enc_dec : roundtrips enc dec.

Lemma decItems_roundtrips (l : list A) (rest : string) :
  Codec.decItems dec (length l) (Codec.encItems enc l +:+ rest) = Some (l, rest).
Proof using enc_dec.
  induction l as [|x l IH]; cbn [Codec.decItems Codec.encItems length]; [reflexivity|].
  rewrite string_app_assoc, (roundtrips_bind _ _ _ _ _ enc_dec).
  unfold Codec.pbind. rewrite IH. reflexivity.
Qed.

Lemma decList_roundtrips : roundtrips (Codec.encList enc) (Codec.decList dec).
Proof using enc_dec.
  intros l rest. unfold Codec.decList, Codec.encList.
  rewrite string_app_assoc, (roundtrips_bind _ _ _ _ _ decLen_roundtrips).
  apply decItems_roundtrips.
Qed.

Lemma decOption_roundtrips : roundtrips (Codec.encOption enc) (Codec.decOption dec).
Proof using enc_dec.
  intros [x|] rest; cbn [Codec.encOption]; rewrite string_app_cons;
    unfold Codec.decOption; [|reflexivity].
  rewrite enc_dec. reflexivity.
Qed.

End ContainerRoundtrips.

Lemma decPosition_roundtrips : roundtrips Codec.encPosition Codec.decPosition.
Proof.
  intros [l c] rest. unfold Codec.decPosition, Codec.encPosition; cbn.
  rewrite !string_app_assoc.
  rewrite !(roundtrips_bind _ _ _ _ _ decInt_roundtrips). reflexivity.
Qed.

Lemma decAdjustedUpload_roundtrips :
  roundtrips Codec.encAdjustedUpload Codec.decAdjustedUpload.
Proof.
  intros [id p pos pb] rest. unfold Codec.decAdjustedUpload, Codec.encAdjustedUpload; cbn.
  rewrite !string_app_assoc.
  rewrite (roundtrips_bind _ _ _ _ _ decInt_roundtrips).
  rewrite (roundtrips_bind _ _ _ _ _ decString_roundtrips).
  rewrite (roundtrips_bind _ _ _ _ _ decPosition_roundtrips).
  rewrite (roundtrips_bind _ _ _ _ _ decString_roundtrips).
  reflexivity.
Qed.

Lemma decMoniker_roundtrips : roundtrips Codec.encMoniker Codec.decMoniker.
Proof.
  intros [k sc i] rest. unfold Codec.decMoniker, Codec.encMoniker; cbn.
  rewrite !string_app_assoc.
  rewrite !(roundtrips_bind _ _ _ _ _ decString_roundtrips). reflexivity.
Qed.

Lemma decFields_roundtrips : roundtrips Codec.encFields Codec.decFields.
Proof.
  intros [au du om ph lo lbo ro bi rbo] rest.
  unfold Codec.decFields, Codec.encFields; cbn.
  rewrite !string_app_assoc.
  rewrite (roundtrips_bind _ _ _ _ _
             (decOption_roundtrips _ _ (decList_roundtrips _ _ decAdjustedUpload_roundtrips))).
  rewrite (roundtrips_bind _ _ _ _ _
             (decOption_roundtrips _ _ (decList_roundtrips _ _ decInt_roundtrips))).
  rewrite (roundtrips_bind _ _ _ _ _
             (decOption_roundtrips _ _ (decList_roundtrips _ _ decMoniker_roundtrips))).
  rewrite (roundtrips_bind _ _ _ _ _ decString_roundtrips).
  rewrite !(roundtrips_bind _ _ _ _ _ decInt_roundtrips).
  rewrite (roundtrips_bind _ _ _ _ _
             (decOption_roundtrips _ _ (decList_roundtrips _ _ decInt_roundtrips))).
  rewrite (roundtrips_bind _ _ _ _ _ decInt_roundtrips).
  reflexivity.
Qed.

Lemma dropPrefix_app (p s : string) : Codec.dropPrefix p (p +:+ s) = Some s.
Proof.
  induction p as [|a p IH]; [reflexivity|].
  rewrite string_app_cons. cbn [Codec.dropPrefix]. rewrite Ascii.eqb_refl. exact IH.
Qed.

(** C9: decoding the token that [encodeCursor] gives for a cursor yields
    that cursor, equal in every field; in particular a cursor whose
    [DefinitionUploadIDs] is nil (not computed yet) comes back with nil, a
    cursor whose [DefinitionUploadIDs] is an allocated empty slice comes back
    with the empty slice, and the two cursors have different tokens. *)
Theorem decodeCursor_encodeCursor (c : referencesCursor) :
  Codec.decodeCursor (Codec.encodeCursor c) = inr c
  /\ (forall c', Codec.decodeCursor (Codec.encodeCursor c) = inr c' ->
        DefinitionUploadIDs c' = DefinitionUploadIDs c)
  /\ Codec.decodeCursor (Codec.encodeCursor (setDefinitionUploadIDs None c))
     <> Codec.decodeCursor (Codec.encodeCursor (setDefinitionUploadIDs (Some []) c)).
Proof.
  assert (Hrt : forall c0, Codec.decodeCursor (Codec.encodeCursor c0) = inr c0).
  { intros c0. unfold Codec.encodeCursor.
    change (Codec.decodeCursor (Codec.schemaVersion +:+ Codec.encFields c0))
      with (match Codec.dropPrefix Codec.schemaVersion
                    (Codec.schemaVersion +:+ Codec.encFields c0) with
            | None => inl Codec.ErrMalformedCursor
            | Some body =>
                match Codec.decFields body with
                | Some (c1, EmptyString) => inr c1
                | _ => inl Codec.ErrMalformedCursor
                end
            end).
    rewrite dropPrefix_app.
    rewrite <- (string_app_nil_r (Codec.encFields c0)), decFields_roundtrips.
    reflexivity. }
  split; [apply Hrt|]. split.
  - intros c' Hc'. rewrite Hrt in Hc'. injection Hc' as <-. reflexivity.
  - rewrite !Hrt. intros Heq. injection Heq as Heq. discriminate Heq.
Qed.

(** ** What the scan selects, and that acquisition ends *)

(** The indexes [uploadIDsWithReferences] returns are those with a consumed
    record that is outside the set the loop consults and whose bloom filter
    tests positive; the set consulted holds the positions of [ignoreIDs]. *)
Lemma uploadIDsWithReferences_selection {AdjustedLocation} bloomfilter_Decode
    (r : queryResolver AdjustedLocation) orderedMonikers ignoreIDs limit offset
    scanner totalCount ids recordsScanned totalCount' :
  DBStore.ReferenceIDsAndFilters (dbStore r) (repositoryID r) (commit r)
    orderedMonikers limit offset = inr (scanner, totalCount) ->
  GoInt.len (scanEvents scanner) <= GoInt.max_int ->
  uploadIDsWithReferences bloomfilter_Decode r orderedMonikers ignoreIDs limit offset
    = Ok (ids, recordsScanned, totalCount') ->
  exists consumed rest,
    scanEvents scanner = (ScanRecord <$> consumed) ++ rest
    /\ recordsScanned = GoInt.len consumed
    /\ (rest = [] \/ limit <= GoInt.len ids)
    /\ forall id,
         id ∈ ids <->
         exists rec, rec ∈ consumed /\ dbstore.DumpID rec = id
           /\ ~ (0 <= id < GoInt.len ignoreIDs)
           /\ testFilter bloomfilter_Decode (dbstore.Filter rec) orderedMonikers = Ok true.
Proof.
  intros Hstore Hmax Hscan.
  apply uploadIDsWithReferences_Ok in Hscan
    as (scanner' & filtered & Hstore' & _ & Hloop & ->).
  rewrite Hstore in Hstore'. injection Hstore' as <- <-.
  apply uploadIDsWithReferences_loop_spec in Hloop
    as (consumed & rest & Hevents & Hcount & Hstop & _ & Hsel & Hall);
    [|unfold GoInt.min_int; lia|lia].
  exists consumed, rest. split; [exact Hevents|]. split; [lia|]. split.
  - destruct Hstop as [?|Hlim]; [left; assumption|right].
    unfold GoInt.len. rewrite (Permutation_length (sort_Ints_Permutation _)).
    exact Hlim.
  - intros id. rewrite sort_Ints_Permutation, elem_of_elements. split.
    + intros Hid. destruct (Hsel id Hid) as [Hempty|(rec & Hrec & Hid' & Hign & Htest)].
      * apply elem_of_empty in Hempty. contradiction.
      * exists rec. rewrite ignoreIDsMap_indexes in Hign. auto.
    + intros (rec & Hrec & <- & Hign & Htest).
      apply Hall; [exact Hrec| |exact Htest].
      rewrite ignoreIDsMap_indexes. exact Hign.
Qed.

(** One turn of the acquisition loop, spelled out. *)
Lemma pageRemoteReferences_batches_unfold {AdjustedLocation} bloomfilter_Decode
    (r : queryResolver AdjustedLocation) orderedMonikers definitionUploadIDs fuel
    (s : state) :
  pageRemoteReferences_batches bloomfilter_Decode r (S fuel) orderedMonikers
    definitionUploadIDs s
  = if GoInt.len (elems (BatchIDs (cursor s))) =? 0 then
      if RemoteBatchOffset (cursor s) <? 0 then (Ok false, s)
      else
        match uploadIDsWithReferences bloomfilter_Decode r orderedMonikers
                definitionUploadIDs maximumIndexesPerMonikerSearch
                (RemoteBatchOffset (cursor s)) with
        | Ok (ids, n, total) =>
            pageRemoteReferences_batches bloomfilter_Decode r fuel orderedMonikers
              definitionUploadIDs
              {| cursor := afterScan (cursor s) ids n total;
                 uploadCache := uploadCache s |}
        | Err e => (Err e, s)
        | Panic => (Panic, s)
        | OutOfFuel => (OutOfFuel, s)
        end
    else (Ok true, s).
Proof.
  cbn [pageRemoteReferences_batches].
  unfold mbind at 1. unfold M_bind at 1. unfold getCursor at 1.
  destruct (GoInt.len (elems (BatchIDs (cursor s))) =? 0); [|reflexivity].
  destruct (RemoteBatchOffset (cursor s) <? 0); [reflexivity|].
  unfold mbind at 1. unfold M_bind at 1. unfold liftResult at 1.
  destruct (uploadIDsWithReferences _ _ _ _ _ _) as [[[ids n] total]| | |];
    try reflexivity.
  unfold mbind at 1. unfold M_bind at 1. unfold modifyCursor at 1.
  unfold mbind at 1. unfold M_bind at 1. unfold modifyCursor at 1.
  unfold mbind at 1. unfold M_bind at 1. unfold getCursor at 1.
  unfold mbind at 1. unfold M_bind at 1. unfold when, afterScan.
  cbn [cursor uploadCache setRemoteBatchOffset setBatchIDs RemoteBatchOffset].
  destruct (GoInt.add (RemoteBatchOffset (cursor s)) n >=? total); reflexivity.
Qed.

Lemma pageRemoteReferences_batches_zero {AdjustedLocation} bloomfilter_Decode
    (r : queryResolver AdjustedLocation) orderedMonikers definitionUploadIDs
    (s : state) :
  pageRemoteReferences_batches bloomfilter_Decode r 0 orderedMonikers
    definitionUploadIDs s
  = if GoInt.len (elems (BatchIDs (cursor s))) =? 0 then
      if RemoteBatchOffset (cursor s) <? 0 then (Ok false, s) else (OutOfFuel, s)
    else (Ok true, s).
Proof.
  cbn [pageRemoteReferences_batches].
  unfold mbind at 1. unfold M_bind at 1. unfold getCursor at 1.
  destruct (GoInt.len (elems (BatchIDs (cursor s))) =? 0); [|reflexivity].
  destruct (RemoteBatchOffset (cursor s) <? 0); reflexivity.
Qed.

(** More fuel does not change what the acquisition loop answers. *)
Lemma pageRemoteReferences_batches_fuel {AdjustedLocation} bloomfilter_Decode
    (r : queryResolver AdjustedLocation) orderedMonikers definitionUploadIDs fuel :
  forall (s s' : state) res,
    pageRemoteReferences_batches bloomfilter_Decode r fuel orderedMonikers
      definitionUploadIDs s = (res, s') ->
    res <> OutOfFuel ->
    pageRemoteReferences_batches bloomfilter_Decode r (S fuel) orderedMonikers
      definitionUploadIDs s = (res, s').
Proof.
  induction fuel as [|fuel IH]; intros s s' res H Hres;
    rewrite pageRemoteReferences_batches_unfold.
  - rewrite pageRemoteReferences_batches_zero in H.
    destruct (GoInt.len (elems (BatchIDs (cursor s))) =? 0); [|exact H].
    destruct (RemoteBatchOffset (cursor s) <? 0); [exact H|].
    injection H as <- <-. contradiction.
  - rewrite pageRemoteReferences_batches_unfold in H.
    destruct (GoInt.len (elems (BatchIDs (cursor s))) =? 0); [|exact H].
    destruct (RemoteBatchOffset (cursor s) <? 0); [exact H|].
    destruct (uploadIDsWithReferences _ _ _ _ _ _) as [[[ids n] total]| | |];
      try exact H.
    apply IH; assumption.
Qed.

Lemma pageRemoteReferences_batches_exhausted {AdjustedLocation} bloomfilter_Decode
    (r : queryResolver AdjustedLocation) orderedMonikers definitionUploadIDs fuel
    (s : state) :
  RemoteBatchOffset (cursor s) < 0 ->
  exists batch,
    pageRemoteReferences_batches bloomfilter_Decode r fuel orderedMonikers
      definitionUploadIDs s = (Ok batch, s).
Proof.
  intros Hneg.
  destruct fuel;
    [rewrite pageRemoteReferences_batches_zero|rewrite pageRemoteReferences_batches_unfold];
    destruct (GoInt.len (elems (BatchIDs (cursor s))) =? 0); try (eexists; reflexivity);
    destruct (Z.ltb_spec (RemoteBatchOffset (cursor s)) 0); try lia; eexists; reflexivity.
Qed.

(** Batch acquisition ends: if every scan from a non-negative offset
    succeeds, reports the same total, and consumes at least one record while
    the offset is below that total, then a fuel above the distance to the
    total suffices and the loop answers. *)
Lemma pageRemoteReferences_batches_terminates {AdjustedLocation} bloomfilter_Decode
    (r : queryResolver AdjustedLocation) orderedMonikers definitionUploadIDs total :
  (forall offset, 0 <= offset ->
     exists ids n,
       uploadIDsWithReferences bloomfilter_Decode r orderedMonikers definitionUploadIDs
         maximumIndexesPerMonikerSearch offset = Ok (ids, n, total)
       /\ 0 <= n /\ (offset < total -> 1 <= n) /\ offset + n <= GoInt.max_int) ->
  forall fuel (s : state),
    Z.max 0 (total - RemoteBatchOffset (cursor s)) < Z.of_nat fuel ->
    exists batch s',
      pageRemoteReferences_batches bloomfilter_Decode r fuel orderedMonikers
        definitionUploadIDs s = (Ok batch, s').
Proof.
  intros Hstore. induction fuel as [|fuel IH]; intros s Hfuel; [lia|].
  rewrite pageRemoteReferences_batches_unfold.
  destruct (GoInt.len (elems (BatchIDs (cursor s))) =? 0); [|eexists _, _; reflexivity].
  destruct (Z.ltb_spec (RemoteBatchOffset (cursor s)) 0) as [Hneg|Hoff];
    [eexists _, _; reflexivity|].
  destruct (Hstore _ Hoff) as (ids & n & Hscan & Hn & Hprog & Hmax).
  rewrite Hscan.
  assert (Hafter : RemoteBatchOffset (afterScan (cursor s) ids n total)
                   = if total <=? RemoteBatchOffset (cursor s) + n then -1
                     else RemoteBatchOffset (cursor s) + n).
  { unfold afterScan; cbn.
    rewrite GoInt_add_exact by (unfold GoInt.in_range, GoInt.min_int; lia).
    rewrite Z.geb_leb. reflexivity. }
  destruct (Z.leb_spec total (RemoteBatchOffset (cursor s) + n)) as [Hend|Hmore].
  - edestruct (pageRemoteReferences_batches_exhausted bloomfilter_Decode r orderedMonikers
                 definitionUploadIDs fuel) as [batch Hb]; [|eexists _, _; exact Hb].
    cbn [cursor]. rewrite Hafter. lia.
  - apply IH. cbn [cursor]. rewrite Hafter. lia.
Qed.

(** The rest of the codec's contract: the empty token starts a request in
    phase local, no cursor encodes to the empty token, and a token of another
    schema version is rejected. *)
Lemma decodeCursor_empty :
  Codec.decodeCursor "" = inr Codec.zeroCursor /\ Phase Codec.zeroCursor = "local".
Proof. split; reflexivity. Qed.

Lemma encodeCursor_not_empty (c : referencesCursor) : Codec.encodeCursor c <> "".
Proof. unfold Codec.encodeCursor, Codec.schemaVersion. rewrite string_app_cons. discriminate. Qed.

Lemma decodeCursor_version_mismatch (token : string) :
  token <> "" ->
  Codec.dropPrefix Codec.schemaVersion token = None ->
  Codec.decodeCursor token = inl Codec.ErrMalformedCursor.
Proof.
  intros Hne Hver. unfold Codec.decodeCursor.
  destruct token as [|a token]; [contradiction|]. rewrite Hver. reflexivity.
Qed.

Example decodeCursor_rejects_other_version :
  Codec.decodeCursor "v0;NNN+10.localzzzNz" = inl Codec.ErrMalformedCursor.
Proof. reflexivity. Qed.

Example decodeCursor_rejects_truncated :
  Codec.decodeCursor "v1;NNN+10.loc" = inl Codec.ErrMalformedCursor.
Proof. reflexivity. Qed.

(** * Further properties of the resolver *)

(** ** Testing a bloom filter *)

Lemma testFilter_loop_spec includesIdentifier orderedMonikers :
  testFilter_loop includesIdentifier orderedMonikers = true <->
  exists moniker, moniker ∈ orderedMonikers
    /\ includesIdentifier (precise.Identifier moniker) = true.
Proof.
  induction orderedMonikers as [|m rest IH]; cbn.
  - split; [discriminate|]. intros (m & Hm & _). inversion Hm.
  - destruct (includesIdentifier (precise.Identifier m)) eqn:Hinc.
    + split; [|reflexivity]. intros _. exists m. split; [left|exact Hinc].
    + rewrite IH. split.
      * intros (m' & Hm' & H'). exists m'. split; [right; exact Hm'|exact H'].
      * intros (m' & Hm' & H'). apply elem_of_cons in Hm' as [->|Hm']; [congruence|eauto].
Qed.

(** X1: [testFilter] answers true exactly when the filter decodes and some
    ordered moniker's identifier tests positive, whatever the moniker's
    position; it fails exactly when the filter does not decode, with the
    decoder's error wrapped as [bloomfilter.Decode]; it never panics. *)
Theorem testFilter_spec bloomfilter_Decode filter orderedMonikers :
  (testFilter bloomfilter_Decode filter orderedMonikers = Ok true <->
     exists includesIdentifier,
       bloomfilter_Decode filter = inr includesIdentifier
       /\ exists moniker, moniker ∈ orderedMonikers
            /\ includesIdentifier (precise.Identifier moniker) = true)
  /\ (forall e,
        testFilter bloomfilter_Decode filter orderedMonikers = Err e <->
        exists cause, bloomfilter_Decode filter = inl cause
                      /\ e = ErrWrap cause "bloomfilter.Decode")
  /\ ((exists b, testFilter bloomfilter_Decode filter orderedMonikers = Ok b)
      \/ (exists e, testFilter bloomfilter_Decode filter orderedMonikers = Err e)).
Proof.
  unfold testFilter. destruct (bloomfilter_Decode filter) as [cause|includes].
  - split; [|split].
    + split; [discriminate|]. intros (? & ? & _). discriminate.
    + intros e. split.
      * intros H. injection H as <-. eauto.
      * intros (c & Hc & ->). injection Hc as <-. reflexivity.
    + right. eauto.
  - split; [|split].
    + split.
      * intros H. injection H as H. apply testFilter_loop_spec in H. eauto.
      * intros (inc & Hinc & H). injection Hinc as <-.
        apply testFilter_loop_spec in H. rewrite H. reflexivity.
    + intros e. split; [discriminate|]. intros (c & Hc & _). discriminate.
    + left. eauto.
Qed.

Lemma testFilter_outcome bloomfilter_Decode filter orderedMonikers :
  (exists b, testFilter bloomfilter_Decode filter orderedMonikers = Ok b)
  \/ (exists cause,
        testFilter bloomfilter_Decode filter orderedMonikers
        = Err (ErrWrap cause "bloomfilter.Decode")).
Proof.
  unfold testFilter. destruct (bloomfilter_Decode filter); [right|left]; eauto.
Qed.

(** ** The size of a batch *)

Lemma uploadIDsWithReferences_loop_limit bloomfilter_Decode orderedMonikers ignored limit events :
  forall filtered n filtered' n',
    uploadIDsWithReferences_loop bloomfilter_Decode orderedMonikers ignored limit events
      filtered n = Ok (filtered', n') ->
    Z.of_nat (size filtered') <= Z.max (Z.of_nat (size filtered)) limit.
Proof.
  induction events as [|ev events IH]; intros filtered n filtered' n' H;
    cbn [uploadIDsWithReferences_loop] in H;
    destruct (Z.ltb_spec (Z.of_nat (size filtered)) limit) as [Hlt|Hge];
    try (injection H as <- <-; lia).
  destruct ev as [rec|err]; [|discriminate].
  destruct (decide (dbstore.DumpID rec ∈ filtered)) as [Hin|Hnin];
    [apply IH in H; lia|].
  destruct (decide (dbstore.DumpID rec ∈ ignored)); [apply IH in H; lia|].
  destruct (testFilter _ _ _) as [[|]| | |]; try discriminate;
    [|apply IH in H; lia].
  apply IH in H.
  rewrite size_union, size_singleton in H by (apply disjoint_singleton_l; assumption). lia.
Qed.

Lemma uploadIDsWithReferences_loop_growth bloomfilter_Decode orderedMonikers ignored limit events :
  forall filtered n filtered' n',
    uploadIDsWithReferences_loop bloomfilter_Decode orderedMonikers ignored limit events
      filtered n = Ok (filtered', n') ->
    GoInt.min_int <= n ->
    n + GoInt.len events <= GoInt.max_int ->
    Z.of_nat (size filtered') - Z.of_nat (size filtered) <= n' - n
    /\ n' - n <= GoInt.len events.
Proof.
  induction events as [|ev events IH]; intros filtered n filtered' n' H Hmin Hmax;
    cbn [uploadIDsWithReferences_loop] in H.
  - destruct (_ <? _); injection H as <- <-; unfold GoInt.len; cbn; lia.
  - rewrite GoInt_len_cons in *. pose proof (GoInt_len_nonneg events).
    destruct (Z.ltb_spec (Z.of_nat (size filtered)) limit) as [Hlt|Hge];
      [|injection H as <- <-; lia].
    destruct ev as [rec|err]; [|discriminate].
    rewrite GoInt_add_exact in H by (unfold GoInt.in_range; lia).
    destruct (decide (dbstore.DumpID rec ∈ filtered)) as [Hin|Hnin];
      [apply IH in H; lia|].
    destruct (decide (dbstore.DumpID rec ∈ ignored)); [apply IH in H; lia|].
    destruct (testFilter _ _ _) as [[|]| | |]; try discriminate;
      [|apply IH in H; lia].
    apply IH in H; [|lia|lia].
    rewrite size_union, size_singleton in H by (apply disjoint_singleton_l; assumption). lia.
Qed.

(** X2: a batch returned by [uploadIDsWithReferences] never holds more
    index IDs than [limit], and never more than the records scanned, which
    are never more than the records the scanner holds. *)
Theorem uploadIDsWithReferences_batch_bounds {AdjustedLocation} bloomfilter_Decode
    (r : queryResolver AdjustedLocation) orderedMonikers ignoreIDs limit offset
    scanner totalCount ids recordsScanned totalCount' :
  DBStore.ReferenceIDsAndFilters (dbStore r) (repositoryID r) (commit r)
    orderedMonikers limit offset = inr (scanner, totalCount) ->
  GoInt.len (scanEvents scanner) <= GoInt.max_int ->
  uploadIDsWithReferences bloomfilter_Decode r orderedMonikers ignoreIDs limit offset
    = Ok (ids, recordsScanned, totalCount') ->
  GoInt.len ids <= Z.max 0 limit
  /\ GoInt.len ids <= recordsScanned
  /\ recordsScanned <= GoInt.len (scanEvents scanner).
Proof.
  intros Hstore Hmax Hscan.
  apply uploadIDsWithReferences_Ok in Hscan
    as (scanner' & filtered & Hstore' & _ & Hloop & ->).
  rewrite Hstore in Hstore'. injection Hstore' as <- <-.
  assert (Hlen : GoInt.len (sort_Ints (elements filtered)) = Z.of_nat (size filtered)).
  { unfold GoInt.len. rewrite (Permutation_length (sort_Ints_Permutation _)). reflexivity. }
  rewrite Hlen.
  pose proof (uploadIDsWithReferences_loop_limit _ _ _ _ _ _ _ _ _ Hloop) as Hlim.
  apply uploadIDsWithReferences_loop_growth in Hloop;
    [|unfold GoInt.min_int; lia|lia].
  rewrite size_empty in *. lia.
Qed.

Lemma uploadIDsWithReferences_batch_bounds_witness :
  GoInt.len [1; 42] <= Z.max 0 50
  /\ GoInt.len [1; 42] <= 3
  /\ 3 <= GoInt.len Fixture.candidates.
Proof.
  apply (uploadIDsWithReferences_batch_bounds Fixture.decode Fixture.resolver
           [Fixture.foo] [] 50 0
           {| scanEvents := Fixture.candidates; scanClose := None |} 3 [1; 42] 3 3).
  - vm_compute. reflexivity.
  - vm_compute. discriminate.
  - vm_compute. reflexivity.
Defined.

(** ** Errors of the candidate scan *)

(** The scan loop ends well or with a wrapped error of [scanner.Next] or of
    the bloom filter decoder. *)
Lemma uploadIDsWithReferences_loop_outcome bloomfilter_Decode orderedMonikers ignored limit events :
  forall filtered n,
    (exists x,
        uploadIDsWithReferences_loop bloomfilter_Decode orderedMonikers ignored limit
          events filtered n = Ok x)
    \/ (exists cause op,
          uploadIDsWithReferences_loop bloomfilter_Decode orderedMonikers ignored limit
            events filtered n = Err (ErrWrap cause op)
          /\ (op = "dbstore.ReferenceIDsAndFilters.Next"%string
              \/ op = "bloomfilter.Decode"%string)).
Proof.
  induction events as [|ev events IH]; intros filtered n;
    cbn [uploadIDsWithReferences_loop]; destruct (_ <? _); try (left; eauto; fail).
  destruct ev as [rec|err]; [|right; eauto].
  destruct (decide (dbstore.DumpID rec ∈ filtered)); [apply IH|].
  destruct (decide (dbstore.DumpID rec ∈ ignored)); [apply IH|].
  destruct (testFilter_outcome bloomfilter_Decode (dbstore.Filter rec) orderedMonikers)
    as [[b Hb]|[cause He]]; rewrite ?Hb, ?He.
  - destruct b; apply IH.
  - right. eauto.
Qed.

(** How the scan loop fails: after records read without failure that left
    the batch short of its limit, at the scanner's failure or at the first
    record to test whose bloom filter does not decode. *)
Lemma uploadIDsWithReferences_loop_failure bloomfilter_Decode orderedMonikers ignored limit events :
  forall filtered n e,
    uploadIDsWithReferences_loop bloomfilter_Decode orderedMonikers ignored limit events
      filtered n = Err e ->
    exists consumed rest,
      Z.of_nat (size (filtered
                      ∪ selected bloomfilter_Decode orderedMonikers ignored consumed))
      < limit
      /\ (forall before packageReference after,
            consumed = before ++ packageReference :: after ->
            dbstore.DumpID packageReference
              ∉ filtered ∪ selected bloomfilter_Decode orderedMonikers ignored before ->
            dbstore.DumpID packageReference ∉ ignored ->
            exists includesIdentifier,
              bloomfilter_Decode (dbstore.Filter packageReference)
              = inr includesIdentifier)
      /\ ((exists cause,
             events = (ScanRecord <$> consumed) ++ ScanError cause :: rest
             /\ e = ErrWrap cause "dbstore.ReferenceIDsAndFilters.Next")
          \/ (exists packageReference cause,
                events = (ScanRecord <$> consumed) ++ ScanRecord packageReference :: rest
                /\ (dbstore.DumpID packageReference
                     ∉ filtered
                       ∪ selected bloomfilter_Decode orderedMonikers ignored consumed)
                /\ (dbstore.DumpID packageReference ∉ ignored)
                /\ bloomfilter_Decode (dbstore.Filter packageReference) = inl cause
                /\ e = ErrWrap cause "bloomfilter.Decode")).
Proof.
  assert (Hid : forall X : gset Z, X ∪ ∅ = X) by (intros X; apply (right_id_L ∅ (∪))).
  induction events as [|ev events IH]; intros filtered n e H;
    cbn [uploadIDsWithReferences_loop] in H.
  { destruct (_ <? _); discriminate. }
  destruct (Z.ltb_spec (Z.of_nat (size filtered)) limit) as [Hlt|Hge]; [|discriminate].
  destruct ev as [rec|err].
  2: { injection H as <-. exists [], events. cbn [selected fmap list_fmap app].
       rewrite Hid. split; [exact Hlt|]. split.
       - intros before ? ? Heq. destruct before; discriminate.
       - left. eauto. }
  assert (Hstep : forall f m,
    uploadIDsWithReferences_loop bloomfilter_Decode orderedMonikers ignored limit events
      f m = Err e ->
    f = filtered ∪ selectedBy bloomfilter_Decode orderedMonikers ignored rec ->
    (dbstore.DumpID rec ∉ filtered -> dbstore.DumpID rec ∉ ignored ->
     exists includesIdentifier,
       bloomfilter_Decode (dbstore.Filter rec) = inr includesIdentifier) ->
    exists consumed rest,
      Z.of_nat (size (filtered
                      ∪ selected bloomfilter_Decode orderedMonikers ignored consumed))
      < limit
      /\ (forall before packageReference after,
            consumed = before ++ packageReference :: after ->
            dbstore.DumpID packageReference
              ∉ filtered ∪ selected bloomfilter_Decode orderedMonikers ignored before ->
            dbstore.DumpID packageReference ∉ ignored ->
            exists includesIdentifier,
              bloomfilter_Decode (dbstore.Filter packageReference)
              = inr includesIdentifier)
      /\ ((exists cause,
             ScanRecord rec :: events
             = (ScanRecord <$> consumed) ++ ScanError cause :: rest
             /\ e = ErrWrap cause "dbstore.ReferenceIDsAndFilters.Next")
          \/ (exists packageReference cause,
                ScanRecord rec :: events
                = (ScanRecord <$> consumed) ++ ScanRecord packageReference :: rest
                /\ (dbstore.DumpID packageReference
                     ∉ filtered
                       ∪ selected bloomfilter_Decode orderedMonikers ignored consumed)
                /\ (dbstore.DumpID packageReference ∉ ignored)
                /\ bloomfilter_Decode (dbstore.Filter packageReference) = inl cause
                /\ e = ErrWrap cause "bloomfilter.Decode"))).
  { intros f m Hf Heq Hclean.
    apply IH in Hf as (consumed & rest & Hsize & Hcl & Hcase).
    exists (rec :: consumed), rest. cbn [selected].
    rewrite (assoc_L (∪)), <- Heq. split; [exact Hsize|]. split.
    - intros before rec' after Hsplit Hnsel Hnign.
      destruct before as [|b before]; cbn [app] in Hsplit; injection Hsplit as <- ->.
      + cbn [selected] in Hnsel. rewrite Hid in Hnsel. apply Hclean; assumption.
      + cbn [selected] in Hnsel. rewrite (assoc_L (∪)), <- Heq in Hnsel.
        eapply Hcl; [reflexivity|exact Hnsel|exact Hnign].
    - destruct Hcase as [(cause & -> & ->)|(rec' & cause & -> & Hn1 & Hn2 & Hd & ->)].
      + left. exists cause. split; reflexivity.
      + right. exists rec', cause. repeat split; assumption. }
  destruct (decide (dbstore.DumpID rec ∈ filtered)) as [Hin|Hnin].
  { apply (Hstep _ _ H); [|intros; contradiction].
    apply set_eq. intros id. rewrite elem_of_union.
    pose proof (selectedBy_subseteq bloomfilter_Decode orderedMonikers ignored rec id)
      as Hsub.
    rewrite elem_of_singleton in Hsub. split; [auto|].
    intros [?|Hid']; [assumption|]. rewrite (Hsub Hid'). exact Hin. }
  destruct (decide (dbstore.DumpID rec ∈ ignored)) as [Hign|Hnign].
  { apply (Hstep _ _ H); [|intros; contradiction].
    unfold selectedBy. rewrite decide_True by assumption. rewrite Hid. reflexivity. }
  destruct (testFilter bloomfilter_Decode (dbstore.Filter rec) orderedMonikers)
    as [[|]|e0| |] eqn:Htest; try discriminate.
  - apply (Hstep _ _ H).
    + unfold selectedBy. rewrite decide_False by assumption.
      rewrite Htest. apply (comm_L (∪)).
    + intros _ _. unfold testFilter in Htest.
      destruct (bloomfilter_Decode (dbstore.Filter rec)); [discriminate|eauto].
  - apply (Hstep _ _ H).
    + unfold selectedBy. rewrite decide_False by assumption.
      rewrite Htest, Hid. reflexivity.
    + intros _ _. unfold testFilter in Htest.
      destruct (bloomfilter_Decode (dbstore.Filter rec)); [discriminate|eauto].
  - injection H as <-. unfold testFilter in Htest.
    destruct (bloomfilter_Decode (dbstore.Filter rec)) as [cause|inc] eqn:Hd;
      [|discriminate].
    injection Htest as <-. exists [], events. cbn [selected fmap list_fmap app].
    rewrite Hid. split; [exact Hlt|]. split.
    + intros before ? ? Heq. destruct before; discriminate.
    + right. exists rec, cause. repeat split; assumption.
Qed.

Lemma uploadIDsWithReferences_outcome {AdjustedLocation} bloomfilter_Decode
    (r : queryResolver AdjustedLocation) orderedMonikers ignoreIDs limit offset :
  (exists x,
      uploadIDsWithReferences bloomfilter_Decode r orderedMonikers ignoreIDs limit offset
      = Ok x)
  \/ (exists e,
        uploadIDsWithReferences bloomfilter_Decode r orderedMonikers ignoreIDs limit offset
        = Err e
        /\ candidateScanError bloomfilter_Decode orderedMonikers ignoreIDs limit
             (DBStore.ReferenceIDsAndFilters (dbStore r) (repositoryID r) (commit r)
                orderedMonikers limit offset) e).
Proof.
  assert (Hid : forall X : gset Z, ∅ ∪ X = X) by (intros X; apply (left_id_L ∅ (∪))).
  unfold uploadIDsWithReferences, candidateScanError.
  destruct (DBStore.ReferenceIDsAndFilters _ _ _ _ _ _) as [err|[scanner total]].
  { right. eexists. split; reflexivity. }
  destruct (uploadIDsWithReferences_loop bloomfilter_Decode orderedMonikers
              (ignoreIDsMap ignoreIDs) limit (scanEvents scanner) ∅ 0)
    as [[filtered n]|e0| |] eqn:Hloop.
  - destruct (scanClose scanner) as [closeErr|] eqn:Hclose; cbn.
    + right. eexists. split; [reflexivity|]. right. exists closeErr, (filtered, n). auto.
    + left. eauto.
  - assert (Hfails : scanFailsWith bloomfilter_Decode orderedMonikers
                       (ignoreIDsMap ignoreIDs) limit (scanEvents scanner) e0).
    { apply uploadIDsWithReferences_loop_failure in Hloop
        as (consumed & rest & Hsize & Hclean & Hcase).
      exists consumed, rest. rewrite Hid in Hsize. split; [exact Hsize|]. split.
      - intros before rec after Hsplit Hnsel Hnign.
        eapply Hclean; [exact Hsplit|rewrite Hid; exact Hnsel|exact Hnign].
      - destruct Hcase as [Hnext|(rec & cause & He & Hnsel & Hrest)]; [left; exact Hnext|].
        right. exists rec, cause. rewrite Hid in Hnsel. auto. }
    right. destruct (scanClose scanner) as [closeErr|]; cbn.
    + eexists. split; [reflexivity|]. left. exists e0. auto.
    + eexists. split; [reflexivity|]. left. exists e0. auto.
  - destruct (uploadIDsWithReferences_loop_outcome bloomfilter_Decode orderedMonikers
                (ignoreIDsMap ignoreIDs) limit (scanEvents scanner) ∅ 0)
      as [[x Hx]|(cause & op & Hx & _)]; congruence.
  - destruct (uploadIDsWithReferences_loop_outcome bloomfilter_Decode orderedMonikers
                (ignoreIDsMap ignoreIDs) limit (scanEvents scanner) ∅ 0)
      as [[x Hx]|(cause & op & Hx & _)]; congruence.
Qed.

(** X3: [uploadIDsWithReferences] returns or fails, and an error it fails
    with is that of the operation that failed, under that operation's name:
    the store's error wrapped as [dbstore.ReferenceIDsAndFilters] when the
    scan does not open; otherwise the scanner's error wrapped as
    [dbstore.ReferenceIDsAndFilters.Next], or the decoder's error on the
    first tested record whose bloom filter does not decode wrapped as
    [bloomfilter.Decode], after records read without failure that left the
    batch short of its limit; and the close error wrapped as
    [dbstore.ReferenceIDsAndFilters.Close], last in a combined error, when
    the scanner does not close. *)
Theorem uploadIDsWithReferences_errors_named {AdjustedLocation} bloomfilter_Decode
    (r : queryResolver AdjustedLocation) orderedMonikers ignoreIDs limit offset :
  (exists x,
      uploadIDsWithReferences bloomfilter_Decode r orderedMonikers ignoreIDs limit offset
      = Ok x)
  \/ (exists e,
        uploadIDsWithReferences bloomfilter_Decode r orderedMonikers ignoreIDs limit offset
        = Err e
        /\ candidateScanError bloomfilter_Decode orderedMonikers ignoreIDs limit
             (DBStore.ReferenceIDsAndFilters (dbStore r) (repositoryID r) (commit r)
                orderedMonikers limit offset) e).
Proof. apply uploadIDsWithReferences_outcome. Qed.

(** X4: when the scanner fails to close, [uploadIDsWithReferences] fails
    even if every record was read, and the close error, wrapped as
    [dbstore.ReferenceIDsAndFilters.Close], comes last in a combined error,
    after the error the scan was already failing with, if any: neither error
    is dropped. *)
Theorem uploadIDsWithReferences_close_failure {AdjustedLocation} bloomfilter_Decode
    (r : queryResolver AdjustedLocation) orderedMonikers ignoreIDs limit offset
    scanner totalCount closeErr :
  DBStore.ReferenceIDsAndFilters (dbStore r) (repositoryID r) (commit r)
    orderedMonikers limit offset = inr (scanner, totalCount) ->
  scanClose scanner = Some closeErr ->
  exists inFlight,
    uploadIDsWithReferences bloomfilter_Decode r orderedMonikers ignoreIDs limit offset
    = Err (ErrMulti (inFlight ++ [ErrWrap closeErr "dbstore.ReferenceIDsAndFilters.Close"]))
    /\ ((inFlight = []
         /\ exists x,
              uploadIDsWithReferences_loop bloomfilter_Decode orderedMonikers
                (ignoreIDsMap ignoreIDs) limit (scanEvents scanner) ∅ 0 = Ok x)
        \/ (exists e,
              inFlight = [e]
              /\ uploadIDsWithReferences_loop bloomfilter_Decode orderedMonikers
                   (ignoreIDsMap ignoreIDs) limit (scanEvents scanner) ∅ 0 = Err e)).
Proof.
  intros Hstore Hclose. unfold uploadIDsWithReferences. rewrite Hstore, Hclose.
  destruct (uploadIDsWithReferences_loop_outcome bloomfilter_Decode orderedMonikers
              (ignoreIDsMap ignoreIDs) limit (scanEvents scanner) ∅ 0)
    as [[[filtered n] Hok]|(cause & op & Herr & _)].
  - rewrite Hok. exists []. split; [reflexivity|]. left. eauto.
  - rewrite Herr. eexists [_]. split; [reflexivity|]. right. eauto.
Qed.

Lemma uploadIDsWithReferences_close_failure_witness :
  exists inFlight,
    uploadIDsWithReferences Fixture.decode Faults.corruptFilter [Fixture.foo] [] 50 0
    = Err (ErrMulti
             (inFlight
              ++ [ErrWrap (ErrNew "connection reset")
                    "dbstore.ReferenceIDsAndFilters.Close"]))
    /\ ((inFlight = []
         /\ exists x,
              uploadIDsWithReferences_loop Fixture.decode [Fixture.foo] (ignoreIDsMap [])
                50 [Fixture.candidate 7 [Byte.x01]; Fixture.candidate 8 [Byte.x02]] ∅ 0
              = Ok x)
        \/ (exists e,
              inFlight = [e]
              /\ uploadIDsWithReferences_loop Fixture.decode [Fixture.foo]
                   (ignoreIDsMap []) 50
                   [Fixture.candidate 7 [Byte.x01]; Fixture.candidate 8 [Byte.x02]] ∅ 0
                 = Err e)).
Proof.
  exact (uploadIDsWithReferences_close_failure Fixture.decode Faults.corruptFilter
           [Fixture.foo] [] 50 0
           {| scanEvents :=
                [Fixture.candidate 7 [Byte.x01]; Fixture.candidate 8 [Byte.x02]];
              scanClose := Some (ErrNew "connection reset") |}
           2 (ErrNew "connection reset") eq_refl eq_refl).
Defined.

Example uploadIDsWithReferences_both_errors_kept :
  uploadIDsWithReferences Fixture.decode Faults.corruptFilter [Fixture.foo] [] 50 0
  = Err (ErrMulti
           [ ErrWrap (ErrNew "unexpected end of bloom filter") "bloomfilter.Decode";
             ErrWrap (ErrNew "connection reset") "dbstore.ReferenceIDsAndFilters.Close" ]).
Proof. vm_compute. reflexivity. Qed.

(** ** Data stashed in the cursor *)

Lemma filter_sublist_of {A} (f : A -> bool) (l : list A) : sublist (List.filter f l) l.
Proof.
  induction l as [|x l IH]; cbn; [constructor|].
  destruct (f x); [apply sublist_skip|apply sublist_cons]; exact IH.
Qed.

(** X5: on a cursor with no definition upload IDs yet,
    [definitionUploadIDsFromCursor] asks the resolver for the uploads that
    define the monikers and returns their IDs, in the order given, without
    those of the adjusted uploads; it stashes that slice, allocated even when
    empty, in the cursor and changes nothing else. *)
Theorem definitionUploadIDsFromCursor_fresh {AdjustedLocation}
    (r : queryResolver AdjustedLocation) adjustedUploads orderedMonikers
    (s s' : state) ids :
  DefinitionUploadIDs (cursor s) = None ->
  definitionUploadIDsFromCursor r adjustedUploads orderedMonikers s = (Ok ids, s') ->
  exists uploads,
    definitionUploads r orderedMonikers = inr uploads
    /\ sublist ids (dbstore.ID <$> uploads)
    /\ (forall id,
          id ∈ ids <->
          id ∈ (dbstore.ID <$> uploads)
          /\ ~ exists u, u ∈ adjustedUploads /\ dbstore.ID (Upload u) = id)
    /\ s' = {| cursor := setDefinitionUploadIDs (Some ids) (cursor s);
               uploadCache := uploadCache s |}.
Proof.
  intros Hnone H. unfold definitionUploadIDsFromCursor in H.
  unfold mbind at 1 in H. unfold M_bind at 1 in H. unfold getCursor at 1 in H.
  rewrite Hnone in H. inv_M H.
  eexists. split; [eassumption|].
  match goal with
  | |- context [List.filter ?f ?l] => set (keep := f); set (uploads := l)
  end.
  split; [|split; [|reflexivity]].
  - change (map dbstore.ID (List.filter keep uploads))
      with (dbstore.ID <$> List.filter keep uploads).
    apply fmap_sublist, filter_sublist_of.
  - intros id. rewrite list_elem_of_In, in_map_iff. split.
    + intros (d & <- & Hd). apply filter_In in Hd as [Hd Hkeep]. split.
      * apply list_elem_of_fmap. exists d. split; [reflexivity|]. apply list_elem_of_In, Hd.
      * intros (u & Hu & Hid). subst keep. cbn in Hkeep.
        apply Bool.negb_true_iff, Bool.not_true_iff_false in Hkeep. apply Hkeep.
        apply existsb_exists. exists u. split; [apply list_elem_of_In, Hu|].
        apply Z.eqb_eq. congruence.
    + intros [Hin Hnot]. apply list_elem_of_fmap in Hin as (d & -> & Hd).
      exists d. split; [reflexivity|]. apply filter_In. split; [apply list_elem_of_In, Hd|].
      subst keep. cbn. apply Bool.negb_true_iff, Bool.not_true_iff_false.
      intros Hex. apply existsb_exists in Hex as (u & Hu & Heq).
      apply Hnot. exists u. split; [apply list_elem_of_In, Hu|].
      apply Z.eqb_eq in Heq. congruence.
Qed.

Lemma definitionUploadIDsFromCursor_fresh_witness :
  exists uploads,
    definitionUploads Variants.defining [Fixture.foo] = inr uploads
    /\ sublist [42; 7] (dbstore.ID <$> uploads)
    /\ (forall id,
          id ∈ [42; 7] <->
          id ∈ (dbstore.ID <$> uploads)
          /\ ~ exists u, u ∈ [Fixture.visible] /\ dbstore.ID (Upload u) = id)
    /\ {| cursor := setDefinitionUploadIDs (Some [42; 7]) Codec.zeroCursor;
          uploadCache := Fixture.cache |}
       = {| cursor := setDefinitionUploadIDs (Some [42; 7]) (cursor Fixture.fresh);
            uploadCache := uploadCache Fixture.fresh |}.
Proof.
  apply (definitionUploadIDsFromCursor_fresh Variants.defining [Fixture.visible]
           [Fixture.foo] Fixture.fresh).
  - reflexivity.
  - vm_compute. reflexivity.
Defined.

(** X6: the definition upload IDs are computed once: after a call of
    [definitionUploadIDsFromCursor] that returned, any later call on the
    resulting cursor returns the same IDs and leaves the state as it is,
    whatever the resolver, the adjusted uploads and the monikers it is
    given. *)
Theorem definitionUploadIDsFromCursor_once {AdjustedLocation}
    (r : queryResolver AdjustedLocation) adjustedUploads orderedMonikers
    (s s' : state) ids :
  definitionUploadIDsFromCursor r adjustedUploads orderedMonikers s = (Ok ids, s') ->
  forall AdjustedLocation' (r' : queryResolver AdjustedLocation')
         adjustedUploads' orderedMonikers',
    definitionUploadIDsFromCursor r' adjustedUploads' orderedMonikers' s' = (Ok ids, s').
Proof.
  intros H AL r' aus om.
  assert (Hsome : DefinitionUploadIDs (cursor s') = Some ids).
  { destruct (DefinitionUploadIDs (cursor s)) as [cached|] eqn:Hc.
    - unfold definitionUploadIDsFromCursor in H.
      unfold mbind at 1 in H. unfold M_bind at 1 in H. unfold getCursor at 1 in H.
      rewrite Hc in H. inv_step H. exact Hc.
    - unfold definitionUploadIDsFromCursor in H.
      unfold mbind at 1 in H. unfold M_bind at 1 in H. unfold getCursor at 1 in H.
      rewrite Hc in H. inv_M H. reflexivity. }
  unfold definitionUploadIDsFromCursor, mbind, M_bind, getCursor.
  rewrite Hsome. reflexivity.
Qed.

Lemma definitionUploadIDsFromCursor_once_witness :
  definitionUploadIDsFromCursor Faults.stuck [] []
    {| cursor := setDefinitionUploadIDs (Some [42; 7]) Codec.zeroCursor;
       uploadCache := Fixture.cache |}
  = (Ok [42; 7],
     {| cursor := setDefinitionUploadIDs (Some [42; 7]) Codec.zeroCursor;
        uploadCache := Fixture.cache |}).
Proof.
  apply (definitionUploadIDsFromCursor_once Variants.defining [Fixture.visible]
           [Fixture.foo] Fixture.fresh).
  vm_compute. reflexivity.
Defined.

Lemma toAdjustedUpload_toCursorAdjustedUpload (u : adjustedUpload) :
  toAdjustedUpload (Upload u) (toCursorAdjustedUpload u) = u.
Proof. destruct u. reflexivity. Qed.

Lemma adjustedUploadsFromCursor_loop_stashed cache adjustedUploads :
  forall acc,
    (forall u, u ∈ adjustedUploads ->
       cache !! dbstore.ID (Upload u) = Some (Upload u)) ->
    adjustedUploadsFromCursor_loop cache (map toCursorAdjustedUpload adjustedUploads) acc
    = Ok (acc ++ adjustedUploads).
Proof.
  induction adjustedUploads as [|u rest IH]; intros acc Hcache; cbn.
  - rewrite app_nil_r. reflexivity.
  - rewrite (Hcache u) by left. rewrite toAdjustedUpload_toCursorAdjustedUpload.
    rewrite IH by (intros v Hv; apply Hcache; right; exact Hv).
    rewrite <- app_assoc. reflexivity.
Qed.

(** X7: on a cursor with no adjusted uploads yet, [adjustedUploadsFromCursor]
    returns what [adjustUploads] answers and stashes its cursor form; and if
    the upload cache holds each returned upload under its ID, any later call
    on the resulting cursor rebuilds exactly the same adjusted uploads, in
    the same order, whatever resolver and position it is given. *)
Theorem adjustedUploadsFromCursor_stash_hydrate {AdjustedLocation}
    (r : queryResolver AdjustedLocation) line character (s s' : state) adjustedUploads :
  AdjustedUploads (cursor s) = None ->
  adjustedUploadsFromCursor r line character s = (Ok adjustedUploads, s') ->
  (forall u, u ∈ adjustedUploads ->
     uploadCache s !! dbstore.ID (Upload u) = Some (Upload u)) ->
  adjustUploads r line character = inr adjustedUploads
  /\ s' = {| cursor :=
               setAdjustedUploads (Some (map toCursorAdjustedUpload adjustedUploads))
                 (cursor s);
             uploadCache := uploadCache s |}
  /\ forall AdjustedLocation' (r' : queryResolver AdjustedLocation') line' character',
       adjustedUploadsFromCursor r' line' character' s' = (Ok adjustedUploads, s').
Proof.
  intros Hnone H Hcache. unfold adjustedUploadsFromCursor in H.
  unfold mbind at 1 in H. unfold M_bind at 1 in H. unfold getCursor at 1 in H.
  rewrite Hnone in H. inv_M H.
  split; [assumption|]. split; [reflexivity|].
  intros AL r' line' character'.
  unfold adjustedUploadsFromCursor, mbind, M_bind, getCursor, getUploadCache, liftResult.
  cbn. rewrite adjustedUploadsFromCursor_loop_stashed by exact Hcache. reflexivity.
Qed.

Lemma adjustedUploadsFromCursor_stash_hydrate_witness :
  adjustUploads Fixture.resolver 10 4 = inr [Fixture.visible]
  /\ {| cursor := Variants.stashed; uploadCache := Fixture.cache |}
     = {| cursor :=
            setAdjustedUploads (Some (map toCursorAdjustedUpload [Fixture.visible]))
              (cursor Fixture.fresh);
          uploadCache := uploadCache Fixture.fresh |}
  /\ forall AdjustedLocation' (r' : queryResolver AdjustedLocation') line' character',
       adjustedUploadsFromCursor r' line' character'
         {| cursor := Variants.stashed; uploadCache := Fixture.cache |}
       = (Ok [Fixture.visible],
          {| cursor := Variants.stashed; uploadCache := Fixture.cache |}).
Proof.
  apply (adjustedUploadsFromCursor_stash_hydrate Fixture.resolver 10 4 Fixture.fresh).
  - reflexivity.
  - vm_compute. reflexivity.
  - intros u Hu. apply list_elem_of_singleton in Hu as ->. vm_compute. reflexivity.
Defined.

(** ** Pages of the local phase *)

Lemma pageLocalReferences_loop_page_size {AdjustedLocation}
    (r : queryResolver AdjustedLocation) ty limit uploads :
  honoursLimit (lsifStore r) ->
  GoInt.in_range limit ->
  forall acc (s s' : state) locations,
    pageLocalReferences_loop r ty uploads limit acc s = (Ok locations, s') ->
    GoInt.len acc <= Z.max 0 limit ->
    GoInt.len locations <= Z.max 0 limit.
Proof.
  intros Hstore Hlimit.
  induction uploads as [|u rest IH]; intros acc s s' locations Hloop Hacc;
    cbn [pageLocalReferences_loop] in Hloop.
  - inv_step Hloop. exact Hacc.
  - destruct (Z.geb_spec (GoInt.len acc) limit) as [Hfull|Hroom].
    + inv_step Hloop. exact Hacc.
    + pose proof (GoInt_len_nonneg acc) as Hnn.
      rewrite GoInt_sub_exact in Hloop
        by (unfold GoInt.in_range, GoInt.min_int, GoInt.max_int in *; lia).
      apply bind_Ok in Hloop as (c & s1 & Hc & Hloop). inv_step Hc.
      apply bind_Ok in Hloop as ([found totalCount] & s2 & Hfn & Hloop).
      inv_step Hfn.
      match goal with
      | Hcall : ?fn _ _ _ _ _ _ = inr (found, totalCount) |- _ =>
          assert (Hfound : GoInt.len found <= limit - GoInt.len acc)
            by (eapply Hstore; [|exact Hcall|lia];
                destruct (String.eqb ty "implementations"); auto)
      end.
      inv_M Hloop.
      match goal with
      | Hrest : pageLocalReferences_loop _ _ rest _ _ _ = _ |- _ =>
          apply IH in Hrest; [exact Hrest|]
      end.
      rewrite GoInt_len_app. lia.
Qed.

(** X8: if the symbol graph store never answers more locations than the
    limit it is asked for, a page of [pageLocalReferences] never holds more
    than [limit] locations, however many uploads it draws from. *)
Theorem pageLocalReferences_page_size {AdjustedLocation}
    (r : queryResolver AdjustedLocation) ty adjustedUploads limit
    (s s' : state) locations hasMore :
  honoursLimit (lsifStore r) ->
  GoInt.in_range limit ->
  pageLocalReferences r ty adjustedUploads limit s = (Ok (locations, hasMore), s') ->
  GoInt.len locations <= Z.max 0 limit.
Proof.
  intros Hstore Hlimit H. unfold pageLocalReferences in H.
  inv_M H. injection H as -> ->.
  eapply pageLocalReferences_loop_page_size; [exact Hstore|exact Hlimit|eassumption|].
  unfold GoInt.len; cbn. lia.
Qed.

Lemma Fixture_lsif_honoursLimit : honoursLimit Fixture.lsif.
Proof.
  intros fn id p line character limit offset found totalCount [-> | ->] H Hpos; cbn in H.
  - destruct (id =? 1); injection H as <- <-.
    + unfold Fixture.page, GoInt.len. rewrite length_take. lia.
    + unfold GoInt.len; cbn. lia.
  - injection H as <- <-. unfold GoInt.len; cbn. lia.
Qed.

Lemma pageLocalReferences_page_size_witness :
  GoInt.len (take 2 Fixture.localReferences) <= Z.max 0 2.
Proof.
  eapply (pageLocalReferences_page_size Fixture.resolver "references" [Fixture.visible] 2
            Fixture.fresh _ _ true).
  - exact Fixture_lsif_honoursLimit.
  - vm_compute. split; discriminate.
  - vm_compute. reflexivity.
Defined.

(** X9: with a limit that is not positive, or with every adjusted upload
    already drained, [pageLocalReferences] returns an empty page without
    calling the store or touching the cursor, and [hasMore] tells whether
    uploads remain. *)
Theorem pageLocalReferences_nothing_to_do {AdjustedLocation}
    (r : queryResolver AdjustedLocation) ty adjustedUploads limit (s : state) :
  0 <= LocalBatchOffset (cursor s) <= GoInt.len adjustedUploads ->
  limit <= 0 \/ LocalBatchOffset (cursor s) = GoInt.len adjustedUploads ->
  pageLocalReferences r ty adjustedUploads limit s
  = (Ok ([], LocalBatchOffset (cursor s) <? GoInt.len adjustedUploads), s).
Proof.
  intros Hrange Hcase. unfold pageLocalReferences.
  unfold mbind at 1. unfold M_bind at 1. unfold getCursor at 1.
  unfold mbind at 1. unfold M_bind at 1. unfold sliceFrom.
  rewrite Z.gtb_ltb.
  destruct (Z.ltb_spec (LocalBatchOffset (cursor s)) 0); [lia|].
  destruct (Z.ltb_spec (GoInt.len adjustedUploads) (LocalBatchOffset (cursor s))); [lia|].
  cbn [orb]. unfold mret at 1. unfold M_ret at 1.
  assert (Hloop : pageLocalReferences_loop r ty
                    (drop (Z.to_nat (LocalBatchOffset (cursor s))) adjustedUploads)
                    limit [] s = (Ok [], s)).
  { destruct (drop _ adjustedUploads) as [|u rest] eqn:Hdrop; [reflexivity|].
    cbn [pageLocalReferences_loop].
    destruct Hcase as [Hlimit|Hend].
    - change (GoInt.len (@nil lsifstore.Location)) with 0.
      destruct (Z.geb_spec 0 limit); [reflexivity|lia].
    - exfalso. assert (Hl : length (u :: rest) = 0%nat).
      { rewrite <- Hdrop, length_drop. unfold GoInt.len in Hend. lia. }
      discriminate Hl. }
  unfold mbind at 1. unfold M_bind at 1. rewrite Hloop. reflexivity.
Qed.

Lemma pageLocalReferences_nothing_to_do_witness :
  pageLocalReferences Faults.lsifDown "references" [Fixture.visible] 0 Fixture.fresh
  = (Ok ([], true), Fixture.fresh).
Proof.
  apply (pageLocalReferences_nothing_to_do Faults.lsifDown "references"
           [Fixture.visible] 0 Fixture.fresh).
  - vm_compute. split; discriminate.
  - left. lia.
Defined.

(** X10: a cursor whose [LocalBatchOffset] is negative or beyond the number
    of adjusted uploads makes [pageLocalReferences] panic, at the slice
    expression, before any store is called. *)
Theorem pageLocalReferences_offset_out_of_range {AdjustedLocation}
    (r : queryResolver AdjustedLocation) ty adjustedUploads limit (s : state) :
  LocalBatchOffset (cursor s) < 0
  \/ GoInt.len adjustedUploads < LocalBatchOffset (cursor s) ->
  pageLocalReferences r ty adjustedUploads limit s = (Panic, s).
Proof.
  intros Hout. unfold pageLocalReferences.
  unfold mbind at 1. unfold M_bind at 1. unfold getCursor at 1.
  unfold mbind at 1. unfold M_bind at 1. unfold sliceFrom.
  rewrite Z.gtb_ltb.
  destruct (Z.ltb_spec (LocalBatchOffset (cursor s)) 0);
    destruct (Z.ltb_spec (GoInt.len adjustedUploads) (LocalBatchOffset (cursor s)));
    try lia; reflexivity.
Qed.

Lemma pageLocalReferences_offset_out_of_range_witness :
  pageLocalReferences Fixture.resolver "references" [Fixture.visible] 10
    {| cursor := setLocalBatchOffset 2 Codec.zeroCursor; uploadCache := Fixture.cache |}
  = (Panic,
     {| cursor := setLocalBatchOffset 2 Codec.zeroCursor; uploadCache := Fixture.cache |}).
Proof.
  apply (pageLocalReferences_offset_out_of_range Fixture.resolver "references"
           [Fixture.visible] 10).
  right. vm_compute. reflexivity.
Defined.

(** When the loop moves [LocalBatchOffset] past every upload it was given,
    the last thing it did was to reset [LocalOffset]. *)
Lemma pageLocalReferences_loop_reset {AdjustedLocation}
    (r : queryResolver AdjustedLocation) ty uploads :
  forall limit acc (s s' : state) locations,
    pageLocalReferences_loop r ty uploads limit acc s = (Ok locations, s') ->
    GoInt.min_int <= LocalBatchOffset (cursor s) ->
    LocalBatchOffset (cursor s) + GoInt.len uploads <= GoInt.max_int ->
    uploads <> [] ->
    LocalBatchOffset (cursor s') = LocalBatchOffset (cursor s) + GoInt.len uploads ->
    LocalOffset (cursor s') = 0.
Proof.
  induction uploads as [|u rest IH];
    intros limit acc s s' locations H Hmin Hmax Hne Hall; [contradiction|].
  cbn [pageLocalReferences_loop] in H.
  rewrite GoInt_len_cons in *. pose proof (GoInt_len_nonneg rest) as Hrest.
  destruct (GoInt.len acc >=? limit); [inv_step H; lia|].
  inv_M H. unfold when in *.
  match goal with
  | Hw : (if ?b then _ else _) _ = _ |- _ => destruct b; inv_M Hw
  end.
  - match goal with
    | Hloop : pageLocalReferences_loop _ _ rest _ _ ?s1 = _ |- _ =>
        assert (Hs1 : LocalBatchOffset (cursor s1) = LocalBatchOffset (cursor s) + 1)
          by (cbn; apply GoInt_add_exact; unfold GoInt.in_range; lia);
        assert (Hlo : LocalOffset (cursor s1) = 0) by reflexivity;
        destruct rest as [|v rest'];
          [cbn in Hloop; inv_step Hloop; exact Hlo
          |apply IH in Hloop; [exact Hloop|lia|lia|discriminate|lia]]
    end.
  - match goal with
    | Hloop : pageLocalReferences_loop _ _ rest _ _ ?s1 = _ |- _ =>
        apply pageLocalReferences_loop_offset in Hloop; cbn in *; lia
    end.
Qed.

(** X11: when [pageLocalReferences] reports no more results after visiting
    at least one upload, it leaves [LocalOffset] at zero: the cursor handed to
    the remote phase carries no stale local offset. *)
Theorem pageLocalReferences_exhausted_resets {AdjustedLocation}
    (r : queryResolver AdjustedLocation) ty adjustedUploads limit
    (s s' : state) locations :
  GoInt.len adjustedUploads <= GoInt.max_int ->
  LocalBatchOffset (cursor s) < GoInt.len adjustedUploads ->
  pageLocalReferences r ty adjustedUploads limit s = (Ok (locations, false), s') ->
  LocalOffset (cursor s') = 0
  /\ LocalBatchOffset (cursor s') = GoInt.len adjustedUploads.
Proof.
  intros Hlen Hlt H.
  unfold pageLocalReferences in H. inv_M H.
  match goal with
  | Hs : sliceFrom _ _ _ = _ |- _ => apply sliceFrom_Ok in Hs as (Hlow & -> & ->)
  end.
  match goal with
  | Hres : (_, false) = (_, _) |- _ => injection Hres as -> Hfalse
  end.
  symmetry in Hfalse. apply Z.ltb_ge in Hfalse.
  match goal with
  | Hloop : pageLocalReferences_loop _ _ _ _ _ _ = _ |- _ =>
      pose proof (pageLocalReferences_loop_offset _ _ _ _ _ _ _ _ Hloop) as Hoff;
      rewrite GoInt_len_drop in Hoff by exact Hlow;
      destruct Hoff as [_ Hup]; [unfold GoInt.min_int; lia|lia|];
      split; [|lia];
      apply pageLocalReferences_loop_reset in Hloop; [exact Hloop| | | |]
  end.
  - unfold GoInt.min_int. lia.
  - rewrite GoInt_len_drop by exact Hlow. lia.
  - intros Hnil. apply (f_equal GoInt.len) in Hnil.
    rewrite GoInt_len_drop in Hnil by exact Hlow. unfold GoInt.len in Hnil at 2.
    cbn in Hnil. lia.
  - rewrite GoInt_len_drop by exact Hlow. lia.
Qed.

Lemma pageLocalReferences_exhausted_resets_witness :
  LocalOffset (setLocalBatchOffset 1 Codec.zeroCursor) = 0
  /\ LocalBatchOffset (setLocalBatchOffset 1 Codec.zeroCursor) = GoInt.len [Fixture.visible].
Proof.
  apply (pageLocalReferences_exhausted_resets Fixture.resolver "references"
           [Fixture.visible] 10 Fixture.fresh
           {| cursor := setLocalBatchOffset 1 Codec.zeroCursor;
              uploadCache := Fixture.cache |}
           Fixture.localReferences).
  - vm_compute. discriminate.
  - vm_compute. reflexivity.
  - vm_compute. reflexivity.
Defined.

(** ** The errors a page can fail with *)

Section FailsOnly.

Variable P : error -> Prop.

Lemma failsOnly_bind {A B} (m : M A) (f : A -> M B) :
  failsOnly P m -> (forall a, failsOnly P (f a)) -> failsOnly P (m ≫= f).
Proof.
  intros Hm Hf s res s' e H ->. unfold mbind, M_bind in H.
  destruct (m s) as [[a| e0| |] s1] eqn:Hms; try discriminate.
  - eapply Hf; [exact H|reflexivity].
  - injection H as <- <-. eapply Hm; [exact Hms|reflexivity].
Qed.

Lemma failsOnly_never {A} (m : M A) :
  (forall s e, fst (m s) <> Err e) -> failsOnly P m.
Proof.
  intros Hm s res s' e H ->. specialize (Hm s e). rewrite H in Hm. contradiction.
Qed.

Lemma failsOnly_ret {A} (a : A) : failsOnly P (mret a : M A).
Proof. apply failsOnly_never. discriminate. Qed.

Lemma failsOnly_getCursor : failsOnly P getCursor.
Proof. apply failsOnly_never. discriminate. Qed.

Lemma failsOnly_getUploadCache : failsOnly P getUploadCache.
Proof. apply failsOnly_never. discriminate. Qed.

Lemma failsOnly_modifyCursor f : failsOnly P (modifyCursor f).
Proof. apply failsOnly_never. discriminate. Qed.

Lemma failsOnly_modifyUploadCache f : failsOnly P (modifyUploadCache f).
Proof. apply failsOnly_never. discriminate. Qed.

Lemma failsOnly_outOfFuel {A} : failsOnly P (outOfFuel : M A).
Proof. apply failsOnly_never. discriminate. Qed.

Lemma failsOnly_sliceFrom {A} (l : list A) low : failsOnly P (sliceFrom l low).
Proof.
  apply failsOnly_never. intros s e. unfold sliceFrom.
  destruct (_ || _); discriminate.
Qed.

Lemma failsOnly_when b m : failsOnly P m -> failsOnly P (when b m).
Proof. destruct b; cbn; [auto|intros _; apply failsOnly_ret]. Qed.

Lemma failsOnly_try {A} (r : error + A) :
  (forall e, r = inl e -> P e) -> failsOnly P (try r).
Proof.
  intros Hr s res s' e H ->. destruct r as [e0|a]; cbn in H.
  - injection H as <- <-. auto.
  - discriminate.
Qed.


Lemma failsOnly_liftResult {A} (r : result A) :
  (forall e, r = Err e -> P e) -> failsOnly P (liftResult r).
Proof. intros Hr s res s' e H ->. injection H as -> <-. auto. Qed.

End FailsOnly.

Lemma failsOnly_weaken {A} (P Q : error -> Prop) (m : M A) :
  (forall e, P e -> Q e) -> failsOnly P m -> failsOnly Q m.
Proof. intros HPQ Hm s res s' e H Hres. eapply HPQ, Hm; eassumption. Qed.

(** Peels a [failsOnly] goal down to the calls that can fail. *)
Ltac fails_only :=
  repeat
    first
      [ apply failsOnly_ret
      | apply failsOnly_getCursor
      | apply failsOnly_getUploadCache
      | apply failsOnly_modifyCursor
      | apply failsOnly_modifyUploadCache
      | apply failsOnly_outOfFuel
      | apply failsOnly_sliceFrom
      | apply failsOnly_when
      | apply failsOnly_bind; [|intros]
      | assumption
      | match goal with
        | |- failsOnly _ (match ?x with _ => _ end) => destruct x
        | |- failsOnly _ (let '(_, _) := ?x in _) => destruct x
        end ].




(** ** The queued batch *)

Lemma sameButBatch_refl c : sameButBatch c c.
Proof. repeat split. Qed.

Lemma sameButBatch_trans c1 c2 c3 :
  sameButBatch c1 c2 -> sameButBatch c2 c3 -> sameButBatch c1 c3.
Proof.
  unfold sameButBatch. intros (?&?&?&?&?&?&?) (?&?&?&?&?&?&?).
  repeat split; congruence.
Qed.

Lemma pageRemoteReferences_batches_post {AdjustedLocation} bloomfilter_Decode
    (r : queryResolver AdjustedLocation) orderedMonikers definitionUploadIDs fuel :
  forall (s s' : state) batch,
    pageRemoteReferences_batches bloomfilter_Decode r fuel orderedMonikers
      definitionUploadIDs s = (Ok batch, s') ->
    (batch = true <-> elems (BatchIDs (cursor s')) <> [])
    /\ (batch = false -> RemoteBatchOffset (cursor s') < 0)
    /\ sameButBatch (cursor s) (cursor s')
    /\ uploadCache s' = uploadCache s.
Proof.
  assert (Hlen : forall l : list Z, (GoInt.len l =? 0) = true <-> l = []).
  { intros [|x l]; [split; reflexivity|].
    split; [|discriminate]. intros H. apply Z.eqb_eq in H.
    unfold GoInt.len in H. cbn in H. lia. }
  induction fuel as [|fuel IH]; intros s s' batch H;
    [rewrite pageRemoteReferences_batches_zero in H
    |rewrite pageRemoteReferences_batches_unfold in H];
    destruct (GoInt.len (elems (BatchIDs (cursor s))) =? 0) eqn:Hb.
  1,3: destruct (Z.ltb_spec (RemoteBatchOffset (cursor s)) 0) as [Hneg|Hoff].
  1,3: injection H as <- <-; apply Hlen in Hb;
       (split; [split; [discriminate|congruence]|]);
       (split; [intros _; exact Hneg|]); split; [apply sameButBatch_refl|reflexivity].
  1: discriminate.
  2,3: injection H as <- <-;
       (split; [split; [intros _ Hnil; apply Hlen in Hnil; congruence|reflexivity]|]);
       (split; [discriminate|]); split; [apply sameButBatch_refl|reflexivity].
  destruct (uploadIDsWithReferences _ _ _ _ _ _) as [[[ids n] total]| | |];
    try discriminate.
  apply IH in H as (Hbatch & Hneg & Hsame & Hcache).
  split; [exact Hbatch|]. split; [exact Hneg|]. split; [|exact Hcache].
  eapply sameButBatch_trans; [|exact Hsame]. repeat split.
Qed.

(** X14: when the batch acquisition loop of [pageRemoteReferences] ends, it
    either holds a batch that is not empty, or holds none and has marked the
    candidate scan exhausted; of the cursor it has changed at most [BatchIDs]
    and [RemoteBatchOffset], and it has left the upload cache alone. *)
Theorem pageRemoteReferences_batches_result {AdjustedLocation} bloomfilter_Decode
    (r : queryResolver AdjustedLocation) orderedMonikers definitionUploadIDs fuel
    (s s' : state) batch :
  pageRemoteReferences_batches bloomfilter_Decode r fuel orderedMonikers
    definitionUploadIDs s = (Ok batch, s') ->
  (batch = true <-> elems (BatchIDs (cursor s')) <> [])
  /\ (batch = false -> RemoteBatchOffset (cursor s') < 0)
  /\ sameButBatch (cursor s) (cursor s')
  /\ uploadCache s' = uploadCache s.
Proof. apply pageRemoteReferences_batches_post. Qed.

Lemma pageRemoteReferences_batches_result_witness :
  (true = true <-> elems (Some [1; 42]) <> [])
  /\ (true = false -> -1 < 0)
  /\ sameButBatch (cursor Fixture.remote)
       (setRemoteBatchOffset (-1) (setBatchIDs (Some [1; 42]) (cursor Fixture.remote)))
  /\ Fixture.cache = uploadCache Fixture.remote.
Proof.
  apply (pageRemoteReferences_batches_result Fixture.decode Fixture.resolver
           [Fixture.foo] [] 3 Fixture.remote
           {| cursor :=
                setRemoteBatchOffset (-1)
                  (setBatchIDs (Some [1; 42]) (cursor Fixture.remote));
              uploadCache := Fixture.cache |} true).
  vm_compute. reflexivity.
Defined.

Lemma uploadsByIDs_cursor {AdjustedLocation} filterUploadsWithCommits
    (r : queryResolver AdjustedLocation) ids :
  preserves (fun s s' => cursor s' = cursor s) (uploadsByIDs filterUploadsWithCommits r ids).
Proof.
  assert (Hrefl : forall s : state, cursor s = cursor s) by reflexivity.
  assert (Htrans : forall s1 s2 s3 : state,
             cursor s2 = cursor s1 -> cursor s3 = cursor s2 -> cursor s3 = cursor s1)
    by (intros; congruence).
  unfold uploadsByIDs.
  apply preserves_bind; [exact Htrans|apply preserves_getUploadCache; exact Hrefl|intros].
  destruct (uploadsByIDs_loop _ _ _ _) as [missingIDs existingUploads].
  apply preserves_bind; [exact Htrans|apply preserves_tryWrap; exact Hrefl|intros].
  destruct (filterUploadsWithCommits _); [apply preserves_ret; exact Hrefl|].
  apply preserves_bind; [exact Htrans| |intros; apply preserves_ret; exact Hrefl].
  intros s res s' H. unfold modifyUploadCache in H. injection H as <- <-. reflexivity.
Qed.

(** X15: whenever [pageRemoteReferences] returns, [hasMore] is false
    exactly when no batch is left queued and the candidate scan is marked
    exhausted; the early return from the acquisition loop and the return
    after a moniker search agree on this. *)
Theorem pageRemoteReferences_hasMore {AdjustedLocation} bloomfilter_Decode
    filterUploadsWithCommits (r : queryResolver AdjustedLocation) fuel lsifDataTable
    adjustedUploads orderedMonikers definitionUploadIDs limit
    (s s' : state) locations hasMore :
  pageRemoteReferences bloomfilter_Decode filterUploadsWithCommits r fuel lsifDataTable
    adjustedUploads orderedMonikers definitionUploadIDs limit s
  = (Ok (locations, hasMore), s') ->
  hasMore = false <->
  elems (BatchIDs (cursor s')) = [] /\ RemoteBatchOffset (cursor s') < 0.
Proof.
  intros H. unfold pageRemoteReferences in H.
  apply bind_Ok in H as (batch & s0 & Hbatch & H).
  apply pageRemoteReferences_batches_post in Hbatch as (Hb & Hneg & _ & _).
  destruct batch; cbn [negb] in H.
  - inv_M H. injection H as -> ->.
    rewrite Z.gtb_ltb, Z.geb_leb.
    match goal with
    | |- context [BatchIDs (cursor ?st)] =>
        destruct (elems (BatchIDs (cursor st))) as [|bid bids] eqn:Hl
    end.
    + change (GoInt.len (@nil Z)) with 0. cbn [Z.ltb Z.compare orb].
      match goal with
      | |- context [?a <=? ?b] => destruct (Z.leb_spec a b)
      end; split; try discriminate; try (intros [_ ?]; lia); intros _; split; [reflexivity|lia].
    + assert (Hpos : (0 <? GoInt.len (bid :: bids)) = true)
        by (apply Z.ltb_lt; unfold GoInt.len; cbn; lia).
      rewrite Hpos. cbn [orb]. split; [discriminate|]. intros [? _]. discriminate.
  - inv_step H. injection H as -> ->. split; [|reflexivity]. intros _.
    split; [|apply Hneg; reflexivity].
    match goal with
    | |- elems ?b = [] => destruct (elems b) eqn:Hl; [reflexivity|]
    end.
    assert (Hcontra : false = true) by (apply Hb; discriminate).
    discriminate Hcontra.
Qed.

Lemma pageRemoteReferences_hasMore_witness :
  false = false <->
  elems (BatchIDs (setRemoteBatchOffset (-1) (cursor Fixture.remote))) = []
  /\ RemoteBatchOffset (setRemoteBatchOffset (-1) (cursor Fixture.remote)) < 0.
Proof.
  apply (pageRemoteReferences_hasMore Fixture.decode Fixture.commitsKnown Fixture.resolver
           5 "references" [Fixture.visible] [Fixture.foo] [] 10 Fixture.remote
           {| cursor := setRemoteBatchOffset (-1) (cursor Fixture.remote);
              uploadCache := <[42 := Fixture.dump 42]> Fixture.cache |}
           [Fixture.location 42 "z.go" 1 0 1 3]).
  vm_compute. reflexivity.
Defined.

Lemma pageRemoteReferences_batches_queued {AdjustedLocation} bloomfilter_Decode
    (r : queryResolver AdjustedLocation) orderedMonikers definitionUploadIDs fuel
    (s : state) :
  elems (BatchIDs (cursor s)) <> [] ->
  pageRemoteReferences_batches bloomfilter_Decode r fuel orderedMonikers
    definitionUploadIDs s = (Ok true, s).
Proof.
  intros Hne.
  assert (Hb : (GoInt.len (elems (BatchIDs (cursor s))) =? 0) = false).
  { destruct (elems (BatchIDs (cursor s))); [contradiction|].
    apply Z.eqb_neq. unfold GoInt.len. cbn. lia. }
  destruct fuel;
    [rewrite pageRemoteReferences_batches_zero|rewrite pageRemoteReferences_batches_unfold];
    rewrite Hb; reflexivity.
Qed.

(** X16: with a batch queued, a returning [pageRemoteReferences] leaves the
    acquisition loop alone, searches from [RemoteOffset] and advances that
    offset by the number of locations the search found, source locations
    included; when the advanced offset reaches the search's total it resets
    the offset to zero and drops the batch, otherwise it keeps the batch.
    Nothing else of the cursor changes. *)
Theorem pageRemoteReferences_offset {AdjustedLocation} bloomfilter_Decode
    filterUploadsWithCommits (r : queryResolver AdjustedLocation) fuel lsifDataTable
    adjustedUploads orderedMonikers definitionUploadIDs limit
    (s s' : state) locations hasMore :
  elems (BatchIDs (cursor s)) <> [] ->
  pageRemoteReferences bloomfilter_Decode filterUploadsWithCommits r fuel lsifDataTable
    adjustedUploads orderedMonikers definitionUploadIDs limit s
  = (Ok (locations, hasMore), s') ->
  exists uploads found totalCount,
    monikerLocations r uploads orderedMonikers lsifDataTable limit
      (RemoteOffset (cursor s)) = inr (found, totalCount)
    /\ cursor s'
       = let offset' := GoInt.add (RemoteOffset (cursor s)) (GoInt.len found) in
         if offset' >=? totalCount
         then setBatchIDs None (setRemoteOffset 0 (cursor s))
         else setRemoteOffset offset' (cursor s).
Proof.
  intros Hne H. unfold pageRemoteReferences in H.
  unfold mbind at 1 in H. unfold M_bind at 1 in H.
  rewrite pageRemoteReferences_batches_queued in H by exact Hne.
  cbn [negb] in H.
  apply bind_Ok in H as (c & s0 & Hc & H). inv_step Hc.
  apply bind_Ok in H as (uploads & s1 & Hup & H).
  pose proof (preserves_run _ _ _ _ _ (uploadsByIDs_cursor _ _ _) Hup) as Hcur.
  apply bind_Ok in H as (c & s2 & Hc & H). inv_step Hc.
  apply bind_Ok in H as ([found totalCount] & s2 & Hsearch & H). inv_step Hsearch.
  exists uploads, found, totalCount. rewrite <- Hcur. split; [assumption|].
  inv_M H. cbn zeta. unfold when in *.
  cbn [cursor RemoteOffset setRemoteOffset] in *.
  match goal with
  | Hw : (if ?b then _ else _) _ = _ |- _ => destruct b; inv_M Hw
  end; reflexivity.
Qed.

Lemma pageRemoteReferences_offset_witness :
  exists uploads found totalCount,
    monikerLocations Fixture.resolver uploads [Fixture.foo] "references" 1
      (RemoteOffset (cursor Variants.queued)) = inr (found, totalCount)
    /\ setRemoteOffset 1 (cursor Variants.queued)
       = let offset' := GoInt.add (RemoteOffset (cursor Variants.queued)) (GoInt.len found) in
         if offset' >=? totalCount
         then setBatchIDs None (setRemoteOffset 0 (cursor Variants.queued))
         else setRemoteOffset offset' (cursor Variants.queued).
Proof.
  apply (pageRemoteReferences_offset Fixture.decode Fixture.commitsKnown Fixture.resolver
           5 "references" [Fixture.visible] [Fixture.foo] [] 1 Variants.queued
           {| cursor := setRemoteOffset 1 (cursor Variants.queued);
              uploadCache := <[42 := Fixture.dump 42]> Fixture.cache |}
           [] true).
  - vm_compute. discriminate.
  - vm_compute. reflexivity.
Defined.

(** ** Whether batch acquisition ends *)

(** X17: batch acquisition ends.  If every candidate scan from an offset
    that is a non-negative [int] succeeds, reports the same total, and scans
    at least one record while the offset is below that total, then the
    acquisition loop answers after at most as many scans as records separate
    the offset from the total, plus one. *)
Theorem pageRemoteReferences_acquisition_ends {AdjustedLocation} bloomfilter_Decode
    (r : queryResolver AdjustedLocation) orderedMonikers definitionUploadIDs total :
  (forall offset, 0 <= offset <= GoInt.max_int ->
     exists ids n,
       uploadIDsWithReferences bloomfilter_Decode r orderedMonikers definitionUploadIDs
         maximumIndexesPerMonikerSearch offset = Ok (ids, n, total)
       /\ 0 <= n /\ (offset < total -> 1 <= n) /\ offset + n <= GoInt.max_int) ->
  forall fuel (s : state),
    RemoteBatchOffset (cursor s) <= GoInt.max_int ->
    Z.max 0 (total - RemoteBatchOffset (cursor s)) < Z.of_nat fuel ->
    exists batch s',
      pageRemoteReferences_batches bloomfilter_Decode r fuel orderedMonikers
        definitionUploadIDs s = (Ok batch, s').
Proof.
  intros Hstore. induction fuel as [|fuel IH]; intros s Hint Hfuel; [lia|].
  rewrite pageRemoteReferences_batches_unfold.
  destruct (GoInt.len (elems (BatchIDs (cursor s))) =? 0); [|eexists _, _; reflexivity].
  destruct (Z.ltb_spec (RemoteBatchOffset (cursor s)) 0) as [Hneg|Hoff];
    [eexists _, _; reflexivity|].
  destruct (Hstore _ (conj Hoff Hint)) as (ids & n & Hscan & Hn & Hprog & Hmax).
  rewrite Hscan.
  assert (Hafter : RemoteBatchOffset (afterScan (cursor s) ids n total)
                   = if total <=? RemoteBatchOffset (cursor s) + n then -1
                     else RemoteBatchOffset (cursor s) + n).
  { unfold afterScan; cbn.
    rewrite GoInt_add_exact by (unfold GoInt.in_range, GoInt.min_int; lia).
    rewrite Z.geb_leb. reflexivity. }
  destruct (Z.leb_spec total (RemoteBatchOffset (cursor s) + n)) as [Hend|Hmore].
  - edestruct (pageRemoteReferences_batches_exhausted bloomfilter_Decode r orderedMonikers
                 definitionUploadIDs fuel) as [batch Hb]; [|eexists _, _; exact Hb].
    cbn [cursor]. rewrite Hafter. lia.
  - apply IH; cbn [cursor]; rewrite Hafter; lia.
Qed.

Lemma Fixture_scans_progress (offset : Z) :
  0 <= offset <= GoInt.max_int ->
  exists ids n,
    uploadIDsWithReferences Fixture.decode Fixture.resolver [Fixture.foo] []
      maximumIndexesPerMonikerSearch offset = Ok (ids, n, 3)
    /\ 0 <= n /\ (offset < 3 -> 1 <= n) /\ offset + n <= GoInt.max_int.
Proof.
  intros [Hlo Hhi].
  assert (Hcases : offset = 0 \/ offset = 1 \/ offset = 2 \/ 3 <= offset) by lia.
  destruct Hcases as [->|[->|[->|Hbig]]].
  - exists [1; 42], 3. split; [vm_compute; reflexivity|]. unfold GoInt.max_int. lia.
  - exists [42], 2. split; [vm_compute; reflexivity|]. unfold GoInt.max_int. lia.
  - exists [42], 1. split; [vm_compute; reflexivity|]. unfold GoInt.max_int. lia.
  - exists [], 0. split; [|lia].
    unfold uploadIDsWithReferences.
    cbn [Fixture.resolver dbStore Fixture.db DBStore.ReferenceIDsAndFilters].
    unfold Fixture.page. rewrite drop_ge by (cbn; lia).
    vm_compute. reflexivity.
Qed.

Lemma pageRemoteReferences_acquisition_ends_witness :
  exists batch s',
    pageRemoteReferences_batches Fixture.decode Fixture.resolver 4 [Fixture.foo] []
      Fixture.remote = (Ok batch, s').
Proof.
  apply (pageRemoteReferences_acquisition_ends Fixture.decode Fixture.resolver
           [Fixture.foo] [] 3 Fixture_scans_progress 4 Fixture.remote).
  - vm_compute. discriminate.
  - vm_compute. reflexivity.
Defined.

(** X18: batch acquisition can fail to end.  With no batch queued, if the
    candidate scan from the current offset, below the reported total, succeeds
    without scanning any record, the offset does not move and the loop scans
    again from the same place: [pageRemoteReferences] runs out of any fuel. *)
Theorem pageRemoteReferences_stuck_scan {AdjustedLocation} bloomfilter_Decode
    filterUploadsWithCommits (r : queryResolver AdjustedLocation)
    orderedMonikers definitionUploadIDs total offset :
  0 <= offset <= GoInt.max_int ->
  offset < total ->
  uploadIDsWithReferences bloomfilter_Decode r orderedMonikers definitionUploadIDs
    maximumIndexesPerMonikerSearch offset = Ok ([], 0, total) ->
  forall fuel lsifDataTable adjustedUploads limit (s : state),
    elems (BatchIDs (cursor s)) = [] ->
    RemoteBatchOffset (cursor s) = offset ->
    fst (pageRemoteReferences bloomfilter_Decode filterUploadsWithCommits r fuel
           lsifDataTable adjustedUploads orderedMonikers definitionUploadIDs limit s)
    = OutOfFuel.
Proof.
  intros Hoff Hlt Hscan fuel lsifDataTable adjustedUploads limit.
  assert (Hloop : forall s : state,
             elems (BatchIDs (cursor s)) = [] ->
             RemoteBatchOffset (cursor s) = offset ->
             fst (pageRemoteReferences_batches bloomfilter_Decode r fuel orderedMonikers
                    definitionUploadIDs s) = OutOfFuel).
  { induction fuel as [|fuel IH]; intros s Hempty Hs;
      [rewrite pageRemoteReferences_batches_zero
      |rewrite pageRemoteReferences_batches_unfold];
      rewrite Hempty; change (GoInt.len (@nil Z) =? 0) with true; cbn iota;
      rewrite Hs; destruct (Z.ltb_spec offset 0); try lia; [reflexivity|].
    rewrite Hscan. apply IH; unfold afterScan; cbn.
    - reflexivity.
    - rewrite GoInt_add_exact by (unfold GoInt.in_range, GoInt.min_int; lia).
      rewrite Hs, Z.add_0_r, Z.geb_leb.
      destruct (Z.leb_spec total offset); [lia|reflexivity]. }
  intros s Hempty Hs. specialize (Hloop s Hempty Hs).
  unfold pageRemoteReferences, mbind, M_bind.
  destruct (pageRemoteReferences_batches _ _ _ _ _ s) as [[b| | |] s1];
    cbn in Hloop; try discriminate. reflexivity.
Qed.

Lemma pageRemoteReferences_stuck_scan_witness :
  fst (pageRemoteReferences Fixture.decode Fixture.commitsKnown Faults.stuck 1000
         "references" [Fixture.visible] [Fixture.foo] [] 10 Fixture.remote)
  = OutOfFuel.
Proof.
  apply (pageRemoteReferences_stuck_scan Fixture.decode Fixture.commitsKnown Faults.stuck
           [Fixture.foo] [] 3 0).
  - vm_compute. split; discriminate.
  - lia.
  - vm_compute. reflexivity.
  - reflexivity.
  - reflexivity.
Defined.

(** ** How the remote phase of a page ends *)

Lemma referencesRemoteLoop_post {AdjustedLocation} bloomfilter_Decode
    filterUploadsWithCommits (r : queryResolver AdjustedLocation)
    adjustedUploads definitionUploadIDs limit fuel :
  forall locations (s s' : state) locations',
    referencesRemoteLoop bloomfilter_Decode filterUploadsWithCommits r fuel
      adjustedUploads definitionUploadIDs limit locations s = (Ok locations', s') ->
    locations `prefix_of` locations'
    /\ ((samePhase s s' /\ limit <= GoInt.len locations')
        \/ Phase (cursor s') = "done").
Proof.
  induction fuel as [|fuel IH]; intros locations s s' locations' H;
    cbn [referencesRemoteLoop] in H;
    destruct (Z.ltb_spec (GoInt.len locations) limit) as [Hroom|Hfull].
  - discriminate.
  - inv_step H. split; [reflexivity|]. left. split; [reflexivity|lia].
  - apply bind_Ok in H as (c & s0 & Hc & H). inv_step Hc.
    apply bind_Ok in H as ([remoteLocations hasMore] & s1 & Hpage & H).
    pose proof (preserves_run _ _ _ _ _
                  (pageRemoteReferences_samePhase _ _ _ _ _ _ _ _ _) Hpage) as Hsame.
    destruct hasMore; cbn [negb] in H.
    + apply IH in H as [Hpre Hpost]. split.
      * etransitivity; [|exact Hpre]. apply prefix_app_r. reflexivity.
      * destruct Hpost as [[Hs Hlen]|Hdone]; [left|right; exact Hdone].
        split; [eapply samePhase_trans; eassumption|exact Hlen].
    + inv_M H. split; [apply prefix_app_r; reflexivity|]. right. reflexivity.
  - inv_step H. split; [reflexivity|]. left. split; [reflexivity|lia].
Qed.

(** X19: when phase 2 of [References] returns, the locations gathered so
    far are all still there, in order, at the head of the page, and either the
    page holds at least [limit] locations and the phase is unchanged, or the
    phase is done: a page that is not full is the last one. *)
Theorem referencesRemotePhase_full_or_done {AdjustedLocation} bloomfilter_Decode
    filterUploadsWithCommits (r : queryResolver AdjustedLocation)
    adjustedUploads definitionUploadIDs limit fuel locations (s s' : state) locations' :
  referencesRemotePhase bloomfilter_Decode filterUploadsWithCommits r fuel
    adjustedUploads definitionUploadIDs limit locations s = (Ok locations', s') ->
  Phase (cursor s) = "remote" ->
  locations `prefix_of` locations'
  /\ ((Phase (cursor s') = "remote" /\ limit <= GoInt.len locations')
      \/ Phase (cursor s') = "done").
Proof.
  intros H Hremote. unfold referencesRemotePhase in H.
  unfold mbind at 1 in H. unfold M_bind at 1 in H. unfold getCursor at 1 in H.
  rewrite Hremote in H. cbn [String.eqb Ascii.eqb Bool.eqb] in H.
  apply referencesRemoteLoop_post in H as [Hpre [[Hs Hlen]|Hdone]];
    (split; [exact Hpre|]); [left|right; exact Hdone].
  unfold samePhase in Hs. split; [congruence|exact Hlen].
Qed.

Lemma referencesRemotePhase_full_or_done_witness :
  [] `prefix_of` [Fixture.location 42 "z.go" 1 0 1 3]
  /\ ((Phase (setPhase "done" (setRemoteBatchOffset (-1) (cursor Fixture.remote)))
       = "remote"
       /\ 10 <= GoInt.len [Fixture.location 42 "z.go" 1 0 1 3])
      \/ Phase (setPhase "done" (setRemoteBatchOffset (-1) (cursor Fixture.remote)))
         = "done").
Proof.
  apply (referencesRemotePhase_full_or_done Fixture.decode Fixture.commitsKnown
           Fixture.resolver [Fixture.visible] [] 10 5 [] Fixture.remote
           {| cursor := setPhase "done" (setRemoteBatchOffset (-1) (cursor Fixture.remote));
              uploadCache := <[42 := Fixture.dump 42]> Fixture.cache |}).
  - vm_compute. reflexivity.
  - reflexivity.
Defined.

(** ** The continuation token *)

(** X20: if the cursor codec decodes what it encodes and never encodes a
    cursor as the empty token, then a page [References] returns either ends
    the request, with the empty token and the phase done, or hands out a token
    that is not empty and decodes to exactly the cursor the page ended with,
    stashed data and offsets included, whose phase is not done. *)
Theorem References_continuation {AdjustedLocation} bloomfilter_Decode
    filterUploadsWithCommits decodeCursor encodeCursor strconv_Quote
    (r : queryResolver AdjustedLocation) fuel line character limit rawCursor cache
    (locations : list AdjustedLocation) nextCursor :
  (forall c, decodeCursor (encodeCursor c) = inr c) ->
  (forall c, encodeCursor c <> ""%string) ->
  References bloomfilter_Decode filterUploadsWithCommits decodeCursor encodeCursor
    strconv_Quote r fuel line character limit rawCursor cache
  = Ok (locations, nextCursor) ->
  exists c s',
    decodeCursor rawCursor = inr c
    /\ referencesPage bloomfilter_Decode filterUploadsWithCommits encodeCursor r
         fuel line character limit {| cursor := c; uploadCache := cache |}
       = (Ok (locations, nextCursor), s')
    /\ ((nextCursor = ""%string /\ Phase (cursor s') = "done")
        \/ (nextCursor <> ""%string /\ Phase (cursor s') <> "done"
            /\ decodeCursor nextCursor = inr (cursor s'))).
Proof.
  intros Hrt Hne H. unfold References in H.
  destruct (decodeCursor rawCursor) as [err|c]; [discriminate|].
  destruct (referencesPage _ _ _ _ _ _ _ _ _) as [res s'] eqn:Hpage.
  cbn [fst] in H. subst res.
  exists c, s'. split; [reflexivity|]. split; [exact Hpage|].
  unfold referencesPage in Hpage. inv_M Hpage.
  match goal with
  | Hres : (locations, nextCursor) = (_, _) |- _ => injection Hres as -> ->
  end.
  match goal with
  | |- context [String.eqb ?p "done"] =>
      destruct (String.eqb_spec p "done") as [Hdone|Hnot]; cbn [negb]
  end.
  - left. split; [reflexivity|exact Hdone].
  - right. split; [apply Hne|]. split; [exact Hnot|apply Hrt].
Qed.

Lemma Codec_roundtrip (c : referencesCursor) :
  Codec.decodeCursor (Codec.encodeCursor c) = inr c.
Proof.
  unfold Codec.encodeCursor.
  change (Codec.decodeCursor (Codec.schemaVersion +:+ Codec.encFields c))
    with (match Codec.dropPrefix Codec.schemaVersion
                  (Codec.schemaVersion +:+ Codec.encFields c) with
          | None => inl Codec.ErrMalformedCursor
          | Some body =>
              match Codec.decFields body with
              | Some (c1, EmptyString) => inr c1
              | _ => inl Codec.ErrMalformedCursor
              end
          end).
  rewrite dropPrefix_app.
  rewrite <- (string_app_nil_r (Codec.encFields c)), decFields_roundtrips.
  reflexivity.
Qed.

Lemma References_continuation_witness :
  exists c s',
    Codec.decodeCursor "" = inr c
    /\ referencesPage Fixture.decode Fixture.commitsKnown Codec.encodeCursor
         Fixture.resolver 5 10 4 2 {| cursor := c; uploadCache := Fixture.cache |}
       = (Ok (take 2 Fixture.localReferences,
              Codec.encodeCursor
                (setLocalOffset 2
                   (setDefinitionUploadIDs (Some [])
                      (setOrderedMonikers (Some [Fixture.foo]) Variants.stashed)))),
          s')
    /\ ((Codec.encodeCursor
           (setLocalOffset 2
              (setDefinitionUploadIDs (Some [])
                 (setOrderedMonikers (Some [Fixture.foo]) Variants.stashed)))
         = ""%string
         /\ Phase (cursor s') = "done")
        \/ (Codec.encodeCursor
              (setLocalOffset 2
                 (setDefinitionUploadIDs (Some [])
                    (setOrderedMonikers (Some [Fixture.foo]) Variants.stashed)))
            <> ""%string
            /\ Phase (cursor s') <> "done"
            /\ Codec.decodeCursor
                 (Codec.encodeCursor
                    (setLocalOffset 2
                       (setDefinitionUploadIDs (Some [])
                          (setOrderedMonikers (Some [Fixture.foo]) Variants.stashed))))
               = inr (cursor s'))).
Proof.
  apply (References_continuation Fixture.decode Fixture.commitsKnown
           Codec.decodeCursor Codec.encodeCursor id Fixture.resolver 5 10 4 2 "" Fixture.cache).
  - exact Codec_roundtrip.
  - exact encodeCursor_not_empty.
  - vm_compute. reflexivity.
Defined.

(** ** The upload cache over a page *)

(** Peels a [preserves] goal through binds and the steps that leave the
    state alone; [step] is tried on what changes the state. *)
Ltac frame Hrefl Htrans step :=
  repeat
    first
      [ step
      | apply preserves_ret; [exact Hrefl]
      | apply preserves_getCursor; [exact Hrefl]
      | apply preserves_getUploadCache; [exact Hrefl]
      | apply preserves_throw; [exact Hrefl]
      | apply preserves_panic; [exact Hrefl]
      | apply preserves_outOfFuel; [exact Hrefl]
      | apply preserves_try; [exact Hrefl]
      | apply preserves_tryWrap; [exact Hrefl]
      | apply preserves_liftResult; [exact Hrefl]
      | apply preserves_sliceFrom; [exact Hrefl]
      | apply preserves_when; [exact Hrefl|]
      | apply preserves_bind; [exact Htrans| |intros]
      | assumption
      | match goal with
        | |- preserves _ (match ?x with _ => _ end) => destruct x
        | |- preserves _ (let '(_, _) := ?x in _) => destruct x
        | |- preserves _ (if ?x then _ else _) => destruct x
        end ].

Lemma cacheGrows_refl s : cacheGrows s s.
Proof. split; [reflexivity|auto]. Qed.

Lemma cacheGrows_trans s1 s2 s3 : cacheGrows s1 s2 -> cacheGrows s2 s3 -> cacheGrows s1 s3.
Proof. intros [H1 K1] [H2 K2]. split; [etransitivity; eassumption|auto]. Qed.

Lemma cacheGrows_modifyCursor f : preserves cacheGrows (modifyCursor f).
Proof.
  intros s res s' H. unfold modifyCursor in H. injection H as <- <-.
  split; [reflexivity|auto].
Qed.

Lemma cacheGrows_insert_all (uploads : list dbstore.Dump) :
  forall m : gmap Z dbstore.Dump,
    dom m ⊆ dom (foldl (fun cache upload => <[dbstore.ID upload := upload]> cache) m uploads)
    /\ (cacheKeyed m ->
        cacheKeyed (foldl (fun cache upload => <[dbstore.ID upload := upload]> cache)
                      m uploads)).
Proof.
  induction uploads as [|u rest IH]; intros m; cbn [foldl].
  - split; [reflexivity|auto].
  - destruct (IH (<[dbstore.ID u := u]> m)) as [Hdom Hkey]. split.
    + etransitivity; [|exact Hdom]. rewrite dom_insert_L. apply union_subseteq_r.
    + intros Hm. apply Hkey. intros k v Hv.
      destruct (decide (dbstore.ID u = k)) as [<-|Hneq].
      * rewrite lookup_insert_eq in Hv. injection Hv as <-. reflexivity.
      * rewrite lookup_insert_ne in Hv by exact Hneq. eauto.
Qed.

Lemma cacheGrows_uploadsByIDs {AdjustedLocation} filterUploadsWithCommits
    (r : queryResolver AdjustedLocation) ids :
  preserves cacheGrows (uploadsByIDs filterUploadsWithCommits r ids).
Proof.
  unfold uploadsByIDs.
  frame cacheGrows_refl cacheGrows_trans ltac:(apply cacheGrows_modifyCursor).
  intros s res s' H. unfold modifyUploadCache in H. injection H as <- <-.
  apply cacheGrows_insert_all.
Qed.

Lemma cacheGrows_pageLocalReferences_loop {AdjustedLocation}
    (r : queryResolver AdjustedLocation) ty uploads :
  forall limit acc, preserves cacheGrows (pageLocalReferences_loop r ty uploads limit acc).
Proof.
  induction uploads as [|u rest IH]; intros limit acc; cbn [pageLocalReferences_loop];
    frame cacheGrows_refl cacheGrows_trans ltac:(apply cacheGrows_modifyCursor).
  apply IH.
Qed.

Lemma cacheGrows_batches {AdjustedLocation} bloomfilter_Decode
    (r : queryResolver AdjustedLocation) fuel orderedMonikers definitionUploadIDs :
  preserves cacheGrows
    (pageRemoteReferences_batches bloomfilter_Decode r fuel orderedMonikers
       definitionUploadIDs).
Proof.
  induction fuel as [|fuel IH]; cbn [pageRemoteReferences_batches];
    frame cacheGrows_refl cacheGrows_trans ltac:(apply cacheGrows_modifyCursor).
Qed.

Lemma cacheGrows_pageRemoteReferences {AdjustedLocation} bloomfilter_Decode
    filterUploadsWithCommits (r : queryResolver AdjustedLocation) fuel lsifDataTable
    adjustedUploads orderedMonikers definitionUploadIDs limit :
  preserves cacheGrows
    (pageRemoteReferences bloomfilter_Decode filterUploadsWithCommits r fuel lsifDataTable
       adjustedUploads orderedMonikers definitionUploadIDs limit).
Proof.
  unfold pageRemoteReferences.
  frame cacheGrows_refl cacheGrows_trans
    ltac:(first [ apply cacheGrows_modifyCursor
                | apply cacheGrows_batches
                | apply cacheGrows_uploadsByIDs ]).
Qed.

Lemma cacheGrows_referencesRemoteLoop {AdjustedLocation} bloomfilter_Decode
    filterUploadsWithCommits (r : queryResolver AdjustedLocation)
    adjustedUploads definitionUploadIDs limit fuel :
  forall locations,
    preserves cacheGrows
      (referencesRemoteLoop bloomfilter_Decode filterUploadsWithCommits r fuel
         adjustedUploads definitionUploadIDs limit locations).
Proof.
  induction fuel as [|fuel IH]; intros locations; cbn [referencesRemoteLoop];
    frame cacheGrows_refl cacheGrows_trans
      ltac:(first [ apply cacheGrows_modifyCursor
                  | apply cacheGrows_pageRemoteReferences
                  | apply IH ]).
Qed.

(** X21: over a page of [References], once its cursor is decoded and
    whatever its outcome, the upload cache never loses an entry, and if every
    entry was filed under its upload's own ID before the page, every entry
    still is after it. *)
Theorem referencesPage_cache_grows {AdjustedLocation} bloomfilter_Decode
    filterUploadsWithCommits encodeCursor (r : queryResolver AdjustedLocation)
    fuel line character limit (s s' : state) res :
  referencesPage bloomfilter_Decode filterUploadsWithCommits encodeCursor r
    fuel line character limit s = (res, s') ->
  dom (uploadCache s) ⊆ dom (uploadCache s')
  /\ (cacheKeyed (uploadCache s) -> cacheKeyed (uploadCache s')).
Proof.
  assert (Hf : preserves cacheGrows
                 (referencesPage bloomfilter_Decode filterUploadsWithCommits encodeCursor r
                    fuel line character limit)).
  { unfold referencesPage, referencesPrelude, referencesLocalPhase, referencesRemotePhase,
      adjustedUploadsFromCursor, definitionUploadIDsFromCursor, pageLocalReferences.
    frame cacheGrows_refl cacheGrows_trans
      ltac:(first [ apply cacheGrows_modifyCursor
                  | apply cacheGrows_pageLocalReferences_loop
                  | apply cacheGrows_referencesRemoteLoop ]). }
  intros H. exact (Hf _ _ _ H).
Qed.

Lemma referencesPage_cache_grows_witness :
  dom Fixture.cache ⊆ dom (<[42 := Fixture.dump 42]> Fixture.cache)
  /\ (cacheKeyed Fixture.cache -> cacheKeyed (<[42 := Fixture.dump 42]> Fixture.cache)).
Proof.
  assert (Hrun :
    referencesPage Fixture.decode Fixture.commitsKnown Codec.encodeCursor
      Fixture.resolver 5 10 4 10 Fixture.fresh
    = (fst (referencesPage Fixture.decode Fixture.commitsKnown Codec.encodeCursor
              Fixture.resolver 5 10 4 10 Fixture.fresh),
       {| cursor :=
            cursor (snd (referencesPage Fixture.decode Fixture.commitsKnown
                           Codec.encodeCursor Fixture.resolver 5 10 4 10 Fixture.fresh));
          uploadCache := <[42 := Fixture.dump 42]> Fixture.cache |}))
    by (vm_compute; reflexivity).
  exact (referencesPage_cache_grows _ _ _ _ _ _ _ _ _ _ _ Hrun).
Defined.

(** ** What is stashed stays stashed *)
















(** ** Uploads by ID *)

Lemma uploadsByIDs_loop_split (cache : gmap Z dbstore.Dump) (ids : list Z) :
  forall missingIDs existingUploads,
    uploadsByIDs_loop cache ids missingIDs existingUploads
    = (missingIDs ++ filter (fun id => cache !! id = None) ids,
       existingUploads ++ omap (fun id => cache !! id) ids).
Proof.
  induction ids as [|id rest IH]; intros missingIDs existingUploads;
    cbn [uploadsByIDs_loop omap list_omap].
  - rewrite filter_nil, !app_nil_r. reflexivity.
  - destruct (cache !! id) as [upload|] eqn:Hid.
    + rewrite IH, filter_cons_False by congruence.
      rewrite <- app_assoc. reflexivity.
    + rewrite IH, filter_cons_True by assumption.
      rewrite <- app_assoc. reflexivity.
Qed.




(** ** Source locations, continued *)

(** X24: [isSourceLocation] answers true exactly when some visible upload
    has the location's index ID and path and its adjusted position lies
    within the location's range, both ends included; the order of the
    uploads does not matter. *)
Theorem isSourceLocation_decides (adjustedUploads : list adjustedUpload)
    (location : lsifstore.Location) :
  (isSourceLocation adjustedUploads location = true <->
     exists u, u ∈ adjustedUploads
       /\ lsifstore.DumpID location = dbstore.ID (Upload u)
       /\ lsifstore.Path location = AdjustedPath u
       /\ pos_le (lsifstore.Start (lsifstore.Range_ location)) (AdjustedPosition u)
       /\ pos_le (AdjustedPosition u) (lsifstore.End_ (lsifstore.Range_ location)))
  /\ (forall others, others ≡ₚ adjustedUploads ->
        isSourceLocation others location = isSourceLocation adjustedUploads location).
Proof.
  split; [apply isSourceLocation_spec|].
  intros others Hperm.
  destruct (isSourceLocation adjustedUploads location) eqn:Hsrc.
  - apply isSourceLocation_spec in Hsrc as (u & Hu & H).
    apply isSourceLocation_spec. exists u. split; [|exact H].
    rewrite Hperm. exact Hu.
  - apply Bool.not_true_iff_false. intros Hothers.
    apply isSourceLocation_spec in Hothers as (u & Hu & H).
    apply Bool.not_true_iff_false in Hsrc. apply Hsrc.
    apply isSourceLocation_spec. exists u. split; [|exact H].
    rewrite <- Hperm. exact Hu.
Qed.

(** X25: a range whose end precedes its start contains no position. *)
Theorem rangeContainsPosition_inverted (r : lsifstore.Range) (p : lsifstore.Position) :
  pos_lt (lsifstore.End_ r) (lsifstore.Start r) ->
  rangeContainsPosition r p = false.
Proof.
  intros Hinv. apply Bool.not_true_iff_false. intros Hin.
  apply rangeContainsPosition_true in Hin as [Hs He].
  unfold pos_lt, pos_le in *. lia.
Qed.

Lemma rangeContainsPosition_inverted_witness :
  rangeContainsPosition
    {| lsifstore.Start := Fixture.position 5 0; lsifstore.End_ := Fixture.position 4 9 |}
    (Fixture.position 4 12) = false.
Proof.
  apply rangeContainsPosition_inverted. unfold pos_lt. cbn. lia.
Defined.

(** ** Errors of the remote phase *)

Lemma bind_Err_inv {A B} (m : M A) (f : A -> M B) (s s' : state) e :
  (m ≫= f) s = (Err e, s') ->
  m s = (Err e, s') \/ exists a s1, m s = (Ok a, s1) /\ f a s1 = (Err e, s').
Proof.
  unfold mbind, M_bind. destruct (m s) as [[a|e0| |] s1]; intros H; try discriminate.
  - right. eauto.
  - left. injection H as <- <-. reflexivity.
Qed.

(** Batch acquisition fails where a candidate scan fails: with no batch
    queued, at the offset the cursor is left with. *)
Lemma pageRemoteReferences_batches_failure {AdjustedLocation} bloomfilter_Decode
    (r : queryResolver AdjustedLocation) orderedMonikers definitionUploadIDs fuel :
  forall (s s' : state) e,
    pageRemoteReferences_batches bloomfilter_Decode r fuel orderedMonikers
      definitionUploadIDs s = (Err e, s') ->
    elems (BatchIDs (cursor s')) = []
    /\ 0 <= RemoteBatchOffset (cursor s')
    /\ uploadIDsWithReferences bloomfilter_Decode r orderedMonikers definitionUploadIDs
         maximumIndexesPerMonikerSearch (RemoteBatchOffset (cursor s')) = Err e.
Proof.
  induction fuel as [|fuel IH]; intros s s' e H.
  - rewrite pageRemoteReferences_batches_zero in H.
    destruct (_ =? _); [destruct (_ <? _)|]; discriminate.
  - rewrite pageRemoteReferences_batches_unfold in H.
    destruct (Z.eqb_spec (GoInt.len (elems (BatchIDs (cursor s)))) 0) as [Hlen|];
      [|discriminate].
    destruct (Z.ltb_spec (RemoteBatchOffset (cursor s)) 0) as [|Hoff]; [discriminate|].
    destruct (uploadIDsWithReferences _ _ _ _ _ _) as [[[ids n] total]|e0| |] eqn:Hscan;
      try discriminate.
    + apply IH in H. exact H.
    + injection H as <- <-. split; [|split; [exact Hoff|exact Hscan]].
      unfold GoInt.len in Hlen. apply length_zero_iff_nil. lia.
Qed.

(** [uploadsByIDs] fails only when the store does, on the IDs the cache
    does not hold, and then leaves the state as it is. *)
Lemma uploadsByIDs_failure {AdjustedLocation} filterUploadsWithCommits
    (r : queryResolver AdjustedLocation) ids (s s' : state) e :
  uploadsByIDs filterUploadsWithCommits r ids s = (Err e, s') ->
  s' = s
  /\ exists cause,
       DBStore.GetDumpsByIDs (dbStore r)
         (filter (fun id => uploadCache s !! id = None) ids) = inl cause
       /\ e = ErrWrap cause "dbstore.GetDumpsByIDs".
Proof.
  intros H. unfold uploadsByIDs in H.
  unfold mbind at 1 in H. unfold M_bind at 1 in H. unfold getUploadCache at 1 in H.
  rewrite uploadsByIDs_loop_split in H. cbn [app] in H.
  apply bind_Err_inv in H as [H|(fetched & s1 & Hget & H)].
  - destruct (DBStore.GetDumpsByIDs _ _) as [cause|fetched]; cbn in H; [|discriminate].
    injection H as <- <-. eauto.
  - exfalso. destruct (filterUploadsWithCommits fetched); [discriminate|].
    unfold mbind, M_bind, modifyUploadCache in H. discriminate.
Qed.

(** X13: an error [pageRemoteReferences] fails with is that of the
    operation that failed.  With no batch queued it is the error of the
    candidate scan at the offset the cursor is left with, as
    [uploadIDsWithReferences] names it.  With a batch queued it is either the
    store's error on the batch's IDs the cache does not hold, wrapped as
    [dbstore.GetDumpsByIDs], or the error of the moniker search over the
    batch's uploads from [RemoteOffset], returned as it is. *)
Theorem pageRemoteReferences_errors {AdjustedLocation} bloomfilter_Decode
    filterUploadsWithCommits (r : queryResolver AdjustedLocation) fuel lsifDataTable
    adjustedUploads orderedMonikers definitionUploadIDs limit (s s' : state) e :
  pageRemoteReferences bloomfilter_Decode filterUploadsWithCommits r fuel lsifDataTable
    adjustedUploads orderedMonikers definitionUploadIDs limit s = (Err e, s') ->
  (elems (BatchIDs (cursor s')) = []
   /\ 0 <= RemoteBatchOffset (cursor s')
   /\ candidateScanError bloomfilter_Decode orderedMonikers definitionUploadIDs
        maximumIndexesPerMonikerSearch
        (DBStore.ReferenceIDsAndFilters (dbStore r) (repositoryID r) (commit r)
           orderedMonikers maximumIndexesPerMonikerSearch
           (RemoteBatchOffset (cursor s'))) e)
  \/ (elems (BatchIDs (cursor s')) <> []
      /\ exists cause,
           DBStore.GetDumpsByIDs (dbStore r)
             (filter (fun id => uploadCache s' !! id = None)
                (elems (BatchIDs (cursor s')))) = inl cause
           /\ e = ErrWrap cause "dbstore.GetDumpsByIDs")
  \/ (elems (BatchIDs (cursor s')) <> []
      /\ exists s1 uploads,
           uploadsByIDs filterUploadsWithCommits r (elems (BatchIDs (cursor s'))) s1
           = (Ok uploads, s')
           /\ monikerLocations r uploads orderedMonikers lsifDataTable limit
                (RemoteOffset (cursor s')) = inl e).
Proof.
  intros H. unfold pageRemoteReferences in H.
  apply bind_Err_inv in H as [Hb|(batch & s1 & Hb & H)].
  { left. apply pageRemoteReferences_batches_failure in Hb as (Hempty & Hoff & Hscan).
    split; [exact Hempty|]. split; [exact Hoff|].
    destruct (uploadIDsWithReferences_outcome bloomfilter_Decode r orderedMonikers
                definitionUploadIDs maximumIndexesPerMonikerSearch
                (RemoteBatchOffset (cursor s'))) as [[x Hx]|(e' & He' & Hnamed)];
      congruence. }
  right.
  destruct batch; cbn [negb] in H; [|discriminate].
  apply pageRemoteReferences_batches_post in Hb as (Hbatch & _).
  assert (Hqueued : elems (BatchIDs (cursor s1)) <> []) by (apply Hbatch; reflexivity).
  apply bind_Err_inv in H as [H|(c & s1' & Hc & H)]; [discriminate|].
  apply getCursor_Ok in Hc as [-> ->].
  apply bind_Err_inv in H as [Hup|(uploads & s2 & Hup & H)].
  { left. apply uploadsByIDs_failure in Hup as (-> & cause & Hget & ->).
    split; [exact Hqueued|]. eauto. }
  right.
  pose proof (preserves_run _ _ _ _ _ (uploadsByIDs_cursor _ _ _) Hup) as Hcur.
  cbn beta in Hcur.
  apply bind_Err_inv in H as [H|(c & s2' & Hc & H)]; [discriminate|].
  apply getCursor_Ok in Hc as [-> ->].
  apply bind_Err_inv in H as [Hml|([locations total] & s3 & Hml & H)].
  - destruct (monikerLocations r uploads orderedMonikers lsifDataTable limit
                (RemoteOffset (cursor s2))) as [err|found] eqn:Hsearch;
      cbn in Hml; [|discriminate].
    injection Hml as <- <-. rewrite Hcur. split; [exact Hqueued|].
    exists s1, uploads. split; [exact Hup|]. rewrite <- Hcur. exact Hsearch.
  - exfalso.
    assert (Hf : failsOnly (fun _ => False)
                   (modifyCursor (fun c =>
                      setRemoteOffset (GoInt.add (RemoteOffset c) (GoInt.len locations)) c);;
                    c ← getCursor;
                    when (RemoteOffset c >=? total)
                      (modifyCursor (setRemoteOffset 0);;
                       modifyCursor (setBatchIDs None));;
                    c ← getCursor;
                    mret (List.filter
                            (fun location =>
                               negb (isSourceLocation adjustedUploads location))
                            locations,
                          (GoInt.len (elems (BatchIDs c)) >? 0)
                          || (RemoteBatchOffset c >=? 0)))) by fails_only.
    eapply Hf; [exact H|reflexivity].
Qed.

Lemma pageRemoteReferences_errors_witness :
  (elems (BatchIDs (cursor Fixture.remote)) = []
   /\ 0 <= RemoteBatchOffset (cursor Fixture.remote)
   /\ candidateScanError Fixture.decode [Fixture.foo] [] maximumIndexesPerMonikerSearch
        (DBStore.ReferenceIDsAndFilters (dbStore Faults.closeFails)
           (repositoryID Faults.closeFails) (commit Faults.closeFails)
           [Fixture.foo] maximumIndexesPerMonikerSearch
           (RemoteBatchOffset (cursor Fixture.remote)))
        (ErrMulti [ErrWrap (ErrNew "connection reset")
                     "dbstore.ReferenceIDsAndFilters.Close"]))
  \/ (elems (BatchIDs (cursor Fixture.remote)) <> []
      /\ exists cause,
           DBStore.GetDumpsByIDs (dbStore Faults.closeFails)
             (filter (fun id => uploadCache Fixture.remote !! id = None)
                (elems (BatchIDs (cursor Fixture.remote)))) = inl cause
           /\ ErrMulti [ErrWrap (ErrNew "connection reset")
                          "dbstore.ReferenceIDsAndFilters.Close"]
              = ErrWrap cause "dbstore.GetDumpsByIDs")
  \/ (elems (BatchIDs (cursor Fixture.remote)) <> []
      /\ exists s1 uploads,
           uploadsByIDs Fixture.commitsKnown Faults.closeFails
             (elems (BatchIDs (cursor Fixture.remote))) s1
           = (Ok uploads, Fixture.remote)
           /\ monikerLocations Faults.closeFails uploads [Fixture.foo] "references" 10
                (RemoteOffset (cursor Fixture.remote))
              = inl (ErrMulti [ErrWrap (ErrNew "connection reset")
                                 "dbstore.ReferenceIDsAndFilters.Close"])).
Proof.
  apply (pageRemoteReferences_errors Fixture.decode Fixture.commitsKnown
           Faults.closeFails 5 "references" [Fixture.visible] [Fixture.foo] [] 10
           Fixture.remote Fixture.remote).
  vm_compute. reflexivity.
Defined.

(** * Code insights usage statistics *)

Lemma sumCounts_perm (l k : list Z) : l ≡ₚ k -> sumCounts l = sumCounts k.
Proof.
  unfold sumCounts. induction 1; cbn; lia.
Qed.

Lemma sumCounts_insert (m : gmap Z Z) k v :
  sumCounts (map snd (map_to_list (<[k := v]> m)))
  = sumCounts (map snd (map_to_list m)) - default 0 (m !! k) + v.
Proof.
  destruct (m !! k) as [c|] eqn:Hc; cbn [default].
  - rewrite <- (insert_delete_eq m k v).
    rewrite (sumCounts_perm _ _
               (fmap_Permutation snd _ _
                  (map_to_list_insert (delete k m) k v (lookup_delete_eq m k)))).
    rewrite <- (sumCounts_perm _ _
                  (fmap_Permutation snd _ _ (map_to_list_delete m k c Hc))).
    cbn. lia.
  - rewrite (sumCounts_perm _ _
               (fmap_Permutation snd _ _ (map_to_list_insert m k v Hc))).
    change (sumCounts (v :: map snd (map_to_list m))
            = sumCounts (map snd (map_to_list m)) - 0 + v).
    unfold sumCounts; cbn [foldr]. lia.
Qed.

(** The number of insights stepping by [d] days. *)
Lemma occurrences_snoc (d : Z) (l : list insights.SearchInsight) x :
  GoInt.len (filter (fun i => usagestats.convertStepToDays i = d) (l ++ [x]))
  = GoInt.len (filter (fun i => usagestats.convertStepToDays i = d) l)
    + (if decide (usagestats.convertStepToDays x = d) then 1 else 0).
Proof.
  rewrite filter_app, GoInt_len_app. f_equal.
  destruct (decide (usagestats.convertStepToDays x = d)) as [Hd|Hd].
  - rewrite filter_cons_True by assumption. reflexivity.
  - rewrite filter_cons_False by assumption. reflexivity.
Qed.

Lemma occurrences_le (d : Z) (l : list insights.SearchInsight) :
  GoInt.len (filter (fun i => usagestats.convertStepToDays i = d) l) <= GoInt.len l.
Proof.
  unfold GoInt.len. pose proof (length_filter (fun i => usagestats.convertStepToDays i = d) l).
  lia.
Qed.

Lemma countDays_snoc m l x :
  usagestats.countDays m (l ++ [x])
  = <[usagestats.convertStepToDays x :=
        GoInt.add (default 0 (usagestats.countDays m l !! usagestats.convertStepToDays x)) 1]>
      (usagestats.countDays m l).
Proof. unfold usagestats.countDays. rewrite foldl_app. reflexivity. Qed.

(** What the first loop of [GetTimeStepCounts] leaves in the map. *)
Lemma countDays_histogram (l : list insights.SearchInsight) :
  GoInt.len l <= GoInt.max_int ->
  let m := usagestats.countDays ∅ l in
  (forall d c, m !! d = Some c <->
     0 < c /\ c = GoInt.len (filter (fun i => usagestats.convertStepToDays i = d) l))
  /\ sumCounts (map snd (map_to_list m)) = GoInt.len l.
Proof.
  induction l as [|x l IH] using rev_ind; intros Hlen m.
  - subst m. cbn. split; [|rewrite map_to_list_empty; reflexivity].
    intros d c. rewrite lookup_empty. split; [discriminate|].
    unfold GoInt.len; cbn. lia.
  - rewrite GoInt_len_app in Hlen. change (GoInt.len [x]) with 1 in Hlen.
    destruct IH as [IHm IHs]; [lia|].
    subst m. rewrite countDays_snoc.
    set (m := usagestats.countDays ∅ l) in *.
    set (dx := usagestats.convertStepToDays x).
    assert (Hadd : forall c, c <= GoInt.len l -> 0 <= c -> GoInt.add c 1 = c + 1).
    { intros c Hc Hc0. apply GoInt_add_exact.
      unfold GoInt.in_range, GoInt.min_int, GoInt.max_int in *. lia. }
    assert (Hcur : default 0 (m !! dx)
                   = GoInt.len (filter (fun i => usagestats.convertStepToDays i = dx) l)).
    { destruct (m !! dx) as [c|] eqn:Hc; cbn.
      - apply IHm in Hc. tauto.
      - destruct (decide (0 < GoInt.len (filter
                   (fun i => usagestats.convertStepToDays i = dx) l))) as [Hpos|Hz].
        + assert (m !! dx = Some (GoInt.len (filter
                    (fun i => usagestats.convertStepToDays i = dx) l)))
            by (apply IHm; split; [exact Hpos|reflexivity]).
          congruence.
        + pose proof (GoInt_len_nonneg (filter
                    (fun i => usagestats.convertStepToDays i = dx) l)). lia. }
    pose proof (occurrences_le dx l) as Hle.
    pose proof (GoInt_len_nonneg (filter
                  (fun i => usagestats.convertStepToDays i = dx) l)) as Hnn.
    rewrite Hadd by (rewrite Hcur; assumption).
    split.
    + intros d c. rewrite occurrences_snoc. fold dx.
      destruct (decide (dx = d)) as [<-|Hne].
      * rewrite lookup_insert_eq, Hcur. split; [intros [= <-]|intros [_ ->]].
        -- split; [lia|reflexivity].
        -- reflexivity.
      * rewrite lookup_insert_ne by assumption. rewrite IHm, Z.add_0_r. reflexivity.
    + rewrite GoInt_len_app. change (GoInt.len [x]) with 1. rewrite <- IHs.
      rewrite sumCounts_insert. lia.
Qed.

Lemma GetTimeStepCounts_results rangeOrder definedInsights :
  usagestats.GetTimeStepCounts rangeOrder (inr definedInsights)
  = Ok (map (fun '(interval, count) =>
               {| types.IntervalDays := interval; types.TotalCount := count |})
          (rangeOrder (usagestats.countDays ∅ definedInsights))).
Proof.
  unfold usagestats.GetTimeStepCounts. f_equal.
  generalize (rangeOrder (usagestats.countDays ∅ definedInsights)). intros l.
  enough (H : forall acc,
             foldl (fun results '(interval, count) =>
                      results ++ [ {| types.IntervalDays := interval;
                                      types.TotalCount := count |} ]) acc l
             = acc ++ map (fun '(interval, count) =>
                             {| types.IntervalDays := interval;
                                types.TotalCount := count |}) l)
    by (exact (H [])).
  induction l as [|[interval count] l IH]; intros acc; cbn [foldl map].
  - rewrite app_nil_r. reflexivity.
  - rewrite IH, <- app_assoc. reflexivity.
Qed.

(** X26: whatever order the runtime ranges over the map in,
    [GetTimeStepCounts] answers a histogram of the defined insights by step
    length in days: one ping per step length that occurs, no step length
    twice, each ping counting the insights of its step length, the counts
    adding up to the number of insights. *)
Theorem GetTimeStepCounts_histogram (rangeOrder : gmap Z Z -> list (Z * Z))
    (definedInsights : list insights.SearchInsight) :
  (forall m, rangeOrder m ≡ₚ map_to_list m) ->
  GoInt.len definedInsights <= GoInt.max_int ->
  exists results,
    usagestats.GetTimeStepCounts rangeOrder (inr definedInsights) = Ok results
    /\ NoDup (map types.IntervalDays results)
    /\ (forall ping, ping ∈ results <->
          0 < types.TotalCount ping
          /\ types.TotalCount ping
             = GoInt.len (filter (fun i => usagestats.convertStepToDays i
                                           = types.IntervalDays ping) definedInsights))
    /\ sumCounts (map types.TotalCount results) = GoInt.len definedInsights.
Proof.
  intros Horder Hlen.
  destruct (countDays_histogram definedInsights Hlen) as [Hm Hsum].
  set (m := usagestats.countDays ∅ definedInsights) in *.
  eexists. split; [apply GetTimeStepCounts_results|]. fold m.
  set (mk := fun '(interval, count) =>
               {| types.IntervalDays := interval; types.TotalCount := count |}).
  assert (Hdays : map types.IntervalDays (map mk (rangeOrder m)) = map fst (rangeOrder m)).
  { rewrite map_map. apply map_ext. intros [i c]. reflexivity. }
  assert (Hcounts : map types.TotalCount (map mk (rangeOrder m)) = map snd (rangeOrder m)).
  { rewrite map_map. apply map_ext. intros [i c]. reflexivity. }
  split; [|split].
  - rewrite Hdays. rewrite (fmap_Permutation fst _ _ (Horder m)).
    apply NoDup_fst_map_to_list.
  - intros [d c]. cbn [types.TotalCount types.IntervalDays]. rewrite <- Hm.
    rewrite <- elem_of_map_to_list, <- (Horder m).
    rewrite list_elem_of_In, in_map_iff. split.
    + intros ([i k] & [= -> ->] & Hin). apply list_elem_of_In, Hin.
    + intros Hin. exists (d, c). split; [reflexivity|apply list_elem_of_In, Hin].
  - rewrite Hcounts, <- Hsum. apply sumCounts_perm.
    apply (fmap_Permutation snd), Horder.
Qed.

Lemma GetTimeStepCounts_histogram_witness :
  exists results,
    usagestats.GetTimeStepCounts map_to_list (inr Settings.defined) = Ok results
    /\ NoDup (map types.IntervalDays results)
    /\ (forall ping, ping ∈ results <->
          0 < types.TotalCount ping
          /\ types.TotalCount ping
             = GoInt.len (filter (fun i => usagestats.convertStepToDays i
                                           = types.IntervalDays ping) Settings.defined))
    /\ sumCounts (map types.TotalCount results) = GoInt.len Settings.defined.
Proof.
  apply GetTimeStepCounts_histogram.
  - intros m. reflexivity.
  - vm_compute. discriminate.
Defined.

Example GetTimeStepCounts_settings :
  exists results,
    usagestats.GetTimeStepCounts map_to_list (inr Settings.defined) = Ok results
    /\ results ≡ₚ [ {| types.IntervalDays := 0; types.TotalCount := 1 |};
                    {| types.IntervalDays := 7; types.TotalCount := 2 |};
                    {| types.IntervalDays := 60; types.TotalCount := 1 |} ].
Proof.
  eexists. split; [vm_compute; reflexivity|].
  apply NoDup_Permutation.
  - repeat (constructor; [rewrite ?elem_of_cons, ?elem_of_nil; intuition discriminate|]).
    constructor.
  - repeat (constructor; [rewrite ?elem_of_cons, ?elem_of_nil; intuition discriminate|]).
    constructor.
  - intros x. rewrite !elem_of_cons, !elem_of_nil. tauto.
Qed.

(** X27: [WithAll] keeps the pings the builder already has and adds the
    given names after them, in the order given; the time window and the
    clock are left alone.  On a new builder the pings are the given
    names. *)
Theorem WithAll_appends {Time} (names : list types.PingName)
    (b : usagestats.PingQueryBuilder Time) :
  usagestats.pings (usagestats.WithAll names b) = usagestats.pings b ++ names
  /\ usagestats.timeWindow (usagestats.WithAll names b) = usagestats.timeWindow b
  /\ usagestats.getTime (usagestats.WithAll names b) = usagestats.getTime b
  /\ forall timeWindow timeSupplier,
       usagestats.pings
         (usagestats.WithAll names
            (usagestats.NewPingBuilder (Time := Time) timeWindow timeSupplier))
       = names.
Proof.
  assert (H : forall b : usagestats.PingQueryBuilder Time,
             usagestats.pings (usagestats.WithAll names b) = usagestats.pings b ++ names
             /\ usagestats.timeWindow (usagestats.WithAll names b) = usagestats.timeWindow b
             /\ usagestats.getTime (usagestats.WithAll names b) = usagestats.getTime b).
  { unfold usagestats.WithAll.
    induction names as [|p names IH]; intros b'; cbn [foldl].
    - rewrite app_nil_r. auto.
    - destruct (IH (usagestats.With p b')) as (Hp & Hw & Ht).
      rewrite Hp, Hw, Ht. cbn. rewrite <- app_assoc. auto. }
  destruct (H b) as (Hp & Hw & Ht). repeat split; try assumption.
  intros timeWindow timeSupplier.
  destruct (H (usagestats.NewPingBuilder timeWindow timeSupplier)) as (Hp' & _).
  rewrite Hp'. reflexivity.
Qed.
